(** * Battery backtest core: a shallow embedding of the Go sources

    The development follows the package structure of the repository:
    [model] (battery physics), [strategy] (schedule and oracle dispatch),
    [backtest] (the engine) and [analysis] (node ranking).

    Numbers.  Go's [float64] is embedded twice.  The packages are embedded
    over [float64] below: an exact rational or one of the three IEEE special
    values.  Arithmetic on finite values is exact (no rounding, no overflow
    or underflow, a single zero); the special values follow IEEE 754 and the
    documented special cases of Go's [math] package.  The general theorems
    are stated over this type; what they state is either independent of how
    float64 rounds (comparisons, clipping, the shape of a result) or says
    "exact arithmetic" in so many words.  Where the Go code's outcome does
    depend on rounding, the functions concerned are embedded again in module
    [ieee], over Rocq's primitive binary64 floats, and evaluated there.

    Go's [int] is embedded as [Z]; the theorems that depend on the size of an
    int say so in a hypothesis.  A pointer receiver that a method mutates
    becomes a value passed in and returned.  A call that can return an error
    or panic returns a [result]. *)

From Stdlib Require Import ZArith QArith Qround Qabs Qminmax Lqa Lia List String Ascii Bool.
From Stdlib Require Floats.
Import ListNotations.

Set Implicit Arguments.

(** ** Results of fallible Go calls *)

(** A Go call either returns normally, returns a non-nil [error], or panics. *)
Inductive result (A : Type) : Type :=
| Ok (a : A)
| Err (msg : string)
| Panic (msg : string).

Arguments Ok {A} a.
Arguments Err {A} msg.
Arguments Panic {A} msg.

Definition bind {A B} (m : result A) (k : A -> result B) : result B :=
  match m with
  | Ok a => k a
  | Err e => Err e
  | Panic e => Panic e
  end.

Notation "x <- m ;; k" := (bind m (fun x => k))
  (at level 61, m at next level, right associativity).
Notation "' pat <- m ;; k" := (bind m (fun x => match x with pat => k end))
  (at level 61, pat pattern, m at next level, right associativity).

Definition is_ok {A} (m : result A) : bool :=
  match m with Ok _ => true | _ => false end.

(** ** float64 *)

Module F64.

Inductive float64 : Type :=
| Fin (q : Q)
| PInf
| NInf
| NaN.

Definition Qltb (a b : Q) : bool := negb (Qle_bool b a).

(** Sign of a rational: -1, 0 or 1 as a comparison. *)
Definition Qsign (a : Q) : comparison := (0 ?= a)%Q.

Definition neg (x : float64) : float64 :=
  match x with
  | Fin a => Fin (- a)
  | PInf => NInf
  | NInf => PInf
  | NaN => NaN
  end.

Definition add (x y : float64) : float64 :=
  match x, y with
  | NaN, _ | _, NaN => NaN
  | Fin a, Fin b => Fin (a + b)
  | PInf, NInf | NInf, PInf => NaN
  | PInf, _ | _, PInf => PInf
  | NInf, _ | _, NInf => NInf
  end.

Definition sub (x y : float64) : float64 := add x (neg y).

(** An infinity scaled by a finite factor. *)
Definition scale_inf (pos : bool) (a : Q) : float64 :=
  match Qsign a with
  | Eq => NaN
  | Lt => if pos then PInf else NInf
  | Gt => if pos then NInf else PInf
  end.

Definition mul (x y : float64) : float64 :=
  match x, y with
  | NaN, _ | _, NaN => NaN
  | Fin a, Fin b => Fin (a * b)
  | Fin a, PInf | PInf, Fin a => scale_inf true a
  | Fin a, NInf | NInf, Fin a => scale_inf false a
  | PInf, PInf | NInf, NInf => PInf
  | PInf, NInf | NInf, PInf => NInf
  end.

(** Division.  With a single zero, [x / 0] takes the sign of [x]. *)
Definition div (x y : float64) : float64 :=
  match x, y with
  | NaN, _ | _, NaN => NaN
  | Fin a, Fin b =>
      if Qeq_bool b 0 then scale_inf true a else Fin (a / b)
  | Fin _, (PInf | NInf) => Fin 0
  | PInf, Fin b => if Qltb b 0 then NInf else PInf
  | NInf, Fin b => if Qltb b 0 then PInf else NInf
  | (PInf | NInf), (PInf | NInf) => NaN
  end.

(** Comparisons: every comparison with NaN is false. *)
Definition lt (x y : float64) : bool :=
  match x, y with
  | NaN, _ | _, NaN => false
  | Fin a, Fin b => Qltb a b
  | NInf, (Fin _ | PInf) => true
  | Fin _, PInf => true
  | _, _ => false
  end.

Definition le (x y : float64) : bool :=
  match x, y with
  | NaN, _ | _, NaN => false
  | Fin a, Fin b => Qle_bool a b
  | NInf, _ => true
  | _, PInf => true
  | _, _ => false
  end.

Definition gt (x y : float64) : bool := lt y x.
Definition ge (x y : float64) : bool := le y x.

Definition IsNaN (x : float64) : bool :=
  match x with NaN => true | _ => false end.

Definition is_finite (x : float64) : bool :=
  match x with Fin _ => true | _ => false end.

(** [math.Abs] *)
Definition Abs (x : float64) : float64 :=
  match x with
  | Fin a => Fin (Qabs a)
  | PInf | NInf => PInf
  | NaN => NaN
  end.

(** [math.Min]: -Inf wins, then NaN, then the smaller argument. *)
Definition Min (x y : float64) : float64 :=
  match x, y with
  | NInf, _ | _, NInf => NInf
  | NaN, _ | _, NaN => NaN
  | _, _ => if lt x y then x else y
  end.

(** [math.Max]: +Inf wins, then NaN, then the larger argument. *)
Definition Max (x y : float64) : float64 :=
  match x, y with
  | PInf, _ | _, PInf => PInf
  | NaN, _ | _, NaN => NaN
  | _, _ => if gt x y then x else y
  end.

(** [math.Floor], [math.Ceil], [math.Round] (half away from zero). *)
Definition Floor (x : float64) : float64 :=
  match x with Fin a => Fin (inject_Z (Qfloor a)) | _ => x end.

Definition Ceil (x : float64) : float64 :=
  match x with Fin a => Fin (inject_Z (Qceiling a)) | _ => x end.

Definition Qround_half_away (a : Q) : Z :=
  if Qle_bool 0 a then Qfloor (a + (1 # 2)) else Qceiling (a - (1 # 2)).

Definition Round (x : float64) : float64 :=
  match x with Fin a => Fin (inject_Z (Qround_half_away a)) | _ => x end.

(** [float64(k)] for an [int] k. *)
Definition of_int (k : Z) : float64 := Fin (inject_Z k).

(** [int(x)]: truncation toward zero.  A value that does not fit a 64-bit
    [int] (and NaN) converts to the minimal int, as on amd64. *)
Definition min_int : Z := - 2 ^ 63.

Definition Qtrunc (a : Q) : Z :=
  if Qle_bool 0 a then Qfloor a else Qceiling a.

Definition to_int (x : float64) : Z :=
  match x with
  | Fin a =>
      let z := Qtrunc a in
      if ((min_int <=? z) && (z <? 2 ^ 63))%Z then z else min_int
  | _ => min_int
  end.

(** The same number: equal rationals, or the same special value.  This is the
    equality of values, not Go's [==] (under which NaN differs from itself). *)
Definition same (x y : float64) : Prop :=
  match x, y with
  | Fin a, Fin b => a == b
  | PInf, PInf | NInf, NInf | NaN, NaN => True
  | _, _ => False
  end.

End F64.

Export F64.

Declare Scope f64_scope.
Delimit Scope f64_scope with f64.
Bind Scope f64_scope with float64.
Infix "+" := add : f64_scope.
Infix "-" := sub : f64_scope.
Infix "*" := mul : f64_scope.
Infix "/" := div : f64_scope.
Notation "- x" := (neg x) : f64_scope.
Infix "<?" := lt : f64_scope.
Infix "<=?" := le : f64_scope.
Infix ">?" := gt : f64_scope.
Infix ">=?" := ge : f64_scope.
Infix "==" := same (at level 70, no associativity) : f64_scope.

(** Float literals used by the sources. *)
Definition f0 : float64 := Fin 0.
Definition f1 : float64 := Fin 1.

(** ** Package model: battery.go, action.go, marketdata.go *)

Module model.

Local Open Scope f64_scope.

Record BatteryParams : Type := {
  EnergyCapacityMWh : float64;
  PowerCapacityMW : float64;
  ChargeEfficiency : float64;
  DischargeEfficiency : float64;
  MinSOC : float64;
  MaxSOC : float64;
  DegradationCostPerMWh : float64
}.

Record BatteryState : Type := { SOC : float64 }.

Record Battery : Type := { Params : BatteryParams; State : BatteryState }.

Definition Validate (b : Battery) : result unit :=
  let p := Params b in
  if EnergyCapacityMWh p <=? f0 then Err "EnergyCapacityMWh must be > 0"
  else if PowerCapacityMW p <=? f0 then Err "PowerCapacityMW must be > 0"
  else if (ChargeEfficiency p <=? f0) || (ChargeEfficiency p >? f1)
    then Err "ChargeEfficiency must be in (0, 1]"
  else if (DischargeEfficiency p <=? f0) || (DischargeEfficiency p >? f1)
    then Err "DischargeEfficiency must be in (0, 1]"
  else if (MinSOC p <? f0) || (MinSOC p >? f1) || (MaxSOC p <? f0)
          || (MaxSOC p >? f1) || (MinSOC p >? MaxSOC p)
    then Err "MinSOC/MaxSOC must satisfy 0<=MinSOC<=MaxSOC<=1"
  else if (SOC (State b) <? MinSOC p) || (SOC (State b) >? MaxSOC p)
    then Err "initial SOC must be within [MinSOC, MaxSOC]"
  else if DegradationCostPerMWh p <? f0
    then Err "DegradationCostPerMWh must be >= 0"
  else Ok tt.

Definition NewBattery (params : BatteryParams) (initialSOC : float64)
  : result Battery :=
  let b := {| Params := params; State := {| SOC := initialSOC |} |} in
  _ <- Validate b ;;
  Ok b.

(** Requested power for an interval: positive discharges, negative charges. *)
Record Dispatch : Type := { PowerMW : float64 }.

Record IntervalResult : Type := {
  rPowerMW : float64;
  rEnergyToGridMWh : float64;
  rEnergyFromGridMWh : float64;
  rThroughputMWh : float64;
  rSOCStart : float64;
  rSOCEnd : float64;
  rPNL : float64
}.

(** Go's zero value [IntervalResult{}]. *)
Definition IntervalResult_zero : IntervalResult :=
  {| rPowerMW := f0; rEnergyToGridMWh := f0; rEnergyFromGridMWh := f0;
     rThroughputMWh := f0; rSOCStart := f0; rSOCEnd := f0; rPNL := f0 |}.

Definition ClipDispatch (b : Battery) (d : Dispatch) : Dispatch :=
  let p := PowerMW d in
  let p := if p >? PowerCapacityMW (Params b) then PowerCapacityMW (Params b) else p in
  let p := if p <? - PowerCapacityMW (Params b) then - PowerCapacityMW (Params b) else p in
  {| PowerMW := p |}.

Definition CalculateIntervalPnL (b : Battery) (lmp energyFromGridMWh energyToGridMWh : float64)
  : float64 :=
  let revenue := lmp * energyToGridMWh in
  let cost := lmp * energyFromGridMWh in
  let degradation :=
    DegradationCostPerMWh (Params b) * (energyFromGridMWh + energyToGridMWh) in
  revenue - cost - degradation.

Definition maxChargeEnergyFromGridMWh (b : Battery) (durationHours : float64) : float64 :=
  let storableMWh := (MaxSOC (Params b) - SOC (State b)) * EnergyCapacityMWh (Params b) in
  if storableMWh <=? f0 then f0
  else
    let limitBySOC := storableMWh / ChargeEfficiency (Params b) in
    let limitByPower := PowerCapacityMW (Params b) * durationHours in
    Max f0 (Min limitBySOC limitByPower).

Definition maxDischargeEnergyToGridMWh (b : Battery) (durationHours : float64) : float64 :=
  let withdrawableMWh := (SOC (State b) - MinSOC (Params b)) * EnergyCapacityMWh (Params b) in
  if withdrawableMWh <=? f0 then f0
  else
    let limitBySOC := withdrawableMWh * DischargeEfficiency (Params b) in
    let limitByPower := PowerCapacityMW (Params b) * durationHours in
    Max f0 (Min limitBySOC limitByPower).

Definition clamp01 (x : float64) : float64 :=
  if x <? f0 then f0 else if x >? f1 then f1 else x.

Definition set_SOC (b : Battery) (soc : float64) : Battery :=
  {| Params := Params b; State := {| SOC := soc |} |}.

(** [ApplyDispatch] mutates the battery behind its pointer receiver: the
    second component is the battery after the call. *)
Definition ApplyDispatch (b : Battery) (lmp : float64) (d : Dispatch) (durationHours : float64)
  : result IntervalResult * Battery :=
  if durationHours <=? f0 then (Err "durationHours must be > 0", b)
  else
    let d := ClipDispatch b d in
    let p := PowerMW d in
    let socStart := SOC (State b) in
    let maxChargeMWhGrid := maxChargeEnergyFromGridMWh b durationHours in
    let maxDischargeMWhGrid := maxDischargeEnergyToGridMWh b durationHours in
    if p <? f0 then
      let reqFromGridMWh := Abs p * durationHours in
      let '(reqFromGridMWh, p) :=
        if reqFromGridMWh >? maxChargeMWhGrid
        then (maxChargeMWhGrid, - maxChargeMWhGrid / durationHours)
        else (reqFromGridMWh, p) in
      let storedMWh := reqFromGridMWh * ChargeEfficiency (Params b) in
      let b' := set_SOC b
        (clamp01 ((SOC (State b) * EnergyCapacityMWh (Params b) + storedMWh)
                  / EnergyCapacityMWh (Params b))) in
      (Ok {| rPowerMW := p;
             rEnergyToGridMWh := f0;
             rEnergyFromGridMWh := reqFromGridMWh;
             rThroughputMWh := reqFromGridMWh;
             rSOCStart := socStart;
             rSOCEnd := SOC (State b');
             rPNL := CalculateIntervalPnL b' lmp reqFromGridMWh f0 |}, b')
    else if p >? f0 then
      let reqToGridMWh := p * durationHours in
      let '(reqToGridMWh, p) :=
        if reqToGridMWh >? maxDischargeMWhGrid
        then (maxDischargeMWhGrid, maxDischargeMWhGrid / durationHours)
        else (reqToGridMWh, p) in
      let withdrawnMWh := reqToGridMWh / DischargeEfficiency (Params b) in
      let b' := set_SOC b
        (clamp01 ((SOC (State b) * EnergyCapacityMWh (Params b) - withdrawnMWh)
                  / EnergyCapacityMWh (Params b))) in
      (Ok {| rPowerMW := p;
             rEnergyToGridMWh := reqToGridMWh;
             rEnergyFromGridMWh := f0;
             rThroughputMWh := reqToGridMWh;
             rSOCStart := socStart;
             rSOCEnd := SOC (State b');
             rPNL := CalculateIntervalPnL b' lmp f0 reqToGridMWh |}, b')
    else
      (Ok {| rPowerMW := f0;
             rEnergyToGridMWh := f0;
             rEnergyFromGridMWh := f0;
             rThroughputMWh := f0;
             rSOCStart := socStart;
             rSOCEnd := SOC (State b);
             rPNL := CalculateIntervalPnL b lmp f0 f0 |}, b).

(** *** action.go *)

Inductive Action : Type := ActionCharging | ActionIdle | ActionDischarging.

Definition ActionFromPowerMW (powerMW : float64) : Action :=
  if powerMW <? f0 then ActionCharging
  else if powerMW >? f0 then ActionDischarging
  else ActionIdle.

(** *** marketdata.go

    [time.Time] is embedded as an instant (nanoseconds since the Unix epoch)
    together with the fixed zone offset the timestamp was written with
    (seconds east of UTC), which is what parsing an RFC 3339 string yields. *)

Record Time : Type := { unixNano : Z; zoneOffset : Z }.

(** January 1, year 1, 00:00:00 UTC in Unix seconds. *)
Definition zeroUnix : Z := -62135596800.

Definition Time_zero : Time := {| unixNano := zeroUnix * 1000000000; zoneOffset := 0 |}.

Definition IsZero (t : Time) : bool := (unixNano t =? zeroUnix * 1000000000)%Z.

Definition unixSec (t : Time) : Z := (unixNano t / 1000000000)%Z.

(** Seconds of local wall-clock time since the Unix epoch. *)
Definition localSec (t : Time) : Z := (unixSec t + zoneOffset t)%Z.

Definition Hour (t : Time) : Z := ((localSec t mod 86400) / 3600)%Z.
Definition Minute (t : Time) : Z := ((localSec t mod 3600) / 60)%Z.

(** The instant [time.Date(t.Year(), t.Month(), t.Day(), 0, 0, 0, 0, t.Location())],
    in Unix seconds: local midnight of the calendar day that contains [t]. *)
Definition dayStart (t : Time) : Z := ((localSec t / 86400) * 86400 - zoneOffset t)%Z.

(** [time.Duration]: int64 nanoseconds; [Time.Sub] saturates. *)
Definition maxDuration : Z := 2 ^ 63 - 1.
Definition minDuration : Z := - 2 ^ 63.

Definition Sub (t u : Time) : Z :=
  Z.max minDuration (Z.min maxDuration (unixNano t - unixNano u)).

Definition Hours (d : Z) : float64 := Fin (d # 3600000000000).

Record LMPInterval : Type := {
  IntervalStartLocal : Time;
  IntervalStartUTC : Time;
  IntervalEndLocal : Time;
  IntervalEndUTC : Time;
  Market : string;
  Location : string;
  LocationType : string;
  LMP : float64;
  Energy : float64;
  Congestion : float64;
  Loss : float64;
  GHG : float64
}.

Definition Duration (i : LMPInterval) : Z :=
  if negb (IsZero (IntervalEndUTC i)) && negb (IsZero (IntervalStartUTC i))
  then Sub (IntervalEndUTC i) (IntervalStartUTC i)
  else Sub (IntervalEndLocal i) (IntervalStartLocal i).

Definition DurationHours (i : LMPInterval) : float64 := Hours (Duration i).

End model.

(** ** Slices

    A Go slice of fixed length is a list; indexing outside it panics. *)

Module slice.

Definition get {A} (l : list A) (i : Z) : result A :=
  if (i <? 0)%Z then Panic "index out of range"
  else match nth_error l (Z.to_nat i) with
       | Some x => Ok x
       | None => Panic "index out of range"
       end.

Fixpoint upd {A} (l : list A) (n : nat) (x : A) : list A :=
  match l, n with
  | [], _ => []
  | _ :: t, O => x :: t
  | h :: t, S n' => h :: upd t n' x
  end.

Definition set {A} (l : list A) (i : Z) (x : A) : result (list A) :=
  if ((i <? 0) || (Z.of_nat (List.length l) <=? i))%Z then Panic "index out of range"
  else Ok (upd l (Z.to_nat i) x).

(** [make([]T, n)] filled with [x]; a negative length panics. *)
Definition make {A} (x : A) (n : Z) : result (list A) :=
  if (n <? 0)%Z then Panic "makeslice: len out of range"
  else Ok (repeat x (Z.to_nat n)).

(** The indices [0 .. n-1] of a [for i := 0; i < n; i++] loop. *)
Definition range (n : Z) : list Z := map Z.of_nat (seq 0 (Z.to_nat n)).

(** The pairs of a [for i, x := range l] loop. *)
Definition indexed {A} (l : list A) : list (Z * A) :=
  combine (range (Z.of_nat (List.length l))) l.

(** A loop body run over a list, stopping at the first error or panic. *)
Fixpoint foldM {A B} (f : A -> B -> result A) (l : list B) (a : A) : result A :=
  match l with
  | [] => Ok a
  | x :: t => a' <- f a x ;; foldM f t a'
  end.

End slice.

(** ** Package strategy: strategy.go, schedule.go, oracle *)

Module strategy.

Import model.
Local Open Scope f64_scope.

Record Context : Type := {
  Index : Z;
  Interval : LMPInterval;
  Battery : model.Battery
}.

(** The [Strategy] interface.  [Decide] has a pointer receiver: it returns the
    dispatch (or panics) together with the strategy value after the call. *)
Class Strategy (S : Type) : Type := {
  Name : S -> string;
  Decide : S -> Context -> result Dispatch * S
}.

(** *** schedule.go *)

Record ScheduleParams : Type := {
  ChargeStart : string;
  ChargeEnd : string;
  DischargeStart : string;
  DischargeEnd : string;
  ChargePowerMW : float64;
  DischargePowerMW : float64
}.

Record ScheduleStrategy : Type := {
  sParams : ScheduleParams;
  initialized : bool;
  csMins : Z;
  ceMins : Z;
  dsMins : Z;
  deMins : Z
}.

(** The value [&ScheduleStrategy{Params: p}] the callers build. *)
Definition NewSchedule (p : ScheduleParams) : ScheduleStrategy :=
  {| sParams := p; initialized := false;
     csMins := 0; ceMins := 0; dsMins := 0; deMins := 0 |}.

(** **** Strings: [strings.TrimSpace], [strings.Split], [fmt.Sscanf("%d")]

    Strings are byte strings; only the ASCII white space is modelled. *)

Definition isSpace (c : ascii) : bool :=
  let n := nat_of_ascii c in
  (Nat.eqb n 32 || ((9 <=? n) && (n <=? 13)))%nat%bool.

Fixpoint trimLeft (s : string) : string :=
  match s with
  | String c t => if isSpace c then trimLeft t else s
  | EmptyString => EmptyString
  end.

Fixpoint trimRight (s : string) : string :=
  match s with
  | EmptyString => EmptyString
  | String c t =>
      match trimRight t with
      | EmptyString => if isSpace c then EmptyString else String c EmptyString
      | t' => String c t'
      end
  end.

Definition TrimSpace (s : string) : string := trimRight (trimLeft s).

(** [strings.Split(s, sep)] for a one-byte separator. *)
Fixpoint Split (s : string) (sep : ascii) : list string :=
  match s with
  | EmptyString => [EmptyString]
  | String c t =>
      if Ascii.eqb c sep then EmptyString :: Split t sep
      else match Split t sep with
           | h :: r => String c h :: r
           | [] => [String c EmptyString]
           end
  end.

Definition digitVal (c : ascii) : option Z :=
  let n := nat_of_ascii c in
  if ((48 <=? n) && (n <=? 57))%nat then Some (Z.of_nat (n - 48)) else None.

(** The token of [scanNumber]: the longest prefix of decimal digits and
    underscores. *)
Fixpoint scanNumber (s : string) : list ascii :=
  match s with
  | String c t =>
      if (match digitVal c with Some _ => true | None => false end)
         || Ascii.eqb c "_"
      then c :: scanNumber t else []
  | EmptyString => []
  end.

(** [strconv.ParseInt(tok, 10, 64)] on the digits of a token: an underscore is
    a syntax error in base 10. *)
Fixpoint parseDigits (tok : list ascii) (acc : Z) : option Z :=
  match tok with
  | [] => Some acc
  | c :: t =>
      match digitVal c with
      | Some d => parseDigits t (acc * 10 + d)%Z
      | None => None
      end
  end.

(** Leading blanks of [SkipSpace]; a newline is an error for [Sscanf]. *)
Fixpoint skipSpace (s : string) : option string :=
  match s with
  | String c t =>
      if Ascii.eqb c "010" then None
      else if isSpace c then skipSpace t
      else Some s
  | EmptyString => Some s
  end.

(** [fmt.Sscanf(s, "%d", &v)]: blanks, an optional sign, a decimal token; the
    rest of the input is not looked at.  [None] is a non-nil error.  The
    range check of the 64-bit result is not modelled. *)
Definition Sscanf_d (s : string) : option Z :=
  match skipSpace s with
  | None => None
  | Some s =>
      let '(sgn, body) :=
        match s with
        | String c t =>
            if Ascii.eqb c "-" then ((-1)%Z, t)
            else if Ascii.eqb c "+" then (1%Z, t)
            else (1%Z, s)
        | EmptyString => (1%Z, s)
        end in
      match scanNumber body with
      | [] => None
      | tok =>
          match parseDigits tok 0 with
          | Some v => Some (sgn * v)%Z
          | None => None
          end
      end
  end.

Definition parseHHMM (s : string) : result Z :=
  let s := TrimSpace s in
  match Split s ":" with
  | [hs; ms] =>
      match Sscanf_d hs with
      | None => Err "invalid hour"
      | Some h =>
          match Sscanf_d ms with
          | None => Err "invalid minute"
          | Some m =>
              if ((h <? 0) || (h >? 23) || (m <? 0) || (m >? 59))%Z
              then Err "invalid time"
              else Ok (h * 60 + m)%Z
          end
      end
  | _ => Err "invalid time, expected HH:MM"
  end.

(** [inWindow] checks whether tMins is in [start, end) on a 24h clock. *)
Definition inWindow (tMins start end_ : Z) : bool :=
  if (start =? end_)%Z then false
  else if (start <? end_)%Z then ((tMins >=? start) && (tMins <? end_))%Z
  else ((tMins >=? start) || (tMins <? end_))%Z.

(** [panic(err)] on a failed parse. *)
Definition must {A} (m : result A) : result A :=
  match m with
  | Err e => Panic e
  | _ => m
  end.

Definition isEmptyString (s : string) : bool :=
  match s with EmptyString => true | _ => false end.

(** The lazy initialisation at the head of [Decide]. *)
Definition initialize (s : ScheduleStrategy) : result ScheduleStrategy :=
  if initialized s then Ok s
  else
    cs <- must (parseHHMM (ChargeStart (sParams s))) ;;
    ds <- must (parseHHMM (DischargeStart (sParams s))) ;;
    ce <- (if negb (isEmptyString (TrimSpace (ChargeEnd (sParams s))))
           then must (parseHHMM (ChargeEnd (sParams s))) else Ok ds) ;;
    de <- (if negb (isEmptyString (TrimSpace (DischargeEnd (sParams s))))
           then must (parseHHMM (DischargeEnd (sParams s))) else Ok ds) ;;
    Ok {| sParams := sParams s; initialized := true;
          csMins := cs; ceMins := ce; dsMins := ds; deMins := de |}.

Definition ScheduleDecide (s : ScheduleStrategy) (ctx : Context)
  : result Dispatch * ScheduleStrategy :=
  match initialize s with
  | Ok s =>
      let mins := (Hour (IntervalStartLocal (Interval ctx)) * 60
                   + Minute (IntervalStartLocal (Interval ctx)))%Z in
      if inWindow mins (csMins s) (ceMins s)
      then (Ok {| PowerMW := - Abs (ChargePowerMW (sParams s)) |}, s)
      else if inWindow mins (dsMins s) (deMins s)
      then (Ok {| PowerMW := Abs (DischargePowerMW (sParams s)) |}, s)
      else (Ok {| PowerMW := f0 |}, s)
  | Err e => (Panic e, s)
  | Panic e => (Panic e, s)
  end.

#[export] Instance ScheduleStrategy_Strategy : Strategy ScheduleStrategy := {
  Name := fun _ => "schedule"%string;
  Decide := ScheduleDecide
}.

(** *** The oracle strategy

    A plan computed up-front by dynamic programming on a discretised SOC
    grid, one calendar day at a time. *)

Record OracleStrategy : Type := { plan : list Dispatch }.

Record OracleParams : Type := { SocSteps : Z; PowerSteps : Z }.

(** [simulateInterval] is a pure version of the battery interval physics and
    PnL; it returns (nextSOC, realizedPower, pnl). *)
Definition simulateInterval (soc desiredPower lmp dtH : float64) (p : BatteryParams)
  : float64 * float64 * float64 :=
  let power := desiredPower in
  let power := if power >? PowerCapacityMW p then PowerCapacityMW p else power in
  let power := if power <? - PowerCapacityMW p then - PowerCapacityMW p else power in
  let '(nextSOC, power, energyFromGrid, energyToGrid) :=
    if power <? f0 then
      let reqFromGrid := Abs power * dtH in
      let storableMWh := (MaxSOC p - soc) * EnergyCapacityMWh p in
      let storableMWh := if storableMWh <? f0 then f0 else storableMWh in
      let limitBySOC := storableMWh / ChargeEfficiency p in
      let limitByPower := PowerCapacityMW p * dtH in
      let maxFromGrid := Min limitBySOC limitByPower in
      let '(reqFromGrid, power) :=
        if (reqFromGrid >? maxFromGrid) && (dtH >? f0)
        then (maxFromGrid, - maxFromGrid / dtH)
        else (reqFromGrid, power) in
      let storedMWh := reqFromGrid * ChargeEfficiency p in
      (soc + storedMWh / EnergyCapacityMWh p, power, reqFromGrid, f0)
    else if power >? f0 then
      let reqToGrid := power * dtH in
      let withdrawableMWh := (soc - MinSOC p) * EnergyCapacityMWh p in
      let withdrawableMWh := if withdrawableMWh <? f0 then f0 else withdrawableMWh in
      let limitBySOC := withdrawableMWh * DischargeEfficiency p in
      let limitByPower := PowerCapacityMW p * dtH in
      let maxToGrid := Min limitBySOC limitByPower in
      let '(reqToGrid, power) :=
        if (reqToGrid >? maxToGrid) && (dtH >? f0)
        then (maxToGrid, maxToGrid / dtH)
        else (reqToGrid, power) in
      let withdrawnMWh := reqToGrid / DischargeEfficiency p in
      (soc - withdrawnMWh / EnergyCapacityMWh p, power, f0, reqToGrid)
    else (soc, power, f0, f0) in
  let nextSOC := if nextSOC <? MinSOC p then MinSOC p else nextSOC in
  let nextSOC := if nextSOC >? MaxSOC p then MaxSOC p else nextSOC in
  let revenue := lmp * energyToGrid in
  let cost := lmp * energyFromGrid in
  let deg := DegradationCostPerMWh p * (energyFromGrid + energyToGrid) in
  (nextSOC, power, revenue - cost - deg).

(** The two closures of [optimizeDP] over the SOC grid. *)
Definition socToIdx (p : BatteryParams) (socSteps : Z) (soc : float64) : Z :=
  if soc <=? MinSOC p then 0%Z
  else if soc >=? MaxSOC p then socSteps
  else
    let f := (soc - MinSOC p) / (MaxSOC p - MinSOC p) in
    to_int (Round (f * of_int socSteps)).

Definition idxToSoc (p : BatteryParams) (socSteps : Z) (idx : Z) : float64 :=
  if (idx <=? 0)%Z then MinSOC p
  else if (idx >=? socSteps)%Z then MaxSOC p
  else
    let f := of_int idx / of_int socSteps in
    MinSOC p + f * (MaxSOC p - MinSOC p).

(** [-1e100] *)
Definition negInf : float64 := Fin (inject_Z (- 10 ^ 100)).

Definition f2 : float64 := Fin 2.

(** The action set: [float64(k) * step] for k from -powerSteps to powerSteps. *)
Definition actionSet (p : BatteryParams) (powerSteps : Z) : list float64 :=
  let pmax := PowerCapacityMW p in
  let step := pmax / of_int powerSteps in
  map (fun k => of_int (k - powerSteps) * step)
      (slice.range (2 * powerSteps + 1)).

(** State of the loop over the actions tried from one SOC state. *)
Record ActionAcc : Type := {
  a_next : list float64;
  bestValue : float64;
  bestNextState : Z;
  bestPower : float64
}.

Definition actionStep (p : BatteryParams) (socSteps : Z) (lmp dtH dpS soc : float64)
    (acc : ActionAcc) (desiredPower : float64) : result ActionAcc :=
  let '(nsoc, realizedPower, pnl) := simulateInterval soc desiredPower lmp dtH p in
  let ns := socToIdx p socSteps nsoc in
  let v := dpS + pnl in
  cur <- slice.get (a_next acc) ns ;;
  next <- (if v >? cur then slice.set (a_next acc) ns v else Ok (a_next acc)) ;;
  if v >? bestValue acc
  then Ok {| a_next := next; bestValue := v; bestNextState := ns;
             bestPower := realizedPower |}
  else Ok {| a_next := next; bestValue := bestValue acc;
             bestNextState := bestNextState acc; bestPower := bestPower acc |}.

(** The tables of [optimizeDP]. *)
Record Tables : Type := {
  dp : list float64;
  next : list float64;
  choice : list (list Z);
  powerChosen : list (list float64)
}.

Definition set2 {A} (m : list (list A)) (t s : Z) (x : A) : result (list (list A)) :=
  row <- slice.get m t ;;
  row' <- slice.set row s x ;;
  slice.set m t row'.

Definition get2 {A} (m : list (list A)) (t s : Z) : result A :=
  row <- slice.get m t ;;
  slice.get row s.

(** Body of [for sIdx := 0; sIdx < nStates; sIdx++] at interval [t]. *)
Definition stateStep (p : BatteryParams) (socSteps : Z) (actions : list float64)
    (t : Z) (lmp dtH : float64) (tb : Tables) (sIdx : Z) : result Tables :=
  dpS <- slice.get (dp tb) sIdx ;;
  if dpS <=? negInf / f2 then Ok tb
  else
    let soc := idxToSoc p socSteps sIdx in
    acc <- slice.foldM (actionStep p socSteps lmp dtH dpS soc) actions
             {| a_next := next tb; bestValue := dpS; bestNextState := sIdx;
                bestPower := f0 |} ;;
    choice' <- set2 (choice tb) t sIdx (bestNextState acc) ;;
    powerChosen' <- set2 (powerChosen tb) t sIdx (bestPower acc) ;;
    Ok {| dp := dp tb; next := a_next acc; choice := choice';
          powerChosen := powerChosen' |}.

(** Body of [for t, it := range intervals]. *)
Definition intervalStep (p : BatteryParams) (socSteps nStates : Z)
    (actions : list float64) (tb : Tables) (tit : Z * LMPInterval) : result Tables :=
  let '(t, it) := tit in
  let tb := {| dp := dp tb; next := map (fun _ => negInf) (next tb);
               choice := choice tb; powerChosen := powerChosen tb |} in
  let dtH := DurationHours it in
  if dtH <=? f0 then Err "non-positive dt"
  else
    tb <- slice.foldM (stateStep p socSteps actions t (LMP it) dtH)
            (slice.range nStates) tb ;;
    Ok {| dp := next tb; next := dp tb; choice := choice tb;
          powerChosen := powerChosen tb |}.

(** "Pick best final state": the first index of the largest final value.  The
    backward loop that would use it leaves at its first iteration, so the
    value does not reach the plan. *)
Definition bestFinal (dpv : list float64) : float64 * Z :=
  fold_left (fun (acc : float64 * Z) (iv : Z * float64) =>
               if snd iv >? fst acc then (snd iv, fst iv) else acc)
            (slice.indexed dpv) (negInf, 0%Z).

(** Body of the forward reconstruction loop; the state is (plan, cur). *)
Definition reconstructStep (tb : Tables) (st : list Dispatch * Z) (t : Z)
  : result (list Dispatch * Z) :=
  let '(pl, cur) := st in
  ns <- get2 (choice tb) t cur ;;
  if (ns <? 0)%Z then
    pl' <- slice.set pl t {| PowerMW := f0 |} ;;
    Ok (pl', cur)
  else
    pw <- get2 (powerChosen tb) t cur ;;
    pl' <- slice.set pl t {| PowerMW := pw |} ;;
    Ok (pl', ns).

Definition optimizeDP (intervals : list LMPInterval) (p : BatteryParams)
    (initialSOC : float64) (socSteps powerSteps : Z) : result (list Dispatch) :=
  let socSteps := if (socSteps <? 2)%Z then 2%Z else socSteps in
  let nStates := (socSteps + 1)%Z in
  let n := Z.of_nat (List.length intervals) in
  dp0 <- slice.make negInf nStates ;;
  next0 <- slice.make f0 nStates ;;
  let initIdx := socToIdx p socSteps initialSOC in
  dp0 <- slice.set dp0 initIdx f0 ;;
  choiceRow <- slice.make (-1)%Z nStates ;;
  powerRow <- slice.make f0 nStates ;;
  let tb0 := {| dp := dp0; next := next0;
                choice := repeat choiceRow (List.length intervals);
                powerChosen := repeat powerRow (List.length intervals) |} in
  actions <- (if (2 * powerSteps + 1 <? 0)%Z
              then Panic "makeslice: cap out of range"
              else Ok (actionSet p powerSteps)) ;;
  tb <- slice.foldM (intervalStep p socSteps nStates actions)
          (slice.indexed intervals) tb0 ;;
  let _ := bestFinal (dp tb) in
  '(pl, _) <- slice.foldM (reconstructStep tb) (slice.range n)
                (repeat {| PowerMW := f0 |} (List.length intervals), initIdx) ;;
  Ok pl.

(** State of the day-grouping loop of [optimizeDPByDay]. *)
Record DayAcc : Type := {
  dayIntervals : list LMPInterval;
  fullPlan : list Dispatch;
  currentDay : Z
}.

Definition dayStep (p : BatteryParams) (initialSOC : float64) (socSteps powerSteps : Z)
    (acc : DayAcc) (ii : Z * LMPInterval) : result DayAcc :=
  let '(i, interval) := ii in
  let intervalDay := dayStart (IntervalStartLocal interval) in
  acc <- (if (i >? 0)%Z && negb (intervalDay =? currentDay acc)%Z then
            match optimizeDP (dayIntervals acc) p initialSOC socSteps powerSteps with
            | Ok dayPlan =>
                Ok {| dayIntervals := []; fullPlan := fullPlan acc ++ dayPlan;
                      currentDay := currentDay acc |}
            | Err e => Err ("error optimizing day: " ++ e)
            | Panic e => Panic e
            end
          else Ok acc) ;;
  let cd := match dayIntervals acc with
            | [] => intervalDay
            | _ => currentDay acc
            end in
  Ok {| dayIntervals := dayIntervals acc ++ [interval]; fullPlan := fullPlan acc;
        currentDay := cd |}.

Definition optimizeDPByDay (intervals : list LMPInterval) (p : BatteryParams)
    (initialSOC : float64) (socSteps powerSteps : Z) : result (list Dispatch) :=
  match intervals with
  | [] => Err "no intervals"
  | _ =>
      acc <- slice.foldM (dayStep p initialSOC socSteps powerSteps)
               (slice.indexed intervals)
               {| dayIntervals := []; fullPlan := []; currentDay := zeroUnix |} ;;
      full <- (match dayIntervals acc with
               | [] => Ok (fullPlan acc)
               | _ =>
                   match optimizeDP (dayIntervals acc) p initialSOC socSteps powerSteps with
                   | Ok dayPlan => Ok (fullPlan acc ++ dayPlan)
                   | Err e => Err ("error optimizing day: " ++ e)
                   | Panic e => Panic e
                   end
               end) ;;
      if negb (Nat.eqb (List.length full) (List.length intervals))
      then Err "plan length does not match intervals length"
      else Ok full
  end.

Definition NewOracleStrategy (intervals : list LMPInterval) (params : BatteryParams)
    (initialSOC : float64) (cfg : OracleParams) : result OracleStrategy :=
  match intervals with
  | [] => Err "no intervals"
  | _ =>
      let socSteps := if (SocSteps cfg <=? 0)%Z then 200%Z else SocSteps cfg in
      let powerSteps := if (PowerSteps cfg <=? 0)%Z then 10%Z else PowerSteps cfg in
      pl <- optimizeDPByDay intervals params initialSOC socSteps powerSteps ;;
      Ok {| plan := pl |}
  end.

Definition OracleDecide (s : OracleStrategy) (ctx : Context) : result Dispatch * OracleStrategy :=
  if ((Index ctx <? 0) || (Index ctx >=? Z.of_nat (List.length (plan s))))%Z
  then (Ok {| PowerMW := f0 |}, s)
  else (slice.get (plan s) (Index ctx), s).

#[export] Instance OracleStrategy_Strategy : Strategy OracleStrategy := {
  Name := fun _ => "oracle"%string;
  Decide := OracleDecide
}.

End strategy.

(** ** Package backtest: ledger rows and the engine *)

Module backtest.

Import model strategy.
Local Open Scope f64_scope.

Record LedgerRow : Type := {
  Index : Z;
  IntervalStartLocal : Time;
  IntervalEndLocal : Time;
  IntervalStartUTC : Time;
  IntervalEndUTC : Time;
  Location : string;
  Market : string;
  LMP : float64;
  Action : model.Action;
  RequestedPowerMW : float64;
  PowerMW : float64;
  EnergyFromGridMWh : float64;
  EnergyToGridMWh : float64;
  ThroughputMWh : float64;
  SOCStart : float64;
  SOCEnd : float64;
  PNL : float64;
  CumPNL : float64
}.

Record Result : Type := {
  Ledger : list LedgerRow;
  TotalPNL : float64;
  FinalSOC : float64
}.

(** The variables of the loop of [Run]: the battery and the strategy behind
    their pointers, the ledger so far and the running sum. *)
Record RunState (S : Type) : Type := {
  batt : model.Battery;
  strat : S;
  ledger : list LedgerRow;
  cum : float64
}.

Arguments batt {S} _.
Arguments strat {S} _.
Arguments ledger {S} _.
Arguments cum {S} _.

(** What a call of [Run] leaves behind: its return value, and the battery and
    the strategy as the call left them ([None] for a nil pointer). *)
Record Outcome (S : Type) : Type := {
  returned : result Result;
  battAfter : option model.Battery;
  stratAfter : option S
}.

Arguments returned {S} _.
Arguments battAfter {S} _.
Arguments stratAfter {S} _.

Section Engine.

Context {S : Type} `{Strategy S}.

(** One iteration of [for idx, it := range intervals].  On an error or a
    panic the state reached so far comes back with it. *)
Definition runStep (st : RunState S) (ii : Z * LMPInterval)
  : result unit * RunState S :=
  let '(idx, it) := ii in
  let dtH := DurationHours it in
  let '(dec, strat') :=
    Decide (strat st) {| strategy.Index := idx; Interval := it; Battery := batt st |} in
  let st := {| batt := batt st; strat := strat'; ledger := ledger st; cum := cum st |} in
  match dec with
  | Err e => (Panic e, st)
  | Panic e => (Panic e, st)
  | Ok req =>
      let '(ares, batt') := ApplyDispatch (batt st) (model.LMP it) req dtH in
      let st := {| batt := batt'; strat := strat st; ledger := ledger st; cum := cum st |} in
      match ares with
      | Err e => (Err ("apply dispatch: " ++ e), st)
      | Panic e => (Panic e, st)
      | Ok res =>
          let cum' := cum st + rPNL res in
          let row := {|
            Index := idx;
            IntervalStartLocal := model.IntervalStartLocal it;
            IntervalEndLocal := model.IntervalEndLocal it;
            IntervalStartUTC := model.IntervalStartUTC it;
            IntervalEndUTC := model.IntervalEndUTC it;
            Location := model.Location it;
            Market := model.Market it;
            LMP := model.LMP it;
            Action := ActionFromPowerMW (rPowerMW res);
            RequestedPowerMW := model.PowerMW req;
            PowerMW := rPowerMW res;
            EnergyFromGridMWh := rEnergyFromGridMWh res;
            EnergyToGridMWh := rEnergyToGridMWh res;
            ThroughputMWh := rThroughputMWh res;
            SOCStart := rSOCStart res;
            SOCEnd := rSOCEnd res;
            PNL := rPNL res;
            CumPNL := cum' |} in
          (Ok tt, {| batt := batt st; strat := strat st;
                     ledger := ledger st ++ [row]; cum := cum' |})
      end
  end.

Fixpoint runLoop (l : list (Z * LMPInterval)) (st : RunState S)
  : result unit * RunState S :=
  match l with
  | [] => (Ok tt, st)
  | ii :: t =>
      match runStep st ii with
      | (Ok _, st') => runLoop t st'
      | (r, st') => (r, st')
      end
  end.

(** [Engine.Run] *)
Definition Run (intervals : list LMPInterval) (b : option model.Battery) (s : option S)
  : Outcome S :=
  match b, s with
  | None, _ => {| returned := Err "battery is nil"; battAfter := b; stratAfter := s |}
  | _, None => {| returned := Err "strategy is nil"; battAfter := b; stratAfter := s |}
  | Some b0, Some s0 =>
      match intervals with
      | [] => {| returned := Err "no intervals"; battAfter := b; stratAfter := s |}
      | _ =>
          let '(r, st) := runLoop (slice.indexed intervals)
                            {| batt := b0; strat := s0; ledger := []; cum := f0 |} in
          {| returned :=
               match r with
               | Ok _ => Ok {| Ledger := ledger st; TotalPNL := cum st;
                               FinalSOC := SOC (State (batt st)) |}
               | Err e => Err e
               | Panic e => Panic e
               end;
             battAfter := Some (batt st);
             stratAfter := Some (strat st) |}
      end
  end.

End Engine.

End backtest.

(** ** Package analysis: node ranking *)

Module analysis.

Import model.
Local Open Scope f64_scope.

Record ArbitragePotential : Type := {
  Location : string;
  Market : string;
  StartUTC : Time;
  EndUTC : Time;
  Count : Z;
  MinLMP : float64;
  MaxLMP : float64;
  MeanLMP : float64;
  P05LMP : float64;
  P95LMP : float64;
  SpreadP95P05 : float64;
  OracleProfit : float64
}.

(** Go's zero value [ArbitragePotential{}]. *)
Definition ArbitragePotential_zero : ArbitragePotential :=
  {| Location := ""; Market := ""; StartUTC := Time_zero; EndUTC := Time_zero;
     Count := 0; MinLMP := f0; MaxLMP := f0; MeanLMP := f0; P05LMP := f0;
     P95LMP := f0; SpreadP95P05 := f0; OracleProfit := f0 |}.

(** The order of [sort.Float64s]: increasing, NaN first. *)
Definition less (x y : float64) : bool :=
  (x <? y) || (IsNaN x && negb (IsNaN y)).

(** [sort.Float64s], as an insertion sort: the sorted sequence of values is
    the same for every sorting algorithm under this order. *)
Fixpoint insert (x : float64) (l : list float64) : list float64 :=
  match l with
  | [] => [x]
  | y :: t => if less y x then y :: insert x t else x :: l
  end.

Fixpoint Float64s (l : list float64) : list float64 :=
  match l with
  | [] => []
  | x :: t => insert x (Float64s t)
  end.

Definition q05 : float64 := Fin (5 # 100).
Definition q95 : float64 := Fin (95 # 100).

Definition percentileSorted (sorted : list float64) (q : float64) : result float64 :=
  match sorted with
  | [] => Ok f0
  | _ =>
      let n := Z.of_nat (List.length sorted) in
      if q <=? f0 then slice.get sorted 0
      else if q >=? f1 then slice.get sorted (n - 1)
      else
        let pos := q * of_int (n - 1) in
        let lo := to_int (Floor pos) in
        let hi := to_int (Ceil pos) in
        if (lo =? hi)%Z then slice.get sorted lo
        else
          let frac := pos - of_int lo in
          slo <- slice.get sorted lo ;;
          shi <- slice.get sorted hi ;;
          Ok (slo * (f1 - frac) + shi * frac)
  end.

(** Body of the loop over the SOC states of the canonical DP: idle, charge
    one step, discharge one step. *)
Definition canonicalStateStep (steps : Z) (price dt : float64) (dp : list float64)
    (next : list float64) (socIdx : Z) : result (list float64) :=
  d <- slice.get dp socIdx ;;
  if d <=? strategy.negInf / strategy.f2 then Ok next
  else
    cur <- slice.get next socIdx ;;
    next <- (if d >? cur then slice.set next socIdx d else Ok next) ;;
    next <- (if (socIdx <? steps)%Z then
               let gain := - (price * dt) in
               up <- slice.get next (socIdx + 1) ;;
               if d + gain >? up then slice.set next (socIdx + 1) (d + gain)
               else Ok next
             else Ok next) ;;
    if (socIdx >? 0)%Z then
      let gain := price * dt in
      down <- slice.get next (socIdx - 1) ;;
      if d + gain >? down then slice.set next (socIdx - 1) (d + gain)
      else Ok next
    else Ok next.

(** Body of the loop over the intervals; the state is (dp, next). *)
Definition canonicalIntervalStep (steps : Z) (dt : float64)
    (st : list float64 * list float64) (it : LMPInterval)
  : result (list float64 * list float64) :=
  let '(dp, next) := st in
  let next := map (fun _ => strategy.negInf) next in
  next <- slice.foldM (canonicalStateStep steps (LMP it) dt dp)
            (slice.range (steps + 1)) next ;;
  Ok (next, dp).

Definition oracleProfitCanonical (intervals : list LMPInterval) : result float64 :=
  match intervals with
  | [] => Ok f0
  | i0 :: _ =>
      let dt := DurationHours i0 in
      if dt <=? f0 then Ok f0
      else
        let stepSOC := dt in
        let steps := to_int (Round (f1 / stepSOC)) in
        let steps := if (steps <? 1)%Z then 1%Z else steps in
        let nStates := (steps + 1)%Z in
        dp <- slice.make strategy.negInf nStates ;;
        next <- slice.make f0 nStates ;;
        let init := to_int (Round (Fin (1 # 2) * of_int steps)) in
        let init := if (init <? 0)%Z then 0%Z else init in
        let init := if (init >? steps)%Z then steps else init in
        dp <- slice.set dp init f0 ;;
        '(dp, _) <- slice.foldM (canonicalIntervalStep steps dt) intervals (dp, next) ;;
        let best := fold_left (fun best v => if v >? best then v else best)
                              dp strategy.negInf in
        if best <=? strategy.negInf / strategy.f2 then Ok f0 else Ok best
  end.

(** State of the statistics loop of [ComputePotential]. *)
Record Stats : Type := {
  sum : float64;
  minv : float64;
  maxv : float64;
  vals : list float64
}.

Definition statsStep (st : Stats) (it : LMPInterval) : Stats :=
  let v := LMP it in
  {| sum := sum st + v;
     minv := if v <? minv st then v else minv st;
     maxv := if v >? maxv st then v else maxv st;
     vals := vals st ++ [v] |}.

Definition ComputePotential (intervals : list LMPInterval) : result ArbitragePotential :=
  match intervals with
  | [] => Ok ArbitragePotential_zero
  | i0 :: _ =>
      let st := fold_left statsStep intervals
                  {| sum := f0; minv := PInf; maxv := NInf; vals := [] |} in
      let sorted := Float64s (vals st) in
      p05 <- percentileSorted sorted q05 ;;
      p95 <- percentileSorted sorted q95 ;;
      profit <- oracleProfitCanonical intervals ;;
      Ok {| Location := model.Location i0;
            Market := model.Market i0;
            StartUTC := IntervalStartUTC i0;
            EndUTC := IntervalEndUTC (last intervals i0);
            Count := Z.of_nat (List.length intervals);
            MinLMP := minv st;
            MaxLMP := maxv st;
            MeanLMP := sum st / of_int (Z.of_nat (List.length (vals st)));
            P05LMP := p05;
            P95LMP := p95;
            SpreadP95P05 := p95 - p05;
            OracleProfit := profit |}
  end.

End analysis.

#[local] Set Warnings "-inexact-float".

(** * The battery step and the price statistics in binary64

    The packages above compute with exact numbers.  Where the outcome of the
    Go code depends on how float64 rounds, the functions concerned are
    embedded a second time, from the same sources, over Rocq's primitive
    binary64 floats: every operation rounds to the nearest float, ties to
    even, each on its own (no fused multiply-add), as the Go compiler
    evaluates float64 expressions on amd64.  These definitions are
    evaluated, not reasoned about in general. *)

Module ieee.

Import PrimFloat.
Local Open Scope float_scope.

(** Go's [x > y] and [x >= y]. *)
Definition gtb (x y : float) : bool := y <? x.
Definition geb (x y : float) : bool := y <=? x.

(** [math.Abs], [math.IsNaN], [math.Signbit] *)
Definition Abs (x : float) : float := abs x.
Definition IsNaN (x : float) : bool := is_nan x.
Definition Signbit (x : float) : bool := get_sign x.

(** [math.Min] and [math.Max], with their special cases. *)
Definition Min (x y : float) : float :=
  if (x =? neg_infinity) || (y =? neg_infinity) then neg_infinity
  else if IsNaN x || IsNaN y then nan
  else if (x =? 0) && (x =? y) then (if Signbit x then x else y)
  else if x <? y then x else y.

Definition Max (x y : float) : float :=
  if (x =? infinity) || (y =? infinity) then infinity
  else if IsNaN x || IsNaN y then nan
  else if (x =? 0) && (x =? y) then (if Signbit x then y else x)
  else if gtb x y then x else y.

(** The integer part of a float, toward zero ([None] for NaN and the
    infinities, which have none). *)
Definition truncZ (x : float) : option Z :=
  match FloatOps.Prim2SF x with
  | SpecFloat.S754_zero _ => Some 0%Z
  | SpecFloat.S754_finite s m e =>
      let a := if (0 <=? e)%Z then Z.shiftl (Zpos m) e else Z.shiftr (Zpos m) (- e) in
      Some (if s then (- a)%Z else a)
  | _ => None
  end.

(** [float64(k)] for an [int] k. *)
Definition of_int (k : Z) : float :=
  if (k <? 0)%Z then - of_uint63 (Uint63Axioms.of_Z (- k))
  else of_uint63 (Uint63Axioms.of_Z k).

(** [int(x)]: truncation toward zero; what does not fit an [int] converts to
    the minimal int, as on amd64. *)
Definition to_int (x : float) : Z :=
  match truncZ x with
  | Some z => if ((- 2 ^ 63 <=? z) && (z <? 2 ^ 63))%Z then z else (- 2 ^ 63)%Z
  | None => (- 2 ^ 63)%Z
  end.

(** [math.Floor] and [math.Ceil]: a float of magnitude 2^52 or more is an
    integer already. *)
Definition Floor (x : float) : float :=
  match truncZ x with
  | Some z =>
      if (x =? 0) || geb (Abs x) 4503599627370496 then x
      else if x <? 0 then (if of_int z =? x then x else - of_int (1 - z))
      else of_int z
  | None => x
  end.

Definition Ceil (x : float) : float := - Floor (- x).

(** ** battery.go *)

Record BatteryParams : Type := {
  EnergyCapacityMWh : float;
  PowerCapacityMW : float;
  ChargeEfficiency : float;
  DischargeEfficiency : float;
  MinSOC : float;
  MaxSOC : float;
  DegradationCostPerMWh : float
}.

Record BatteryState : Type := { SOC : float }.

Record Battery : Type := { Params : BatteryParams; State : BatteryState }.

Definition Validate (b : Battery) : result unit :=
  let p := Params b in
  if EnergyCapacityMWh p <=? 0 then Err "EnergyCapacityMWh must be > 0"
  else if PowerCapacityMW p <=? 0 then Err "PowerCapacityMW must be > 0"
  else if (ChargeEfficiency p <=? 0) || gtb (ChargeEfficiency p) 1
    then Err "ChargeEfficiency must be in (0, 1]"
  else if (DischargeEfficiency p <=? 0) || gtb (DischargeEfficiency p) 1
    then Err "DischargeEfficiency must be in (0, 1]"
  else if (MinSOC p <? 0) || gtb (MinSOC p) 1 || (MaxSOC p <? 0)
          || gtb (MaxSOC p) 1 || gtb (MinSOC p) (MaxSOC p)
    then Err "MinSOC/MaxSOC must satisfy 0<=MinSOC<=MaxSOC<=1"
  else if (SOC (State b) <? MinSOC p) || gtb (SOC (State b)) (MaxSOC p)
    then Err "initial SOC must be within [MinSOC, MaxSOC]"
  else if DegradationCostPerMWh p <? 0
    then Err "DegradationCostPerMWh must be >= 0"
  else Ok tt.

Record Dispatch : Type := { PowerMW : float }.

Record IntervalResult : Type := {
  rPowerMW : float;
  rEnergyToGridMWh : float;
  rEnergyFromGridMWh : float;
  rThroughputMWh : float;
  rSOCStart : float;
  rSOCEnd : float;
  rPNL : float
}.

Definition ClipDispatch (b : Battery) (d : Dispatch) : Dispatch :=
  let p := PowerMW d in
  let p := if gtb p (PowerCapacityMW (Params b)) then PowerCapacityMW (Params b) else p in
  let p := if p <? - PowerCapacityMW (Params b) then - PowerCapacityMW (Params b) else p in
  {| PowerMW := p |}.

Definition CalculateIntervalPnL (b : Battery) (lmp energyFromGridMWh energyToGridMWh : float)
  : float :=
  let revenue := lmp * energyToGridMWh in
  let cost := lmp * energyFromGridMWh in
  let degradation :=
    DegradationCostPerMWh (Params b) * (energyFromGridMWh + energyToGridMWh) in
  revenue - cost - degradation.

Definition maxChargeEnergyFromGridMWh (b : Battery) (durationHours : float) : float :=
  let storableMWh := (MaxSOC (Params b) - SOC (State b)) * EnergyCapacityMWh (Params b) in
  if storableMWh <=? 0 then 0
  else
    let limitBySOC := storableMWh / ChargeEfficiency (Params b) in
    let limitByPower := PowerCapacityMW (Params b) * durationHours in
    Max 0 (Min limitBySOC limitByPower).

Definition maxDischargeEnergyToGridMWh (b : Battery) (durationHours : float) : float :=
  let withdrawableMWh := (SOC (State b) - MinSOC (Params b)) * EnergyCapacityMWh (Params b) in
  if withdrawableMWh <=? 0 then 0
  else
    let limitBySOC := withdrawableMWh * DischargeEfficiency (Params b) in
    let limitByPower := PowerCapacityMW (Params b) * durationHours in
    Max 0 (Min limitBySOC limitByPower).

Definition clamp01 (x : float) : float :=
  if x <? 0 then 0 else if gtb x 1 then 1 else x.

Definition set_SOC (b : Battery) (soc : float) : Battery :=
  {| Params := Params b; State := {| SOC := soc |} |}.

(** [ApplyDispatch]; the second component is the battery after the call. *)
Definition ApplyDispatch (b : Battery) (lmp : float) (d : Dispatch) (durationHours : float)
  : result IntervalResult * Battery :=
  if durationHours <=? 0 then (Err "durationHours must be > 0", b)
  else
    let d := ClipDispatch b d in
    let p := PowerMW d in
    let socStart := SOC (State b) in
    let maxChargeMWhGrid := maxChargeEnergyFromGridMWh b durationHours in
    let maxDischargeMWhGrid := maxDischargeEnergyToGridMWh b durationHours in
    if p <? 0 then
      let reqFromGridMWh := Abs p * durationHours in
      let '(reqFromGridMWh, p) :=
        if gtb reqFromGridMWh maxChargeMWhGrid
        then (maxChargeMWhGrid, - maxChargeMWhGrid / durationHours)
        else (reqFromGridMWh, p) in
      let storedMWh := reqFromGridMWh * ChargeEfficiency (Params b) in
      let b' := set_SOC b
        (clamp01 ((SOC (State b) * EnergyCapacityMWh (Params b) + storedMWh)
                  / EnergyCapacityMWh (Params b))) in
      (Ok {| rPowerMW := p;
             rEnergyToGridMWh := 0;
             rEnergyFromGridMWh := reqFromGridMWh;
             rThroughputMWh := reqFromGridMWh;
             rSOCStart := socStart;
             rSOCEnd := SOC (State b');
             rPNL := CalculateIntervalPnL b' lmp reqFromGridMWh 0 |}, b')
    else if gtb p 0 then
      let reqToGridMWh := p * durationHours in
      let '(reqToGridMWh, p) :=
        if gtb reqToGridMWh maxDischargeMWhGrid
        then (maxDischargeMWhGrid, maxDischargeMWhGrid / durationHours)
        else (reqToGridMWh, p) in
      let withdrawnMWh := reqToGridMWh / DischargeEfficiency (Params b) in
      let b' := set_SOC b
        (clamp01 ((SOC (State b) * EnergyCapacityMWh (Params b) - withdrawnMWh)
                  / EnergyCapacityMWh (Params b))) in
      (Ok {| rPowerMW := p;
             rEnergyToGridMWh := reqToGridMWh;
             rEnergyFromGridMWh := 0;
             rThroughputMWh := reqToGridMWh;
             rSOCStart := socStart;
             rSOCEnd := SOC (State b');
             rPNL := CalculateIntervalPnL b' lmp 0 reqToGridMWh |}, b')
    else
      (Ok {| rPowerMW := 0;
             rEnergyToGridMWh := 0;
             rEnergyFromGridMWh := 0;
             rThroughputMWh := 0;
             rSOCStart := socStart;
             rSOCEnd := SOC (State b);
             rPNL := CalculateIntervalPnL b lmp 0 0 |}, b).

(** ** The oracle's step function

    [simulateInterval] returns (nextSOC, realizedPower, pnl). *)
Definition simulateInterval (soc desiredPower lmp dtH : float) (p : BatteryParams)
  : float * float * float :=
  let power := desiredPower in
  let power := if gtb power (PowerCapacityMW p) then PowerCapacityMW p else power in
  let power := if power <? - PowerCapacityMW p then - PowerCapacityMW p else power in
  let '(nextSOC, power, energyFromGrid, energyToGrid) :=
    if power <? 0 then
      let reqFromGrid := Abs power * dtH in
      let storableMWh := (MaxSOC p - soc) * EnergyCapacityMWh p in
      let storableMWh := if storableMWh <? 0 then 0 else storableMWh in
      let limitBySOC := storableMWh / ChargeEfficiency p in
      let limitByPower := PowerCapacityMW p * dtH in
      let maxFromGrid := Min limitBySOC limitByPower in
      let '(reqFromGrid, power) :=
        if gtb reqFromGrid maxFromGrid && gtb dtH 0
        then (maxFromGrid, - maxFromGrid / dtH)
        else (reqFromGrid, power) in
      let storedMWh := reqFromGrid * ChargeEfficiency p in
      (soc + storedMWh / EnergyCapacityMWh p, power, reqFromGrid, 0)
    else if gtb power 0 then
      let reqToGrid := power * dtH in
      let withdrawableMWh := (soc - MinSOC p) * EnergyCapacityMWh p in
      let withdrawableMWh := if withdrawableMWh <? 0 then 0 else withdrawableMWh in
      let limitBySOC := withdrawableMWh * DischargeEfficiency p in
      let limitByPower := PowerCapacityMW p * dtH in
      let maxToGrid := Min limitBySOC limitByPower in
      let '(reqToGrid, power) :=
        if gtb reqToGrid maxToGrid && gtb dtH 0
        then (maxToGrid, maxToGrid / dtH)
        else (reqToGrid, power) in
      let withdrawnMWh := reqToGrid / DischargeEfficiency p in
      (soc - withdrawnMWh / EnergyCapacityMWh p, power, 0, reqToGrid)
    else (soc, power, 0, 0) in
  let nextSOC := if nextSOC <? MinSOC p then MinSOC p else nextSOC in
  let nextSOC := if gtb nextSOC (MaxSOC p) then MaxSOC p else nextSOC in
  let revenue := lmp * energyToGrid in
  let cost := lmp * energyFromGrid in
  let deg := DegradationCostPerMWh p * (energyFromGrid + energyToGrid) in
  (nextSOC, power, revenue - cost - deg).

(** ** The price statistics of rank.go *)

(** The order of [sort.Float64s]: increasing, NaN first. *)
Definition less (x y : float) : bool :=
  (x <? y) || (IsNaN x && negb (IsNaN y)).

Fixpoint insert (x : float) (l : list float) : list float :=
  match l with
  | [] => [x]
  | y :: t => if less y x then y :: insert x t else x :: l
  end.

Fixpoint Float64s (l : list float) : list float :=
  match l with
  | [] => []
  | x :: t => insert x (Float64s t)
  end.

Definition percentileSorted (sorted : list float) (q : float) : result float :=
  match sorted with
  | [] => Ok 0
  | _ =>
      let n := Z.of_nat (List.length sorted) in
      if q <=? 0 then slice.get sorted 0
      else if geb q 1 then slice.get sorted (n - 1)
      else
        let pos := q * of_int (n - 1) in
        let lo := to_int (Floor pos) in
        let hi := to_int (Ceil pos) in
        if (lo =? hi)%Z then slice.get sorted lo
        else
          let frac := pos - of_int lo in
          slo <- slice.get sorted lo ;;
          shi <- slice.get sorted hi ;;
          Ok (slo * (1 - frac) + shi * frac)
  end.

(** The price statistics [ComputePotential] derives from the LMPs of its
    intervals, in the order of the fields of [ArbitragePotential]. *)
Record PriceStats : Type := {
  MinLMP : float;
  MaxLMP : float;
  MeanLMP : float;
  P05LMP : float;
  P95LMP : float;
  SpreadP95P05 : float
}.

Record Stats : Type := {
  sum : float;
  minv : float;
  maxv : float;
  vals : list float
}.

Definition statsStep (st : Stats) (v : float) : Stats :=
  {| sum := sum st + v;
     minv := if v <? minv st then v else minv st;
     maxv := if gtb v (maxv st) then v else maxv st;
     vals := vals st ++ [v] |}.

Definition ComputePotential (lmps : list float) : result PriceStats :=
  match lmps with
  | [] => Ok {| MinLMP := 0; MaxLMP := 0; MeanLMP := 0; P05LMP := 0; P95LMP := 0;
                SpreadP95P05 := 0 |}
  | _ =>
      let st := fold_left statsStep lmps
                  {| sum := 0; minv := infinity; maxv := neg_infinity; vals := [] |} in
      let sorted := Float64s (vals st) in
      p05 <- percentileSorted sorted 0.05 ;;
      p95 <- percentileSorted sorted 0.95 ;;
      Ok {| MinLMP := minv st;
            MaxLMP := maxv st;
            MeanLMP := sum st / of_int (Z.of_nat (List.length (vals st)));
            P05LMP := p05;
            P95LMP := p95;
            SpreadP95P05 := p95 - p05 |}
  end.

End ieee.

(** ** Go maps

    A Go map is embedded as an association list with at most one binding per
    key.  The order of the bindings stands for nothing the program can rely
    on: Go leaves the iteration order of a map unspecified. *)

Module gomap.

Section Map.

Context {K V : Type}.
Variable eqb : K -> K -> bool.

(** [v, ok := m[k]] *)
Fixpoint lookup (m : list (K * V)) (k : K) : option V :=
  match m with
  | [] => None
  | (k', v) :: t => if eqb k' k then Some v else lookup t k
  end.

(** [m[k] = v] *)
Fixpoint store (m : list (K * V)) (k : K) (v : V) : list (K * V) :=
  match m with
  | [] => [(k, v)]
  | (k', v') :: t => if eqb k' k then (k', v) :: t else (k', v') :: store t k v
  end.

(** [delete(m, k)] *)
Fixpoint delete (m : list (K * V)) (k : K) : list (K * V) :=
  match m with
  | [] => []
  | (k', v') :: t => if eqb k' k then t else (k', v') :: delete t k
  end.

End Map.

End gomap.

(** ** Package config: battery configurations (config.go) *)

Module config.

Import model.
Local Open Scope f64_scope.

Record BatteryConfig : Type := {
  Name : string;
  EnergyCapacityMWh : float64;
  PowerCapacityMW : float64;
  ChargeEfficiency : float64;
  DischargeEfficiency : float64;
  MinSOC : float64;
  MaxSOC : float64;
  InitialSOC : float64;
  DegradationCostPerMWh : float64
}.

(** Go's [x != 0] on a float64: true for NaN and for the infinities. *)
Definition nonzero (x : float64) : bool :=
  match x with
  | Fin a => negb (Qeq_bool a 0)
  | _ => true
  end.

Definition ToModelParams (b : BatteryConfig) : BatteryParams :=
  {| model.EnergyCapacityMWh := EnergyCapacityMWh b;
     model.PowerCapacityMW := PowerCapacityMW b;
     model.ChargeEfficiency := ChargeEfficiency b;
     model.DischargeEfficiency := DischargeEfficiency b;
     model.MinSOC := MinSOC b;
     model.MaxSOC := MaxSOC b;
     model.DegradationCostPerMWh := DegradationCostPerMWh b |}.

(** [MergeBattery] overlays the non-zero fields of [override] onto [base]. *)
Definition MergeBattery (base override : BatteryConfig) : BatteryConfig :=
  {| Name := if negb (String.eqb (Name override) "") then Name override else Name base;
     EnergyCapacityMWh :=
       if nonzero (EnergyCapacityMWh override) then EnergyCapacityMWh override
       else EnergyCapacityMWh base;
     PowerCapacityMW :=
       if nonzero (PowerCapacityMW override) then PowerCapacityMW override
       else PowerCapacityMW base;
     ChargeEfficiency :=
       if nonzero (ChargeEfficiency override) then ChargeEfficiency override
       else ChargeEfficiency base;
     DischargeEfficiency :=
       if nonzero (DischargeEfficiency override) then DischargeEfficiency override
       else DischargeEfficiency base;
     MinSOC := if nonzero (MinSOC override) then MinSOC override else MinSOC base;
     MaxSOC := if nonzero (MaxSOC override) then MaxSOC override else MaxSOC base;
     InitialSOC :=
       if nonzero (InitialSOC override) then InitialSOC override else InitialSOC base;
     DegradationCostPerMWh :=
       if nonzero (DegradationCostPerMWh override) then DegradationCostPerMWh override
       else DegradationCostPerMWh base |}.

End config.

(** ** Package data: grouping (json.go) and the response cache (cache.go) *)

Module data.

Import model.

(** [model.GridStatusLMPResponse] (marketdata.go) *)
Record GridStatusLMPResponse : Type := {
  StatusCode : Z;
  Data : list LMPInterval
}.

(** [out[it.Location] = append(out[it.Location], it)]; a missing key reads as
    the nil slice. *)
Definition groupStep (out : list (string * list LMPInterval)) (it : LMPInterval)
  : list (string * list LMPInterval) :=
  let cur := match gomap.lookup String.eqb out (Location it) with
             | Some l => l
             | None => []
             end in
  gomap.store String.eqb out (Location it) (cur ++ [it]).

(** [GroupByLocation]; [None] is the nil response. *)
Definition GroupByLocation (resp : option GridStatusLMPResponse)
  : list (string * list LMPInterval) :=
  match resp with
  | None => []
  | Some r => fold_left groupStep (Data r) []
  end.

(** *** cache.go

    The clock is explicit: every operation takes the instant [time.Now()]
    returns when it runs, in nanoseconds.  The mutex makes the operations
    atomic, so a history of the cache is a sequence of them. *)

Record CacheEntry : Type := {
  Response : option GridStatusLMPResponse;
  ExpiresAt : Z
}.

Record ResponseCache : Type := {
  store : list (string * CacheEntry);
  ttl : Z
}.

(** [Get]; [None] is the nil cache. *)
Definition Get (c : option ResponseCache) (now : Z) (key : string)
  : option GridStatusLMPResponse * bool :=
  match c with
  | None => (None, false)
  | Some c =>
      match gomap.lookup String.eqb (store c) key with
      | None => (None, false)
      | Some entry =>
          if (now >? ExpiresAt entry)%Z then (None, false)
          else (Response entry, true)
      end
  end.

(** [Set] ([Set] is a keyword here) mutates the cache behind its pointer: the
    result is the cache after the call. *)
Definition Set_ (c : option ResponseCache) (now : Z) (key : string)
    (response : option GridStatusLMPResponse) : option ResponseCache :=
  match c with
  | None => None
  | Some c =>
      Some {| store := gomap.store String.eqb (store c) key
                         {| Response := response; ExpiresAt := (now + ttl c)%Z |};
              ttl := ttl c |}
  end.

Definition Clear (c : option ResponseCache) : option ResponseCache :=
  match c with
  | None => None
  | Some c => Some {| store := []; ttl := ttl c |}
  end.

(** One tick of the loop of [cleanup]: every expired entry is deleted. *)
Definition cleanupTick (c : ResponseCache) (now : Z) : ResponseCache :=
  {| store := fold_left (fun m (ke : string * CacheEntry) =>
                           if (now >? ExpiresAt (snd ke))%Z
                           then gomap.delete String.eqb m (fst ke) else m)
                        (store c) (store c);
     ttl := ttl c |}.

End data.

(** ** The command line (cmd/cli): paths and merged groups *)

Module cli.

Import model strategy.

(** [splitPaths]: the trimmed, non-empty pieces of a comma-separated list. *)
Definition splitPaths (s : string) : list string :=
  fold_left (fun out p =>
               let p := TrimSpace p in
               if negb (String.eqb p "") then out ++ [p] else out)
            (Split s ",") [].

(** [mergeByLoc] appends the slices of [src] to those of [dst], key by key. *)
Definition mergeByLoc (dst src : list (string * list LMPInterval))
  : list (string * list LMPInterval) :=
  fold_left (fun d (kv : string * list LMPInterval) =>
               let cur := match gomap.lookup String.eqb d (fst kv) with
                          | Some l => l
                          | None => []
                          end in
               gomap.store String.eqb d (fst kv) (cur ++ snd kv))
            src dst.

End cli.

(** ** The backtest handler: the summary of a result (buildSummary) *)

Module handlers.

Import model.
Local Open Scope f64_scope.

(** *** models: the summary of a response *)

Record TimeWindow : Type := { Start : Time; End_ : Time }.

Record ChargeWindow : Type := {
  cTimeWindow : TimeWindow;
  AverageCostPerMWh : float64;
  cEnergyMWh : float64
}.

Record DischargeWindow : Type := {
  dTimeWindow : TimeWindow;
  AveragePricePerMWh : float64;
  dEnergyMWh : float64
}.

Record BacktestSummary : Type := {
  TotalPNL : float64;
  FinalSOC : float64;
  TotalIntervals : Z;
  BacktestWindow : TimeWindow;
  EnergyChargedMWh : float64;
  EnergyDischargedMWh : float64;
  ChargeWindows : list ChargeWindow;
  DischargeWindows : list DischargeWindow
}.

(** [dayKey{Year, Month, Day}] of a time: the calendar date of its wall
    clock, embedded as the number of that day since the epoch (the date is a
    one-to-one function of it). *)
Definition dayKey (t : Time) : Z := (localSec t / 86400)%Z.

(** [chargeWindowData] and [dischargeWindowData] have the same shape: the
    window, the sum of LMP x energy and the sum of the energy. *)
Record windowData : Type := {
  window : TimeWindow;
  total : float64;
  totalEnergy : float64
}.

(** The two halves of the body of the first loop are the same code on
    [EnergyFromGridMWh] and on [EnergyToGridMWh]; [energy] is that field.
    The state is the running total and the map from days to window data,
    whose values the code updates behind their pointers. *)
Definition accumulate (energy : backtest.LedgerRow -> float64)
    (st : float64 * list (Z * windowData)) (row : backtest.LedgerRow)
  : float64 * list (Z * windowData) :=
  let '(tot, byDay) := st in
  if energy row >? f0 then
    let day := dayKey (backtest.IntervalStartLocal row) in
    (tot + energy row,
     match gomap.lookup Z.eqb byDay day with
     | Some win =>
         gomap.store Z.eqb byDay day
           {| window := {| Start := Start (window win);
                           End_ := backtest.IntervalEndLocal row |};
              total := total win + backtest.LMP row * energy row;
              totalEnergy := totalEnergy win + energy row |}
     | None =>
         gomap.store Z.eqb byDay day
           {| window := {| Start := backtest.IntervalStartLocal row;
                           End_ := backtest.IntervalEndLocal row |};
              total := backtest.LMP row * energy row;
              totalEnergy := energy row |}
     end)
  else st.

(** [seen[day]]: a missing key reads as false. *)
Definition seenDay (seen : list (Z * bool)) (day : Z) : bool :=
  match gomap.lookup Z.eqb seen day with
  | Some b => b
  | None => false
  end.

(** One half of the body of the second loop; [mk] builds the window of the
    response from the window, the average and the energy. *)
Definition emit {W : Type} (mk : TimeWindow -> float64 -> float64 -> W)
    (energy : backtest.LedgerRow -> float64) (byDay : list (Z * windowData))
    (st : list W * list (Z * bool)) (row : backtest.LedgerRow)
  : list W * list (Z * bool) :=
  let '(windows, seen) := st in
  let day := dayKey (backtest.IntervalStartLocal row) in
  if energy row >? f0 then
    if negb (seenDay seen day) then
      match gomap.lookup Z.eqb byDay day with
      | Some winData =>
          let avg := if totalEnergy winData >? f0
                     then total winData / totalEnergy winData else f0 in
          (windows ++ [mk (window winData) avg (totalEnergy winData)],
           gomap.store Z.eqb seen day true)
      | None => st
      end
    else st
  else st.

(** Go's zero value [TimeWindow{}]. *)
Definition TimeWindow_zero : TimeWindow := {| Start := Time_zero; End_ := Time_zero |}.

Definition buildSummary (result : backtest.Result) : BacktestSummary :=
  match backtest.Ledger result with
  | [] =>
      {| TotalPNL := backtest.TotalPNL result;
         FinalSOC := backtest.FinalSOC result;
         TotalIntervals := 0;
         BacktestWindow := TimeWindow_zero;
         EnergyChargedMWh := f0;
         EnergyDischargedMWh := f0;
         ChargeWindows := [];
         DischargeWindows := [] |}
  | first :: _ =>
      let ledger := backtest.Ledger result in
      let start := backtest.IntervalStartLocal first in
      let end_ := backtest.IntervalEndLocal (last ledger first) in
      let '(charge, discharge) :=
        fold_left (fun (st : (float64 * list (Z * windowData))
                             * (float64 * list (Z * windowData))) row =>
                     (accumulate backtest.EnergyFromGridMWh (fst st) row,
                      accumulate backtest.EnergyToGridMWh (snd st) row))
                  ledger ((f0, []), (f0, [])) in
      let '(chargeOut, dischargeOut) :=
        fold_left (fun (st : (list ChargeWindow * list (Z * bool))
                             * (list DischargeWindow * list (Z * bool))) row =>
                     (emit Build_ChargeWindow backtest.EnergyFromGridMWh (snd charge)
                           (fst st) row,
                      emit Build_DischargeWindow backtest.EnergyToGridMWh (snd discharge)
                           (snd st) row))
                  ledger (([], []), ([], [])) in
      {| TotalPNL := backtest.TotalPNL result;
         FinalSOC := backtest.FinalSOC result;
         TotalIntervals := Z.of_nat (List.length ledger);
         BacktestWindow := {| Start := start; End_ := end_ |};
         EnergyChargedMWh := fst charge;
         EnergyDischargedMWh := fst discharge;
         ChargeWindows := fst chargeOut;
         DischargeWindows := fst dischargeOut |}
  end.

End handlers.

(** ** Package analysis: the ranking (rank.go) *)

Module ranking.

Import model analysis.
Local Open Scope f64_scope.

(** The [less] closure of [RankByOracleProfit]: a larger profit comes first. *)
Definition less (a b : ArbitragePotential) : bool := OracleProfit a >? OracleProfit b.

(** [sort.Slice], as an insertion sort.  [sort.Slice] is not stable and its
    algorithm is not part of its contract: of the result only what every
    sorting algorithm gives is meant. *)
Fixpoint insert (x : ArbitragePotential) (l : list ArbitragePotential)
  : list ArbitragePotential :=
  match l with
  | [] => [x]
  | y :: t => if less x y then x :: l else y :: insert x t
  end.

Fixpoint Slice (l : list ArbitragePotential) : list ArbitragePotential :=
  match l with
  | [] => []
  | x :: t => insert x (Slice t)
  end.

(** [RankByOracleProfit]; the list [byLocation] holds the bindings of the map
    in the order in which the loop meets them. *)
Definition RankByOracleProfit (byLocation : list (string * list LMPInterval))
  : result (list ArbitragePotential) :=
  out <- slice.foldM (fun out (kv : string * list LMPInterval) =>
                        p <- ComputePotential (snd kv) ;;
                        Ok (out ++ [p]))
           byLocation [] ;;
  Ok (Slice out).

End ranking.

(** * Vocabulary of the statements

    Predicates and sample data the theorems are stated with. *)

(** ** Valid batteries

    A valid battery is one [Validate] accepts and whose parameters and state
    of charge are numbers.  ([Validate] alone lets a NaN capacity through,
    because every comparison with NaN is false.) *)

Section BatteryVocabulary.

Import model strategy.

Definition finite_params (p : BatteryParams) : bool :=
  is_finite (EnergyCapacityMWh p) && is_finite (PowerCapacityMW p)
  && is_finite (ChargeEfficiency p) && is_finite (DischargeEfficiency p)
  && is_finite (MinSOC p) && is_finite (MaxSOC p)
  && is_finite (DegradationCostPerMWh p).

Definition valid (b : model.Battery) : Prop :=
  finite_params (Params b) = true /\ is_finite (SOC (State b)) = true
  /\ Validate b = Ok tt.

(** The rationals behind a valid battery. *)
Record QParams : Type := {
  qE : Q; qP : Q; qCe : Q; qDe : Q; qMin : Q; qMax : Q; qDeg : Q
}.

Definition params_of (q : QParams) : BatteryParams :=
  {| EnergyCapacityMWh := Fin (qE q); PowerCapacityMW := Fin (qP q);
     ChargeEfficiency := Fin (qCe q); DischargeEfficiency := Fin (qDe q);
     MinSOC := Fin (qMin q); MaxSOC := Fin (qMax q);
     DegradationCostPerMWh := Fin (qDeg q) |}.

Definition battery_of (q : QParams) (s : Q) : model.Battery :=
  {| Params := params_of q; State := {| SOC := Fin s |} |}.

Record QValid (q : QParams) : Prop := {
  E_pos : 0 < qE q;
  P_pos : 0 < qP q;
  Ce_pos : 0 < qCe q;
  Ce_le1 : qCe q <= 1;
  De_pos : 0 < qDe q;
  De_le1 : qDe q <= 1;
  Min_nonneg : 0 <= qMin q;
  Min_le_Max : qMin q <= qMax q;
  Max_le1 : qMax q <= 1;
  Deg_nonneg : 0 <= qDeg q
}.

(** The grid energy that the SOC headroom and the power limit allow to draw
    (to deliver) in [t] hours from state of charge [s]. *)
Definition qMaxCharge (q : QParams) (s t : Q) : Q :=
  Qmin ((qMax q - s) * qE q / qCe q) (qP q * t).

Definition qMaxDischarge (q : QParams) (s t : Q) : Q :=
  Qmin ((s - qMin q) * qE q * qDe q) (qP q * t).

(** Grid energy drawn when charging (delivered when discharging) at the
    clipped power [p]. *)
Definition qFromGrid (q : QParams) (s t p : Q) : Q := Qmin (- p * t) (qMaxCharge q s t).

Definition qToGrid (q : QParams) (s t p : Q) : Q := Qmin (p * t) (qMaxDischarge q s t).

(** The PnL formula on the grid-side energies. *)
Definition pnlOf (q : QParams) (lmp : float64) (ef et : float64) : float64 :=
  (lmp * et - lmp * ef - Fin (qDeg q) * (ef + et))%f64.

(** A duration that is a positive number of hours. *)
Definition positive_finite (dt : float64) : bool := is_finite dt && (dt >? f0)%f64.

(** The batteries and results of a sequence of dispatch steps. *)
Fixpoint trajectory (b : model.Battery) (steps : list (float64 * Dispatch * float64))
  : list (result IntervalResult * model.Battery) :=
  match steps with
  | [] => []
  | (lmp, d, dt) :: rest =>
      let rb := ApplyDispatch b lmp d dt in
      rb :: trajectory (snd rb) rest
  end.

Definition soc_in_bounds (b : model.Battery) : bool :=
  ((MinSOC (Params b) <=? SOC (State b)) && (SOC (State b) <=? MaxSOC (Params b)))%f64.

(** [lo <= x <= hi], as the comparisons of the code decide it. *)
Definition between (lo hi x : float64) : Prop :=
  (lo <=? x)%f64 = true /\ (x <=? hi)%f64 = true.

(** Sample data *)
Definition sampleParams : BatteryParams :=
  {| EnergyCapacityMWh := Fin 100; PowerCapacityMW := Fin 50;
     ChargeEfficiency := Fin (9 # 10); DischargeEfficiency := Fin (9 # 10);
     MinSOC := Fin 0; MaxSOC := Fin 1; DegradationCostPerMWh := Fin 0 |}.

Definition sampleBattery : model.Battery :=
  {| Params := sampleParams; State := {| SOC := Fin (1 # 2) |} |}.

End BatteryVocabulary.

(** ** Runs of the engine *)

Section EngineVocabulary.

Import model strategy backtest.

(** The sum of a list of floats, added from the left as the engine does. *)
Definition sumf (l : list float64) : float64 := fold_left add l f0.

(** Every row's CumPNL is the sum of the PNL fields up to and including it. *)
Definition ledger_sums (l : list LedgerRow) : Prop :=
  forall i row, nth_error l i = Some row ->
    CumPNL row = sumf (map PNL (firstn (S i) l)).

(** The invariant of the loop of [Run] behind [ledger_sums]. *)
Definition sums_inv {St : Type} (st : RunState St) : Prop :=
  cum st = sumf (map PNL (ledger st)) /\ ledger_sums (ledger st).

(** What a ledger row shows of a request that is not a finite number. *)
Definition row_absorbs_nonfinite (row : LedgerRow) : Prop :=
  is_finite (PowerMW row) = true
  /\ (IsNaN (RequestedPowerMW row) = true ->
      PowerMW row = f0 /\ SOCEnd row = SOCStart row
      /\ EnergyFromGridMWh row = f0 /\ EnergyToGridMWh row = f0
      /\ Action row = ActionIdle).

(** Total PnL of a run (NaN when the run fails). *)
Definition totalOf {St} (o : Outcome St) : float64 :=
  match returned o with
  | Ok r => TotalPNL r
  | _ => NaN
  end.

(** The minute of the day [Decide] looks at. *)
Definition minuteOfDay (ctx : Context) : Z :=
  (Hour (model.IntervalStartLocal (Interval ctx)) * 60
   + Minute (model.IntervalStartLocal (Interval ctx)))%Z.

(** An optional clock string of the schedule: blank means the default. *)
Definition parseOr (dflt : Z) (s : string) : result Z :=
  if isEmptyString (TrimSpace s) then Ok dflt else parseHHMM s.

(** The schedule strategy once its clock strings have been parsed. *)
Definition parsedSchedule (p : ScheduleParams) (cs ce ds de : Z) : ScheduleStrategy :=
  {| sParams := p; initialized := true;
     csMins := cs; ceMins := ce; dsMins := ds; deMins := de |}.

(** The clock string "HH:MM", two digits each. *)
Definition twoDigits (n : nat) : string :=
  String (ascii_of_nat (48 + n / 10)) (String (ascii_of_nat (48 + n mod 10)) EmptyString).

Definition clock (h m : nat) : string := (twoDigits h ++ ":" ++ twoDigits m)%string.

Definition clockParses (h m : nat) : bool :=
  match parseHHMM (clock h m) with
  | Ok z => (z =? Z.of_nat (h * 60 + m))%Z
  | _ => false
  end.

(** Sample market data: hourly intervals on 2024-01-01 (UTC). *)
Definition sampleTime (sec off : Z) : Time :=
  {| unixNano := sec * 1000000000; zoneOffset := off |}.

Definition sampleInterval (startSec durSec off : Z) (lmp : float64) : LMPInterval :=
  {| model.IntervalStartLocal := sampleTime startSec off;
     model.IntervalStartUTC := sampleTime startSec 0;
     model.IntervalEndLocal := sampleTime (startSec + durSec) off;
     model.IntervalEndUTC := sampleTime (startSec + durSec) 0;
     model.Market := "CAISO"; model.Location := "NODE_A"; LocationType := "GNODE";
     model.LMP := lmp; Energy := f0; Congestion := f0; Loss := f0; GHG := f0 |}.

(** 10:00 and 11:00 on 2024-01-01, one hour each, at 10 and 90 $/MWh. *)
Definition sampleDay : list LMPInterval :=
  [sampleInterval 1704103200 3600 0 (Fin 10); sampleInterval 1704106800 3600 0 (Fin 90)].

Definition sampleSchedule : ScheduleStrategy :=
  NewSchedule {| ChargeStart := "10:00"; ChargeEnd := "11:00";
                 DischargeStart := "11:00"; DischargeEnd := "12:00";
                 ChargePowerMW := Fin 50; DischargePowerMW := Fin 50 |}.

(** The outcome of running the sample schedule over the sample day. *)
Definition sampleResult : Result :=
  Eval vm_compute in
    match returned (Run sampleDay (Some sampleBattery) (Some sampleSchedule)) with
    | Ok r => r
    | _ => {| Ledger := []; TotalPNL := f0; FinalSOC := f0 |}
    end.

(** An interval of zero length at 11:00. *)
Definition emptyInterval : LMPInterval := sampleInterval 1704106800 0 0 (Fin 90).

Definition sampleStart : RunState ScheduleStrategy :=
  {| batt := sampleBattery; strat := sampleSchedule; ledger := []; cum := f0 |}.

Definition afterFirst : RunState ScheduleStrategy :=
  Eval vm_compute in
    snd (runLoop (slice.indexed [sampleInterval 1704103200 3600 0 (Fin 10)]) sampleStart).

(** A schedule whose charge power is NaN. *)
Definition nanSchedule : ScheduleStrategy :=
  NewSchedule {| ChargeStart := "10:00"; ChargeEnd := "11:00";
                 DischargeStart := "11:00"; DischargeEnd := "12:00";
                 ChargePowerMW := NaN; DischargePowerMW := Fin 50 |}.

Definition firstContext : Context :=
  {| strategy.Index := 0; Interval := sampleInterval 1704103200 3600 0 (Fin 10);
     Battery := sampleBattery |}.

Definition firstInitialized : ScheduleStrategy :=
  Eval vm_compute in snd (Decide sampleSchedule firstContext).

End EngineVocabulary.

(** ** The oracle's tables and days *)

Section OracleVocabulary.

Import model strategy.

(** Shapes of the tables of [optimizeDP] for a grid of [n] SOC steps and
    [T] intervals: the invariants of its loops. *)
Definition accOK (n : Z) (acc : ActionAcc) : Prop :=
  List.length (a_next acc) = Z.to_nat (n + 1) /\ (0 <= bestNextState acc <= n)%Z.

Definition rowsOK {A} (n : Z) (T : nat) (m : list (list A)) : Prop :=
  List.length m = T /\ Forall (fun row => List.length row = Z.to_nat (n + 1)) m.

Definition tablesOK (n : Z) (T : nat) (tb : Tables) : Prop :=
  List.length (dp tb) = Z.to_nat (n + 1) /\ List.length (next tb) = Z.to_nat (n + 1)
  /\ rowsOK n T (choice tb) /\ rowsOK n T (powerChosen tb)
  /\ Forall (Forall (fun z => (-1 <= z <= n)%Z)) (choice tb).

Definition reconOK (n : Z) (T : nat) (st : list Dispatch * Z) : Prop :=
  List.length (fst st) = T /\ (0 <= snd st <= n)%Z.

(** The calendar day an interval starts on, as the instant of its local
    midnight. *)
Definition dayOf (it : LMPInterval) : Z := dayStart (IntervalStartLocal it).

(** The maximal runs of consecutive intervals that start on the same day. *)
Fixpoint splitDays (l : list LMPInterval) : list (list LMPInterval) :=
  match l with
  | [] => []
  | x :: t =>
      match splitDays t with
      | (y :: g) :: gs =>
          if (dayOf x =? dayOf y)%Z then (x :: y :: g) :: gs
          else [x] :: (y :: g) :: gs
      | _ => [[x]]
      end
  end.

Definition defaultOracle : OracleParams := {| SocSteps := 200; PowerSteps := 10 |}.

End OracleVocabulary.

(** ** Ranking *)

Section RankingVocabulary.

Import model analysis.

(** The same interval with its LMP raised by [c]. *)
Definition offsetLMP (c : Q) (it : LMPInterval) : LMPInterval :=
  {| IntervalStartLocal := IntervalStartLocal it;
     IntervalStartUTC := IntervalStartUTC it;
     IntervalEndLocal := IntervalEndLocal it;
     IntervalEndUTC := IntervalEndUTC it;
     model.Market := model.Market it;
     model.Location := model.Location it;
     LocationType := LocationType it;
     LMP := (LMP it + Fin c)%f64;
     Energy := Energy it;
     Congestion := Congestion it;
     Loss := Loss it;
     GHG := GHG it |}.

Definition oneHourAt (lmp : Q) : list LMPInterval :=
  [sampleInterval 1704103200 3600 0 (Fin lmp)].

End RankingVocabulary.

(** ** Sample data in binary64 *)

Section Binary64Vocabulary.

Import PrimFloat.
Local Open Scope float_scope.

(** A battery of [cap] MWh and [pow] MW with efficiencies 0.9, SOC bounds
    [lo, hi] and no degradation cost. *)
Definition ieeeParams (cap pow lo hi : float) : ieee.BatteryParams :=
  {| ieee.EnergyCapacityMWh := cap; ieee.PowerCapacityMW := pow;
     ieee.ChargeEfficiency := 0.9; ieee.DischargeEfficiency := 0.9;
     ieee.MinSOC := lo; ieee.MaxSOC := hi; ieee.DegradationCostPerMWh := 0 |}.

Definition ieeeBattery (cap pow lo hi soc : float) : ieee.Battery :=
  {| ieee.Params := ieeeParams cap pow lo hi; ieee.State := {| ieee.SOC := soc |} |}.



Definition storedMWh (b : ieee.Battery) (res : ieee.IntervalResult) : float :=
  ieee.rEnergyFromGridMWh res * ieee.ChargeEfficiency (ieee.Params b).

End Binary64Vocabulary.

(** ** Single steps and ledger rows *)

Section StepVocabulary.

Import model strategy backtest.

(** What is left of a request in the realized power [pr]: its direction, and
    no more than its size. *)
Definition follows (x : float64) (pr : Q) : Prop :=
  match x with
  | Fin xx => (xx <= 0 -> xx <= pr <= 0) /\ (0 <= xx -> 0 <= pr <= xx)
  | PInf => 0 <= pr
  | NInf => pr <= 0
  | NaN => pr == 0
  end.

(** The sample battery, full. *)
Definition fullBattery : model.Battery :=
  {| Params := sampleParams; State := {| SOC := Fin 1 |} |}.

(** The row [Run] appends for interval [it] at index [idx], given the
    request, the interval result and the running sum after it. *)
Definition rowOf (idx : Z) (it : LMPInterval) (req : Dispatch) (res : IntervalResult)
    (cumAfter : float64) : LedgerRow :=
  {| Index := idx;
     IntervalStartLocal := model.IntervalStartLocal it;
     IntervalEndLocal := model.IntervalEndLocal it;
     IntervalStartUTC := model.IntervalStartUTC it;
     IntervalEndUTC := model.IntervalEndUTC it;
     Location := model.Location it;
     Market := model.Market it;
     LMP := model.LMP it;
     Action := ActionFromPowerMW (rPowerMW res);
     RequestedPowerMW := model.PowerMW req;
     PowerMW := rPowerMW res;
     EnergyFromGridMWh := rEnergyFromGridMWh res;
     EnergyToGridMWh := rEnergyToGridMWh res;
     ThroughputMWh := rThroughputMWh res;
     SOCStart := rSOCStart res;
     SOCEnd := rSOCEnd res;
     PNL := rPNL res;
     CumPNL := cumAfter |}.

(** The market data of an interval, and the copy of it a ledger row holds. *)
Definition intervalMarket (it : LMPInterval) : Time * Time * Time * Time * string * string * float64 :=
  (model.IntervalStartLocal it, model.IntervalEndLocal it, model.IntervalStartUTC it,
   model.IntervalEndUTC it, model.Location it, model.Market it, model.LMP it).

Definition rowMarket (row : LedgerRow) : Time * Time * Time * Time * string * string * float64 :=
  (IntervalStartLocal row, IntervalEndLocal row, IntervalStartUTC row,
   IntervalEndUTC row, Location row, Market row, LMP row).

(** Each row starts at the state of charge the row before it ended at. *)
Fixpoint soc_chain (s : float64) (rows : list LedgerRow) : Prop :=
  match rows with
  | [] => True
  | row :: rest => SOCStart row = s /\ soc_chain (SOCEnd row) rest
  end.

Section Passes.

Context {St : Type} `{Strategy St}.

(** A pass of the loop of [Run] over [l] in which no call fails: from the
    battery [b], the strategy [s] and the running sum [c] it appends [rows]
    and leaves the battery and the strategy as [b'] and [s']. *)
Inductive passes : model.Battery -> St -> float64 -> list (Z * LMPInterval)
                   -> list LedgerRow -> model.Battery -> St -> Prop :=
| passes_nil b s c : passes b s c [] [] b s
| passes_cons b s c idx it req s1 res b1 l rows b2 s2 :
    Decide s {| strategy.Index := idx; Interval := it; Battery := b |} = (Ok req, s1) ->
    ApplyDispatch b (model.LMP it) req (DurationHours it) = (Ok res, b1) ->
    passes b1 s1 (c + rPNL res)%f64 l rows b2 s2 ->
    passes b s c ((idx, it) :: l) (rowOf idx it req res (c + rPNL res)%f64 :: rows) b2 s2.

End Passes.

End StepVocabulary.

(** ** Schedules *)

Section ScheduleVocabulary.

Import model strategy.

(** A schedule that leaves both window ends blank. *)
Definition openEndedParams : ScheduleParams :=
  {| ChargeStart := "10:00"; ChargeEnd := ""; DischargeStart := "17:00";
     DischargeEnd := "  "; ChargePowerMW := Fin 50; DischargePowerMW := Fin 50 |}.

Definition openEndedInitialized : ScheduleStrategy :=
  Eval vm_compute in snd (Decide (NewSchedule openEndedParams) firstContext).

(** A schedule whose charge window starts at an hour that does not exist. *)
Definition lateParams : ScheduleParams :=
  {| ChargeStart := "24:00"; ChargeEnd := "11:00"; DischargeStart := "17:00";
     DischargeEnd := "18:00"; ChargePowerMW := Fin 50; DischargePowerMW := Fin 50 |}.

(** Clock strings of ASCII characters only.  On these the byte-wise
    [TrimSpace] and [Sscanf] above are those of Go, which also skip the
    Unicode white space outside ASCII. *)
Fixpoint asciiString (s : string) : bool :=
  match s with
  | EmptyString => true
  | String c t => (nat_of_ascii c <? 128)%nat && asciiString t
  end.

Definition asciiClocks (p : ScheduleParams) : bool :=
  asciiString (ChargeStart p) && asciiString (ChargeEnd p)
  && asciiString (DischargeStart p) && asciiString (DischargeEnd p).

(** The first sample interval, one day later. *)
Definition nextDayContext : Context :=
  {| strategy.Index := 24; Interval := sampleInterval 1704189600 3600 0 (Fin 35);
     Battery := fullBattery |}.

End ScheduleVocabulary.

(** ** Replaying a plan *)

Section ReplayVocabulary.

Import model strategy backtest.

(** A plan shorter than the sample day: one hour of charging. *)
Definition samplePlan : OracleStrategy := {| plan := [{| model.PowerMW := Fin (-20) |}] |}.

Definition samplePlanResult : Result :=
  Eval vm_compute in
    match returned (Run sampleDay (Some sampleBattery) (Some samplePlan)) with
    | Ok r => r
    | _ => {| Ledger := []; TotalPNL := f0; FinalSOC := f0 |}
    end.

End ReplayVocabulary.

(** ** Outcomes *)

Section OutcomeVocabulary.

(** A call that does not panic: it returns a value with property [P], or an
    error. *)
Definition returns_or_errs {A} (P : A -> Prop) (r : result A) : Prop :=
  match r with
  | Ok a => P a
  | Err _ => True
  | Panic _ => False
  end.

End OutcomeVocabulary.

(** ** Histories of the response cache *)

Section CacheVocabulary.

Import data.

(** The operations that change a cache, with the instant they run at. *)
Inductive CacheOp : Type :=
| OpSet (now : Z) (key : string) (response : option GridStatusLMPResponse)
| OpClear
| OpCleanup (now : Z).

Definition applyOp (c : ResponseCache) (op : CacheOp) : ResponseCache :=
  match op with
  | OpSet now key response =>
      match Set_ (Some c) now key response with Some c' => c' | None => c end
  | OpClear => match Clear (Some c) with Some c' => c' | None => c end
  | OpCleanup now => cleanupTick c now
  end.

(** The cache [GetCache] creates, after a history of operations. *)
Definition cacheAfter (ttl0 : Z) (history : list CacheOp) : ResponseCache :=
  fold_left applyOp history {| store := []; ttl := ttl0 |}.

(** Two responses stored under the keys a and b, a cleanup in between. *)
Definition sampleHistory : list CacheOp :=
  [OpSet 0 "a" (Some {| StatusCode := 200; Data := sampleDay |});
   OpCleanup 4000;
   OpSet 4500 "b" None].

End CacheVocabulary.

(** ** Configurations *)

Section ConfigVocabulary.

Import config.

(** Go's zero value [BatteryConfig{}]: nothing is set. *)
Definition BatteryConfig_zero : BatteryConfig :=
  {| Name := ""; EnergyCapacityMWh := f0; PowerCapacityMW := f0; ChargeEfficiency := f0;
     DischargeEfficiency := f0; MinSOC := f0; MaxSOC := f0; InitialSOC := f0;
     DegradationCostPerMWh := f0 |}.

End ConfigVocabulary.

(** ** Days of a ledger *)

Section SummaryVocabulary.

Import model backtest.

(** The elements of [l] that are not in [seen], each once, in the order in
    which they first occur. *)
Fixpoint firstSeen (seen l : list Z) : list Z :=
  match l with
  | [] => []
  | d :: t =>
      if existsb (Z.eqb d) seen then firstSeen seen t
      else d :: firstSeen (d :: seen) t
  end.

(** The days of the rows that moved energy, row by row; [energy] is
    [EnergyFromGridMWh] or [EnergyToGridMWh]. *)
Definition activeDays (energy : LedgerRow -> float64) (ledger : list LedgerRow) : list Z :=
  map (fun row => handlers.dayKey (IntervalStartLocal row))
      (filter (fun row => (energy row >? f0)%f64) ledger).

End SummaryVocabulary.

(** ** Rankings and NaN *)

Section RankVocabulary.

Import model.

(** A list in which no element is below a later one. *)
Fixpoint descending (l : list float64) : Prop :=
  match l with
  | [] => True
  | x :: t => Forall (fun y => (y <=? x)%f64 = true) t /\ descending t
  end.

(** A battery with NaN written over the numbers [mask] selects: the seven
    parameters in the order of [BatteryParams], then the state of charge. *)
Definition nanOr (m : bool) (x : float64) : float64 := if m then NaN else x.

Definition withNaN (mask : nat -> bool) (b : model.Battery) : model.Battery :=
  {| Params :=
       {| EnergyCapacityMWh := nanOr (mask 0%nat) (EnergyCapacityMWh (Params b));
          PowerCapacityMW := nanOr (mask 1%nat) (PowerCapacityMW (Params b));
          ChargeEfficiency := nanOr (mask 2%nat) (ChargeEfficiency (Params b));
          DischargeEfficiency := nanOr (mask 3%nat) (DischargeEfficiency (Params b));
          MinSOC := nanOr (mask 4%nat) (MinSOC (Params b));
          MaxSOC := nanOr (mask 5%nat) (MaxSOC (Params b));
          DegradationCostPerMWh := nanOr (mask 6%nat) (DegradationCostPerMWh (Params b)) |};
     State := {| SOC := nanOr (mask 7%nat) (SOC (State b)) |} |}.

(** The pair of timestamps [Duration] measures: the UTC pair when both are
    set, the local pair otherwise. *)
Definition measured (it : LMPInterval) : Time * Time :=
  if negb (IsZero (IntervalEndUTC it)) && negb (IsZero (IntervalStartUTC it))
  then (IntervalStartUTC it, IntervalEndUTC it)
  else (IntervalStartLocal it, IntervalEndLocal it).

(** Two nodes to rank. *)
Definition sampleNodes : list (string * list LMPInterval) :=
  [("NODE_B"%string, oneHourAt 10); ("NODE_A"%string, sampleDay)].

Definition sampleRanking : list analysis.ArbitragePotential :=
  Eval vm_compute in
    match ranking.RankByOracleProfit sampleNodes with
    | Ok r => r
    | _ => []
    end.

End RankVocabulary.

(** * Verification *)

(** ** Finite arithmetic *)

Section FiniteArith.

Lemma Qltb_true (a b : Q) : Qltb a b = true <-> a < b.
Proof.
  unfold Qltb. rewrite negb_true_iff. split; intro H.
  - apply Qnot_le_lt. intro L. apply Qle_bool_iff in L. congruence.
  - destruct (Qle_bool b a) eqn:E; trivial.
    apply Qle_bool_iff in E. exfalso. apply (Qlt_not_le _ _ H E).
Qed.

Lemma Qltb_false (a b : Q) : Qltb a b = false <-> b <= a.
Proof.
  unfold Qltb. rewrite negb_false_iff. apply Qle_bool_iff.
Qed.

Lemma Qle_bool_false (a b : Q) : Qle_bool a b = false <-> b < a.
Proof.
  rewrite <- Qltb_true. unfold Qltb. now rewrite negb_true_iff.
Qed.

Lemma Qeq_bool_false (a b : Q) : Qeq_bool a b = false <-> ~ a == b.
Proof.
  split; intro H.
  - intro E. apply Qeq_bool_iff in E. congruence.
  - destruct (Qeq_bool a b) eqn:E; trivial.
    apply Qeq_bool_iff in E. contradiction.
Qed.

Lemma div_Fin (a b : Q) : ~ b == 0 -> (Fin a / Fin b)%f64 = Fin (a / b).
Proof.
  intro H. unfold div. now rewrite (proj2 (Qeq_bool_false b 0) H).
Qed.

Lemma Qdiv_mul_cancel (a b : Q) : ~ b == 0 -> a / b * b == a.
Proof. intro H. field. exact H. Qed.

Lemma Qdiv_nonneg (a b : Q) : 0 <= a -> 0 < b -> 0 <= a / b.
Proof.
  intros Ha Hb. apply Qle_shift_div_l; trivial. now rewrite Qmult_0_l.
Qed.

Lemma same_refl (x : float64) : (x == x)%f64.
Proof. destruct x; simpl; trivial. reflexivity. Qed.

Lemma same_sym (x y : float64) : (x == y)%f64 -> (y == x)%f64.
Proof. destruct x, y; simpl; trivial. intro H; now symmetry. Qed.

Lemma same_trans (x y z : float64) : (x == y)%f64 -> (y == z)%f64 -> (x == z)%f64.
Proof.
  destruct x, y, z; simpl; trivial; try contradiction.
  intros H1 H2. now rewrite H1.
Qed.

End FiniteArith.

Ltac fcbn :=
  cbn -[div to_int Qplus Qmult Qminus Qopp Qinv Qdiv Qabs Qle_bool Qltb Qeq_bool Qcompare
        inject_Z Qfloor Qceiling Z.pow].

Tactic Notation "fcbn" "in" hyp(H) :=
  cbn -[div to_int Qplus Qmult Qminus Qopp Qinv Qdiv Qabs Qle_bool Qltb Qeq_bool Qcompare
        inject_Z Qfloor Qceiling Z.pow] in H.

(** Settle every comparison that the context decides. *)
Ltac qdecide tac :=
  repeat match goal with
  | |- context [Qltb ?a ?b] =>
      first [ rewrite (proj2 (Qltb_true a b)) by tac
            | rewrite (proj2 (Qltb_false a b)) by tac ]
  | |- context [Qle_bool ?a ?b] =>
      first [ rewrite (proj2 (Qle_bool_iff a b)) by tac
            | rewrite (proj2 (Qle_bool_false a b)) by tac ]
  end.


(** Case analysis on every comparison of rationals in the goal. *)
Ltac qtest :=
  match goal with
  | |- context [Qltb ?a ?b] =>
      let E := fresh "E" in
      destruct (Qltb a b) eqn:E;
      [apply Qltb_true in E | apply Qltb_false in E]
  | |- context [Qle_bool ?a ?b] =>
      let E := fresh "E" in
      destruct (Qle_bool a b) eqn:E;
      [apply Qle_bool_iff in E | apply Qle_bool_false in E]
  end.

Ltac qtests := repeat (qtest; fcbn).

(** ** Valid batteries as rationals *)

Section ValidBattery.

Import model.

Lemma valid_inv (b : Battery) :
  valid b ->
  exists q s, b = battery_of q s /\ QValid q /\ qMin q <= s <= qMax q.
Proof.
  intros (Hf & Hs & Hv).
  destruct b as [[e pc ce de mn mx dg] [s]]. unfold finite_params in Hf. simpl in *.
  destruct e as [e| | |], pc as [pc| | |], ce as [ce| | |], de as [de| | |],
    mn as [mn| | |], mx as [mx| | |], dg as [dg| | |], s as [s| | |];
    try discriminate.
  exists {| qE := e; qP := pc; qCe := ce; qDe := de; qMin := mn; qMax := mx; qDeg := dg |}, s.
  split; [reflexivity|].
  unfold Validate in Hv. cbn in Hv.
  repeat match type of Hv with
  | context [Qltb ?a ?b] =>
      let E := fresh "E" in
      destruct (Qltb a b) eqn:E;
      [apply Qltb_true in E | apply Qltb_false in E]; cbn in Hv
  | context [Qle_bool ?a ?b] =>
      let E := fresh "E" in
      destruct (Qle_bool a b) eqn:E;
      [apply Qle_bool_iff in E | apply Qle_bool_false in E]; cbn in Hv
  end; try discriminate.
  split; [constructor; simpl; trivial | simpl; split; trivial].
Qed.

Lemma valid_battery_of (q : QParams) (s : Q) :
  QValid q -> qMin q <= s <= qMax q -> valid (battery_of q s).
Proof.
  intros [] [Hlo Hhi]. repeat split. unfold Validate. cbn.
  repeat match goal with
  | |- context [Qle_bool ?a ?b] =>
      let E := fresh "E" in
      destruct (Qle_bool a b) eqn:E;
      [apply Qle_bool_iff in E | apply Qle_bool_false in E]; cbn
  | |- context [Qltb ?a ?b] =>
      let E := fresh "E" in
      destruct (Qltb a b) eqn:E;
      [apply Qltb_true in E | apply Qltb_false in E]; cbn
  end; trivial; exfalso; lra.
Qed.

End ValidBattery.

Lemma Qdiv_bounds (a e lo hi : Q) :
  0 < e -> lo * e <= a -> a <= hi * e -> lo <= a / e <= hi.
Proof.
  intros He H1 H2. split.
  - apply Qle_shift_div_l; trivial.
  - apply Qle_shift_div_r; trivial.
Qed.

(** ** One interval of battery physics over the rationals *)

Section Physics.

Import model strategy.

Variable q : QParams.
Hypothesis V : QValid q.
Variables s t : Q.
Hypothesis Hs : qMin q <= s <= qMax q.
Hypothesis Ht : 0 < t.

Lemma maxCharge_spec :
  exists m, maxChargeEnergyFromGridMWh (battery_of q s) (Fin t) = Fin m
    /\ m == qMaxCharge q s t.
Proof.
  destruct V. unfold maxChargeEnergyFromGridMWh, qMaxCharge. fcbn.
  set (st := (qMax q + - s) * qE q).
  assert (Hst : 0 <= st) by (unfold st; apply Qmult_le_0_compat; lra).
  assert (Hpt : 0 < qP q * t) by (apply Qmult_lt_0_compat; lra).
  assert (Hne : ~ qCe q == 0) by lra.
  assert (Hd0 : 0 <= st / qCe q) by (apply Qdiv_nonneg; trivial).
  replace ((qMax q - s) * qE q) with st by reflexivity.
  qtest; fcbn.
  - assert (st == 0) by lra.
    exists 0. split; [reflexivity|].
    assert (st / qCe q == 0) by (rewrite H; field; trivial).
    rewrite H0. rewrite Q.min_l; lra.
  - rewrite div_Fin by trivial. unfold gt. fcbn.
    generalize dependent (st / qCe q). intros d Hd0.
    qtests; eexists; (split; [reflexivity|]).
    all: try (rewrite Q.min_l by lra; lra); try (rewrite Q.min_r by lra; lra).
Qed.

Lemma qMaxCharge_bounds :
  0 <= qMaxCharge q s t /\ qMaxCharge q s t * qCe q <= (qMax q - s) * qE q
  /\ qMaxCharge q s t <= qP q * t.
Proof.
  destruct V. unfold qMaxCharge.
  set (st := (qMax q - s) * qE q).
  assert (Hst : 0 <= st) by (unfold st; apply Qmult_le_0_compat; lra).
  assert (Hpt : 0 < qP q * t) by (apply Qmult_lt_0_compat; lra).
  assert (Hne : ~ qCe q == 0) by lra.
  assert (Hd : st / qCe q * qCe q == st) by (apply Qdiv_mul_cancel; trivial).
  assert (Hd0 : 0 <= st / qCe q) by (apply Qdiv_nonneg; trivial).
  generalize dependent (st / qCe q). intros d Hd Hd0.
  destruct (Q.min_spec d (qP q * t)) as [[H1 H2]|[H1 H2]]; rewrite H2; repeat split; try lra; nra.
Qed.


Lemma maxDischarge_spec :
  exists m, maxDischargeEnergyToGridMWh (battery_of q s) (Fin t) = Fin m
    /\ m == qMaxDischarge q s t.
Proof.
  destruct V. unfold maxDischargeEnergyToGridMWh, qMaxDischarge. fcbn.
  set (st := (s + - qMin q) * qE q).
  assert (Hst : 0 <= st) by (unfold st; apply Qmult_le_0_compat; lra).
  assert (Hpt : 0 < qP q * t) by (apply Qmult_lt_0_compat; lra).
  replace ((s - qMin q) * qE q) with st by reflexivity.
  assert (Hd0 : 0 <= st * qDe q) by (apply Qmult_le_0_compat; lra).
  destruct (Qle_bool st 0) eqn:E;
    [apply Qle_bool_iff in E | apply Qle_bool_false in E]; fcbn.
  - assert (st == 0) by lra.
    exists 0. split; [reflexivity|].
    assert (st * qDe q == 0) by (rewrite H; ring).
    rewrite H0. rewrite Q.min_l; lra.
  - unfold gt. fcbn.
    generalize dependent (st * qDe q). intros d Hd0.
    qtests; eexists; (split; [reflexivity|]).
    all: try (rewrite Q.min_l by lra; lra); try (rewrite Q.min_r by lra; lra).
Qed.

Lemma qMaxDischarge_bounds :
  0 <= qMaxDischarge q s t /\ qMaxDischarge q s t <= (s - qMin q) * qE q * qDe q
  /\ qMaxDischarge q s t <= qP q * t.
Proof.
  destruct V. unfold qMaxDischarge.
  set (st := (s - qMin q) * qE q).
  assert (Hst : 0 <= st) by (unfold st; apply Qmult_le_0_compat; lra).
  assert (Hpt : 0 < qP q * t) by (apply Qmult_lt_0_compat; lra).
  assert (Hd0 : 0 <= st * qDe q) by (apply Qmult_le_0_compat; lra).
  generalize dependent (st * qDe q). intros d Hd0.
  destruct (Q.min_spec d (qP q * t)) as [[H1 H2]|[H1 H2]]; rewrite H2; repeat split; lra.
Qed.

Lemma ApplyDispatch_charge (lmp : float64) (d : Dispatch) (p : Q) :
  PowerMW (ClipDispatch (battery_of q s) d) = Fin p -> p < 0 ->
  exists r pr s',
    ApplyDispatch (battery_of q s) lmp d (Fin t)
    = (Ok {| rPowerMW := Fin pr; rEnergyToGridMWh := f0; rEnergyFromGridMWh := Fin r;
             rThroughputMWh := Fin r; rSOCStart := Fin s; rSOCEnd := Fin s';
             rPNL := CalculateIntervalPnL (battery_of q s') lmp (Fin r) f0 |},
       battery_of q s')
    /\ r == qFromGrid q s t p /\ pr * t == - r /\ (s' - s) * qE q == r * qCe q.
Proof.
  intros Hc Hp.
  destruct maxCharge_spec as (m & Hm & Em).
  destruct qMaxCharge_bounds as (B0 & B1 & B2).
  rewrite <- Em in B0, B1, B2.
  pose proof V as V'. destruct V'.
  unfold ApplyDispatch. cbv zeta. rewrite Hc, Hm.
  change (Fin t <=? f0)%f64 with (Qle_bool t 0).
  rewrite (proj2 (Qle_bool_false t 0)) by lra.
  change (Fin p <? f0)%f64 with (Qltb p 0).
  rewrite (proj2 (Qltb_true p 0)) by lra.
  assert (Ha : Qabs p == - p) by (apply Qabs_neg; lra).
  assert (Hne : ~ qE q == 0) by lra.
  assert (Hnt : ~ t == 0) by lra.
  unfold gt. fcbn.
  qtest; fcbn; rewrite !div_Fin by trivial; unfold clamp01, gt; fcbn.
  - (* clipped by SOC or power *)
    set (X := (s * qE q + m * qCe q) / qE q).
    assert (HX : X * qE q == s * qE q + m * qCe q) by (apply Qdiv_mul_cancel; trivial).
    assert (0 <= m * qCe q) by (apply Qmult_le_0_compat; lra).
    assert (HXb : s <= X <= qMax q) by (apply Qdiv_bounds; lra).
    qdecide lra.
    exists m, (- m / t), X. split; [reflexivity|]. split; [|split].
    + rewrite Ha in E. unfold qFromGrid. rewrite Q.min_r; lra.
    + field; trivial.
    + lra.
  - assert (Hr : Qabs p * t == - p * t) by (rewrite Ha; reflexivity).
    set (r := Qabs p * t) in *.
    set (X := (s * qE q + r * qCe q) / qE q).
    assert (HX : X * qE q == s * qE q + r * qCe q) by (apply Qdiv_mul_cancel; trivial).
    assert (0 <= r) by (unfold r; apply Qmult_le_0_compat; lra).
    assert (0 <= r * qCe q) by (apply Qmult_le_0_compat; lra).
    assert (r * qCe q <= m * qCe q) by (apply Qmult_le_compat_r; lra).
    assert (HXb : s <= X <= qMax q) by (apply Qdiv_bounds; lra).
    qdecide lra.
    exists r, p, X. split; [reflexivity|]. split; [|split].
    + unfold qFromGrid. rewrite Q.min_l; lra.
    + lra.
    + lra.
Qed.


Lemma ApplyDispatch_discharge (lmp : float64) (d : Dispatch) (p : Q) :
  PowerMW (ClipDispatch (battery_of q s) d) = Fin p -> 0 < p ->
  exists r pr s',
    ApplyDispatch (battery_of q s) lmp d (Fin t)
    = (Ok {| rPowerMW := Fin pr; rEnergyToGridMWh := Fin r; rEnergyFromGridMWh := f0;
             rThroughputMWh := Fin r; rSOCStart := Fin s; rSOCEnd := Fin s';
             rPNL := CalculateIntervalPnL (battery_of q s') lmp f0 (Fin r) |},
       battery_of q s')
    /\ r == qToGrid q s t p /\ pr * t == r /\ (s - s') * qE q == r / qDe q.
Proof.
  intros Hc Hp.
  destruct maxDischarge_spec as (m & Hm & Em).
  destruct qMaxDischarge_bounds as (B0 & B1 & B2).
  rewrite <- Em in B0, B1, B2.
  pose proof V as V'. destruct V'.
  unfold ApplyDispatch. cbv zeta. rewrite Hc, Hm.
  change (Fin t <=? f0)%f64 with (Qle_bool t 0).
  rewrite (proj2 (Qle_bool_false t 0)) by lra.
  change (Fin p <? f0)%f64 with (Qltb p 0).
  rewrite (proj2 (Qltb_false p 0)) by lra.
  change (Fin p >? f0)%f64 with (Qltb 0 p).
  rewrite (proj2 (Qltb_true 0 p)) by lra.
  assert (Hne : ~ qE q == 0) by lra.
  assert (Hnd : ~ qDe q == 0) by lra.
  assert (Hnt : ~ t == 0) by lra.
  unfold gt. fcbn.
  destruct (Qltb m (p * t)) eqn:E;
    [apply Qltb_true in E | apply Qltb_false in E];
    fcbn; repeat (rewrite div_Fin by trivial; fcbn);
    unfold clamp01, gt; fcbn.
  - set (w := m / qDe q).
    assert (Hw : w * qDe q == m) by (apply Qdiv_mul_cancel; trivial).
    assert (Hwb : 0 <= w <= (s - qMin q) * qE q) by (apply Qdiv_bounds; lra).
    set (X := (s * qE q + - w) / qE q).
    assert (HX : X * qE q == s * qE q + - w) by (apply Qdiv_mul_cancel; trivial).
    assert (HXb : qMin q <= X <= s) by (apply Qdiv_bounds; lra).
    qdecide lra.
    exists m, (m / t), X. split; [reflexivity|]. split; [|split].
    + unfold qToGrid. rewrite Q.min_r; lra.
    + field; trivial.
    + fold w. lra.
  - set (r := p * t) in *.
    assert (0 <= r) by (unfold r; apply Qmult_le_0_compat; lra).
    set (w := r / qDe q).
    assert (Hw : w * qDe q == r) by (apply Qdiv_mul_cancel; trivial).
    assert (Hwb : 0 <= w <= (s - qMin q) * qE q) by (apply Qdiv_bounds; lra).
    set (X := (s * qE q + - w) / qE q).
    assert (HX : X * qE q == s * qE q + - w) by (apply Qdiv_mul_cancel; trivial).
    assert (HXb : qMin q <= X <= s) by (apply Qdiv_bounds; lra).
    qdecide lra.
    exists r, p, X. split; [reflexivity|]. split; [|split].
    + unfold qToGrid. fold r. rewrite Q.min_l; lra.
    + reflexivity.
    + fold w. lra.
Qed.

Lemma ApplyDispatch_idle (lmp : float64) (d : Dispatch) :
  (PowerMW (ClipDispatch (battery_of q s) d) = NaN
   \/ exists p, PowerMW (ClipDispatch (battery_of q s) d) = Fin p /\ p == 0) ->
  ApplyDispatch (battery_of q s) lmp d (Fin t)
  = (Ok {| rPowerMW := f0; rEnergyToGridMWh := f0; rEnergyFromGridMWh := f0;
           rThroughputMWh := f0; rSOCStart := Fin s; rSOCEnd := Fin s;
           rPNL := CalculateIntervalPnL (battery_of q s) lmp f0 f0 |},
     battery_of q s).
Proof.
  intros Hc.
  unfold ApplyDispatch. cbv zeta.
  change (Fin t <=? f0)%f64 with (Qle_bool t 0).
  rewrite (proj2 (Qle_bool_false t 0)) by lra.
  destruct Hc as [Hc | (p & Hc & Hp)]; rewrite Hc.
  - reflexivity.
  - change (Fin p <? f0)%f64 with (Qltb p 0).
    rewrite (proj2 (Qltb_false p 0)) by lra.
    change (Fin p >? f0)%f64 with (Qltb 0 p).
    rewrite (proj2 (Qltb_false 0 p)) by lra.
    reflexivity.
Qed.


Lemma simulateInterval_charge (lmp x : float64) (p : Q) :
  PowerMW (ClipDispatch (battery_of q s) {| PowerMW := x |}) = Fin p -> p < 0 ->
  exists r pr s',
    simulateInterval (Fin s) x lmp (Fin t) (params_of q)
    = (Fin s', Fin pr, pnlOf q lmp (Fin r) f0)
    /\ r == qFromGrid q s t p /\ pr * t == - r /\ (s' - s) * qE q == r * qCe q.
Proof.
  intros Hc Hp.
  destruct qMaxCharge_bounds as (B0 & B1 & B2).
  pose proof V as V'. destruct V'.
  unfold ClipDispatch in Hc. fcbn in Hc.
  unfold simulateInterval. fcbn. rewrite Hc.
  change (Fin p <? f0)%f64 with (Qltb p 0).
  rewrite (proj2 (Qltb_true p 0)) by lra.
  assert (Ha : Qabs p == - p) by (apply Qabs_neg; lra).
  assert (Hne : ~ qE q == 0) by lra.
  assert (Hnc : ~ qCe q == 0) by lra.
  assert (Hnt : ~ t == 0) by lra.
  assert (Hst : 0 <= (qMax q + - s) * qE q) by (apply Qmult_le_0_compat; lra).
  fcbn. rewrite (proj2 (Qltb_false ((qMax q + - s) * qE q) 0)) by lra.
  rewrite !div_Fin by trivial. unfold Min, gt. fcbn.
  rewrite (proj2 (Qltb_true 0 t)) by lra. rewrite !andb_true_r.
  set (st := (qMax q + - s) * qE q) in *.
  assert (Hd0 : 0 <= st / qCe q) by (apply Qdiv_nonneg; trivial).
  assert (Hd1 : st / qCe q * qCe q == st) by (apply Qdiv_mul_cancel; trivial).
  assert (Hq : qMaxCharge q s t == Qmin (st / qCe q) (qP q * t)) by reflexivity.
  rewrite Hq in B0, B1, B2.
  assert (Hm : exists m, (if Qltb (st / qCe q) (qP q * t) then Fin (st / qCe q) else Fin (qP q * t)) = Fin m
               /\ m == Qmin (st / qCe q) (qP q * t)).
  { destruct (Qltb (st / qCe q) (qP q * t)) eqn:E;
      [apply Qltb_true in E | apply Qltb_false in E]; eexists; (split; [reflexivity|]).
    - rewrite Q.min_l; lra.
    - rewrite Q.min_r; lra. }
  destruct Hm as (m & -> & Em). rewrite <- Em in B0, B1, B2.
  fcbn.
  destruct (Qltb m (Qabs p * t)) eqn:E;
    [apply Qltb_true in E | apply Qltb_false in E];
    fcbn; rewrite !div_Fin by trivial; fcbn.
  - set (Y := m * qCe q / qE q).
    assert (HY : Y * qE q == m * qCe q) by (apply Qdiv_mul_cancel; trivial).
    assert (0 <= m * qCe q) by (apply Qmult_le_0_compat; lra).
    assert (HYb : 0 <= Y <= qMax q - s).
    { apply Qdiv_bounds; lra. }
    qdecide lra.
    exists m, (- m / t), (s + Y). split; [reflexivity|]. split; [|split].
    + rewrite Ha in E. unfold qFromGrid. rewrite Hq, <- Em. rewrite Q.min_r; lra.
    + field; trivial.
    + lra.
  - assert (Hr : Qabs p * t == - p * t) by (rewrite Ha; reflexivity).
    set (r := Qabs p * t) in *.
    assert (0 <= r) by (unfold r; apply Qmult_le_0_compat; lra).
    set (Y := r * qCe q / qE q).
    assert (HY : Y * qE q == r * qCe q) by (apply Qdiv_mul_cancel; trivial).
    assert (0 <= r * qCe q) by (apply Qmult_le_0_compat; lra).
    assert (r * qCe q <= m * qCe q) by (apply Qmult_le_compat_r; lra).
    assert (HYb : 0 <= Y <= qMax q - s).
    { apply Qdiv_bounds; lra. }
    qdecide lra.
    exists r, p, (s + Y). split; [reflexivity|]. split; [|split].
    + unfold qFromGrid. rewrite Hq, <- Em. rewrite Q.min_l; lra.
    + lra.
    + lra.
Qed.


Lemma simulateInterval_discharge (lmp x : float64) (p : Q) :
  PowerMW (ClipDispatch (battery_of q s) {| PowerMW := x |}) = Fin p -> 0 < p ->
  exists r pr s',
    simulateInterval (Fin s) x lmp (Fin t) (params_of q)
    = (Fin s', Fin pr, pnlOf q lmp f0 (Fin r))
    /\ r == qToGrid q s t p /\ pr * t == r /\ (s - s') * qE q == r / qDe q.
Proof.
  intros Hc Hp.
  destruct qMaxDischarge_bounds as (B0 & B1 & B2).
  pose proof V as V'. destruct V'.
  unfold ClipDispatch in Hc. fcbn in Hc.
  unfold simulateInterval. fcbn. rewrite Hc.
  change (Fin p <? f0)%f64 with (Qltb p 0).
  rewrite (proj2 (Qltb_false p 0)) by lra.
  change (Fin p >? f0)%f64 with (Qltb 0 p).
  rewrite (proj2 (Qltb_true 0 p)) by lra.
  assert (Hne : ~ qE q == 0) by lra.
  assert (Hnd : ~ qDe q == 0) by lra.
  assert (Hnt : ~ t == 0) by lra.
  assert (Hst : 0 <= (s + - qMin q) * qE q) by (apply Qmult_le_0_compat; lra).
  fcbn. rewrite (proj2 (Qltb_false ((s + - qMin q) * qE q) 0)) by lra.
  unfold Min, gt. fcbn.
  rewrite (proj2 (Qltb_true 0 t)) by lra. rewrite !andb_true_r.
  set (st := (s + - qMin q) * qE q) in *.
  assert (Hd0 : 0 <= st * qDe q) by (apply Qmult_le_0_compat; lra).
  assert (Hq : qMaxDischarge q s t == Qmin (st * qDe q) (qP q * t)) by reflexivity.
  rewrite Hq in B0, B1, B2.
  assert (Hm : exists m, (if Qltb (st * qDe q) (qP q * t) then Fin (st * qDe q) else Fin (qP q * t)) = Fin m
               /\ m == Qmin (st * qDe q) (qP q * t)).
  { destruct (Qltb (st * qDe q) (qP q * t)) eqn:E;
      [apply Qltb_true in E | apply Qltb_false in E]; eexists; (split; [reflexivity|]).
    - rewrite Q.min_l; lra.
    - rewrite Q.min_r; lra. }
  destruct Hm as (m & -> & Em). rewrite <- Em in B0, B1, B2.
  fcbn.
  destruct (Qltb m (p * t)) eqn:E;
    [apply Qltb_true in E | apply Qltb_false in E];
    fcbn; repeat (rewrite div_Fin by trivial; fcbn).
  - set (w := m / qDe q).
    assert (Hw : w * qDe q == m) by (apply Qdiv_mul_cancel; trivial).
    assert (Hwb : 0 <= w <= (s - qMin q) * qE q) by (apply Qdiv_bounds; lra).
    set (Y := w / qE q).
    assert (HY : Y * qE q == w) by (apply Qdiv_mul_cancel; trivial).
    assert (HYb : 0 <= Y <= s - qMin q) by (apply Qdiv_bounds; lra).
    qdecide lra.
    exists m, (m / t), (s + - Y). split; [reflexivity|]. split; [|split].
    + unfold qToGrid. rewrite Hq, <- Em. rewrite Q.min_r; lra.
    + field; trivial.
    + fold w. lra.
  - set (r := p * t) in *.
    assert (0 <= r) by (unfold r; apply Qmult_le_0_compat; lra).
    set (w := r / qDe q).
    assert (Hw : w * qDe q == r) by (apply Qdiv_mul_cancel; trivial).
    assert (Hwb : 0 <= w <= (s - qMin q) * qE q) by (apply Qdiv_bounds; lra).
    set (Y := w / qE q).
    assert (HY : Y * qE q == w) by (apply Qdiv_mul_cancel; trivial).
    assert (HYb : 0 <= Y <= s - qMin q) by (apply Qdiv_bounds; lra).
    qdecide lra.
    exists r, p, (s + - Y). split; [reflexivity|]. split; [|split].
    + unfold qToGrid. fold r. rewrite Hq, <- Em. rewrite Q.min_l; lra.
    + reflexivity.
    + fold w. lra.
Qed.

Lemma simulateInterval_idle (lmp x : float64) (p : Q) :
  PowerMW (ClipDispatch (battery_of q s) {| PowerMW := x |}) = Fin p -> p == 0 ->
  simulateInterval (Fin s) x lmp (Fin t) (params_of q)
  = (Fin s, Fin p, pnlOf q lmp f0 f0).
Proof.
  intros Hc Hp. destruct Hs.
  unfold ClipDispatch in Hc. fcbn in Hc.
  unfold simulateInterval. fcbn. rewrite Hc.
  change (Fin p <? f0)%f64 with (Qltb p 0).
  rewrite (proj2 (Qltb_false p 0)) by lra.
  change (Fin p >? f0)%f64 with (Qltb 0 p).
  rewrite (proj2 (Qltb_false 0 p)) by lra.
  fcbn. qdecide lra. reflexivity.
Qed.

End Physics.

(** ** The battery model and the oracle's step function *)

Section BatteryTheorems.

Import model strategy.

Lemma scale_inf_same (b : bool) (a a' : Q) : a == a' -> scale_inf b a = scale_inf b a'.
Proof. intro H. unfold scale_inf, Qsign. now rewrite H. Qed.

Lemma same_add (x x' y y' : float64) :
  (x == x')%f64 -> (y == y')%f64 -> (x + y == x' + y')%f64.
Proof.
  destruct x, x', y, y'; simpl; trivial; try contradiction.
  intros H1 H2. now rewrite H1, H2.
Qed.

Lemma same_neg (x x' : float64) : (x == x')%f64 -> (- x == - x')%f64.
Proof.
  destruct x, x'; simpl; trivial. intro H. now rewrite H.
Qed.

Lemma same_sub (x x' y y' : float64) :
  (x == x')%f64 -> (y == y')%f64 -> (x - y == x' - y')%f64.
Proof. intros. apply same_add; trivial. now apply same_neg. Qed.

Lemma same_mul (x x' y y' : float64) :
  (x == x')%f64 -> (y == y')%f64 -> (x * y == x' * y')%f64.
Proof.
  destruct x, x', y, y'; simpl; trivial; try contradiction;
    intros H1 H2;
    try (rewrite (scale_inf_same _ H1); apply same_refl);
    try (rewrite (scale_inf_same _ H2); apply same_refl).
  all: now rewrite H1, H2.
Qed.

Lemma positive_finite_inv dt : positive_finite dt = true -> exists t, dt = Fin t /\ 0 < t.
Proof.
  destruct dt; try discriminate. unfold positive_finite. cbn.
  intro H. apply Qltb_true in H. eauto.
Qed.

Lemma clip_cases (q : QParams) (s : Q) (x : float64) :
  QValid q ->
  (x = NaN /\ PowerMW (ClipDispatch (battery_of q s) {| PowerMW := x |}) = NaN)
  \/ exists p, PowerMW (ClipDispatch (battery_of q s) {| PowerMW := x |}) = Fin p
               /\ - qP q <= p <= qP q.
Proof.
  intros []. destruct x as [x| | |]; unfold ClipDispatch, gt; fcbn.
  - right. qtests; eexists; (split; [reflexivity|]); lra.
  - right. qtests; eexists; (split; [reflexivity|]); lra.
  - right. qtests; eexists; (split; [reflexivity|]); lra.
  - left. split; reflexivity.
Qed.

Lemma Qmul_cancel_r (a b e : Q) : 0 < e -> a * e == b * e -> a == b.
Proof. intros He H. apply (Qmult_inj_r a b e); trivial. lra. Qed.

(** In exact arithmetic the pure step function of the oracle and the battery
    model agree on everything they return: for a valid battery, a requested
    power that is a number, any LMP and a positive duration,
    [simulateInterval] returns the next SOC, the realized power and the PnL
    of [ApplyDispatch].  (In binary64 the two next SOCs are computed by
    different expressions and can differ in the last place.) *)
Lemma simulateInterval_exact
    (b : model.Battery) (requested lmp dt : float64) :
  valid b -> IsNaN requested = false -> positive_finite dt = true ->
  exists res b',
    ApplyDispatch b lmp {| PowerMW := requested |} dt = (Ok res, b')
    /\ (fst (fst (simulateInterval (SOC (State b)) requested lmp dt (Params b)))
        == SOC (State b'))%f64
    /\ (snd (fst (simulateInterval (SOC (State b)) requested lmp dt (Params b)))
        == rPowerMW res)%f64
    /\ (snd (simulateInterval (SOC (State b)) requested lmp dt (Params b))
        == rPNL res)%f64.
Proof.
  intros Hv Hx Hdt.
  destruct (valid_inv Hv) as (q & s & -> & V & Hs).
  destruct (positive_finite_inv _ Hdt) as (t & -> & Ht).
  pose proof V as V'. destruct V'.
  destruct (clip_cases s requested V) as [[-> _]|(p & Hc & Hp)]; [discriminate|].
  change (SOC (State (battery_of q s))) with (Fin s).
  change (Params (battery_of q s)) with (params_of q).
  destruct (Q_dec p 0) as [[Hn|Hp0]|Hz].
  - destruct (ApplyDispatch_charge V Hs Ht lmp _ Hc Hn) as (r & pr & s' & -> & Er & Ep & Es).
    destruct (simulateInterval_charge V Hs Ht lmp _ Hc Hn) as (r2 & pr2 & s2 & -> & Er2 & Ep2 & Es2).
    do 2 eexists. split; [reflexivity|]. cbn [fst snd rPowerMW rPNL SOC State battery_of].
    assert (Err : r2 == r) by (rewrite Er, Er2; reflexivity).
    split; [|split].
    + simpl. apply (Qmul_cancel_r (e:=qE q)); trivial. rewrite Err in Es2. lra.
    + simpl. apply (Qmul_cancel_r (e:=t)); trivial. lra.
    + unfold pnlOf, CalculateIntervalPnL. cbn [Params battery_of DegradationCostPerMWh params_of].
      repeat first [apply same_sub | apply same_mul | apply same_add | apply same_refl | exact Err].
  - destruct (ApplyDispatch_discharge V Hs Ht lmp _ Hc Hp0) as (r & pr & s' & -> & Er & Ep & Es).
    destruct (simulateInterval_discharge V Hs Ht lmp _ Hc Hp0) as (r2 & pr2 & s2 & -> & Er2 & Ep2 & Es2).
    do 2 eexists. split; [reflexivity|]. cbn [fst snd rPowerMW rPNL SOC State battery_of].
    assert (Err : r2 == r) by (rewrite Er, Er2; reflexivity).
    split; [|split].
    + simpl. apply (Qmul_cancel_r (e:=qE q)); trivial. rewrite Err in Es2. lra.
    + simpl. apply (Qmul_cancel_r (e:=t)); trivial. lra.
    + unfold pnlOf, CalculateIntervalPnL. cbn [Params battery_of DegradationCostPerMWh params_of].
      repeat first [apply same_sub | apply same_mul | apply same_add | apply same_refl | exact Err].
  - rewrite (ApplyDispatch_idle q s Ht lmp _ (or_intror (ex_intro _ p (conj Hc Hz)))).
    rewrite (simulateInterval_idle q t Hs lmp requested Hc Hz).
    do 2 eexists. split; [reflexivity|]. cbn [fst snd rPowerMW rPNL SOC State battery_of].
    split; [|split].
    + apply same_refl.
    + exact Hz.
    + apply same_refl.
Qed.


(** The interval as one statement over the rationals. *)
Lemma ApplyDispatch_spec (q : QParams) (s t : Q) (lmp : float64) (d : Dispatch) :
  QValid q -> qMin q <= s <= qMax q -> 0 < t ->
  exists pr ef et th s' pnl,
    ApplyDispatch (battery_of q s) lmp d (Fin t)
    = (Ok {| rPowerMW := Fin pr; rEnergyToGridMWh := Fin et;
             rEnergyFromGridMWh := Fin ef; rThroughputMWh := Fin th;
             rSOCStart := Fin s; rSOCEnd := Fin s'; rPNL := pnl |},
       battery_of q s')
    /\ qMin q <= s' <= qMax q
    /\ 0 <= ef /\ 0 <= et /\ (ef == 0 \/ et == 0) /\ th == ef + et
    /\ (pr < 0 -> (s' - s) * qE q == ef * qCe q)
    /\ (0 < pr -> (s - s') * qE q == et / qDe q).
Proof.
  intros V Hs Ht. pose proof V as V'. destruct V'.
  assert (Hcl : PowerMW (ClipDispatch (battery_of q s) d) = NaN
                \/ exists p, PowerMW (ClipDispatch (battery_of q s) d) = Fin p).
  { destruct d as [x]. destruct (clip_cases s x V) as [[_ H]|(p & H & _)]; eauto. }
  destruct Hcl as [Hc|(p & Hc)].
  - rewrite (ApplyDispatch_idle q s Ht lmp d (or_introl Hc)).
    exists 0, 0, 0, 0, s. eexists. split; [reflexivity|].
    repeat split; lra.
  - destruct (Q_dec p 0) as [[Hn|Hp0]|Hz].
    + destruct (ApplyDispatch_charge V Hs Ht lmp _ Hc Hn) as (r & pr & s' & -> & Er & Ep & Es).
      destruct (qMaxCharge_bounds V Hs Ht) as (B0 & B1 & B2).
      assert (Hr0 : 0 <= r).
      { rewrite Er. unfold qFromGrid. apply Q.min_glb; trivial.
        setoid_replace 0 with (- 0 * t) by ring.
        apply Qmult_le_compat_r; lra. }
      assert (Hr1 : r <= qMaxCharge q s t) by (rewrite Er; apply Q.le_min_r).
      assert (0 <= r * qCe q) by (apply Qmult_le_0_compat; lra).
      assert (r * qCe q <= qMaxCharge q s t * qCe q) by (apply Qmult_le_compat_r; lra).
      exists pr, r, 0, r, s'. eexists. split; [reflexivity|].
      assert (s <= s') by (apply (Qmult_le_r _ _ (qE q)); lra).
      assert (s' <= qMax q) by (apply (Qmult_le_r _ _ (qE q)); lra).
      repeat split; try lra.
      intro Hpr. exfalso.
      assert (0 < pr * t) by (apply Qmult_lt_0_compat; lra). lra.
    + destruct (ApplyDispatch_discharge V Hs Ht lmp _ Hc Hp0) as (r & pr & s' & -> & Er & Ep & Es).
      destruct (qMaxDischarge_bounds V Hs Ht) as (B0 & B1 & B2).
      assert (Hr0 : 0 <= r).
      { rewrite Er. unfold qToGrid. apply Q.min_glb; trivial.
        apply Qmult_le_0_compat; lra. }
      assert (Hr1 : r <= qMaxDischarge q s t) by (rewrite Er; apply Q.le_min_r).
      assert (Hw : 0 <= r / qDe q <= (s - qMin q) * qE q) by (apply Qdiv_bounds; lra).
      exists pr, 0, r, r, s'. eexists. split; [reflexivity|].
      assert (s' <= s) by (apply (Qmult_le_r _ _ (qE q)); lra).
      assert (qMin q <= s') by (apply (Qmult_le_r _ _ (qE q)); lra).
      repeat split; try lra.
      intro Hpr. exfalso.
      assert (pr * t < 0 * t) by (apply Qmult_lt_compat_r; lra). lra.
    + rewrite (ApplyDispatch_idle q s Ht lmp d (or_intror (ex_intro _ p (conj Hc Hz)))).
      exists 0, 0, 0, 0, s. eexists. split; [reflexivity|].
      repeat split; lra.
Qed.

End BatteryTheorems.

(** ** Invariants of the battery *)

Section BatteryInvariants.

Import model strategy.

Lemma sampleBattery_valid : valid sampleBattery.
Proof. repeat split. Qed.

Lemma ApplyDispatch_valid (b : model.Battery) (lmp : float64) (d : Dispatch) (dt : float64) :
  valid b -> positive_finite dt = true ->
  exists res b', ApplyDispatch b lmp d dt = (Ok res, b')
    /\ valid b' /\ Params b' = Params b /\ soc_in_bounds b' = true.
Proof.
  intros Hv Hdt.
  destruct (valid_inv Hv) as (q & s & -> & V & Hs).
  destruct (positive_finite_inv _ Hdt) as (t & -> & Ht).
  destruct (ApplyDispatch_spec lmp d V Hs Ht)
    as (pr & ef & et & th & s' & pnl & -> & Hs' & _).
  do 2 eexists. split; [reflexivity|]. split; [|split].
  - now apply valid_battery_of.
  - reflexivity.
  - unfold soc_in_bounds. cbn. destruct Hs'.
    now rewrite (proj2 (Qle_bool_iff _ _) H), (proj2 (Qle_bool_iff _ _) H0).
Qed.

(** In exact arithmetic the state of charge of a valid battery stays within
    its bounds: after every step of any sequence of [ApplyDispatch] calls
    with positive durations the call has succeeded and
    MinSOC <= SOC <= MaxSOC.  (In binary64 the SOC can end above MaxSOC; see
    the replay below.) *)
Lemma trajectory_in_bounds_exact
    (b : model.Battery) (steps : list (float64 * Dispatch * float64)) :
  valid b ->
  Forall (fun st => positive_finite (snd st) = true) steps ->
  Forall (fun rb => is_ok (fst rb) = true /\ soc_in_bounds (snd rb) = true)
         (trajectory b steps).
Proof.
  intros Hv Hsteps. revert b Hv.
  induction Hsteps as [|[[lmp d] dt] rest Hdt _ IH]; intros b Hv; cbn [trajectory].
  - constructor.
  - cbn [snd] in Hdt.
    destruct (@ApplyDispatch_valid b lmp d dt Hv Hdt) as (res & b' & E & Hv' & _ & Hb).
    rewrite E. cbn [snd]. constructor.
    + split; [reflexivity | exact Hb].
    + apply IH. exact Hv'.
Qed.



Lemma between_same (lo hi x y : float64) : (x == y)%f64 -> between lo hi y -> between lo hi x.
Proof.
  unfold between.
  destruct x, y, lo, hi; simpl; try tauto; intros H [H1 H2]; split; trivial;
    rewrite ?Qle_bool_iff in *; now rewrite H.
Qed.

Lemma simulateInterval_NaN (q : QParams) (s t : Q) (lmp : float64) :
  QValid q -> qMin q <= s <= qMax q ->
  simulateInterval (Fin s) NaN lmp (Fin t) (params_of q)
  = (Fin s, NaN, pnlOf q lmp f0 f0).
Proof.
  intros V Hs. destruct V. unfold simulateInterval. fcbn. qdecide lra. reflexivity.
Qed.

(** C1 (amended).  For a valid battery, any LMP and a positive duration,
    [simulateInterval] run from the battery's SOC returns the PnL of
    [ApplyDispatch] for every requested power, and its realized power for
    every requested power that is not NaN.  The next SOC it returns lies in
    [MinSOC, MaxSOC], the battery's next SOC in [0, 1]: the two are computed
    by different expressions and clamped to different ranges. *)
Theorem C1_simulateInterval_matches_ApplyDispatch
    (b : model.Battery) (requested lmp dt : float64) :
  valid b -> positive_finite dt = true ->
  exists res b',
    ApplyDispatch b lmp {| PowerMW := requested |} dt = (Ok res, b')
    /\ (IsNaN requested = false ->
        (snd (fst (simulateInterval (SOC (State b)) requested lmp dt (Params b)))
         == rPowerMW res)%f64)
    /\ (snd (simulateInterval (SOC (State b)) requested lmp dt (Params b))
        == rPNL res)%f64
    /\ between (MinSOC (Params b)) (MaxSOC (Params b))
         (fst (fst (simulateInterval (SOC (State b)) requested lmp dt (Params b))))
    /\ between f0 f1 (SOC (State b')).
Proof.
  intros Hv Hdt.
  destruct (IsNaN requested) eqn:En.
  - destruct requested; try discriminate.
    destruct (valid_inv Hv) as (q & s & -> & V & Hs).
    destruct (positive_finite_inv _ Hdt) as (t & -> & Ht).
    rewrite (ApplyDispatch_idle q s Ht lmp {| PowerMW := NaN |} (or_introl eq_refl)).
    change (SOC (State (battery_of q s))) with (Fin s).
    change (Params (battery_of q s)) with (params_of q).
    rewrite (simulateInterval_NaN t lmp V Hs).
    do 2 eexists. split; [reflexivity|].
    cbn [fst snd rPowerMW rPNL SOC State battery_of params_of MinSOC MaxSOC].
    destruct V.
    split; [discriminate|]. split; [apply same_refl|].
    unfold between. cbn. rewrite !Qle_bool_iff. repeat split; lra.
  - destruct (@simulateInterval_exact b requested lmp dt Hv En Hdt)
      as (res & b' & E & Hsoc & Hp & Hpnl).
    destruct (@ApplyDispatch_valid b lmp {| PowerMW := requested |} dt Hv Hdt)
      as (res2 & b2 & E2 & Hv2 & HP & Hb).
    rewrite E in E2. inversion E2; subst res2 b2; clear E2.
    exists res, b'. split; [exact E|]. split; [intros _; exact Hp|]. split; [exact Hpnl|].
    unfold soc_in_bounds in Hb. apply andb_true_iff in Hb. rewrite HP in Hb.
    assert (Hbt : between (MinSOC (Params b)) (MaxSOC (Params b)) (SOC (State b')))
      by exact Hb.
    split.
    + eapply between_same; eassumption.
    + destruct (valid_inv Hv2) as (q & s & -> & V & Hs). destruct V.
      unfold between. cbn. rewrite !Qle_bool_iff. split; lra.
Qed.

Lemma C1_witness :
  exists res b',
    ApplyDispatch sampleBattery (Fin 10) {| PowerMW := Fin (-50) |} (Fin 1) = (Ok res, b')
    /\ (IsNaN (Fin (-50)) = false ->
        (snd (fst (simulateInterval (SOC (State sampleBattery)) (Fin (-50)) (Fin 10) (Fin 1)
                     (Params sampleBattery)))
         == rPowerMW res)%f64)
    /\ (snd (simulateInterval (SOC (State sampleBattery)) (Fin (-50)) (Fin 10) (Fin 1)
               (Params sampleBattery))
        == rPNL res)%f64
    /\ between (MinSOC (Params sampleBattery)) (MaxSOC (Params sampleBattery))
         (fst (fst (simulateInterval (SOC (State sampleBattery)) (Fin (-50)) (Fin 10) (Fin 1)
                      (Params sampleBattery))))
    /\ between f0 f1 (SOC (State b')).
Proof.
  apply C1_simulateInterval_matches_ApplyDispatch.
  - exact sampleBattery_valid.
  - reflexivity.
Defined.

End BatteryInvariants.

(** ** The battery step in binary64 *)

Section Binary64.
Import PrimFloat.
Local Open Scope float_scope.

(** C1, as stated, fails.  From SOC 0.02 a request of -50 MW for one hour
    takes the 100 MWh battery to SOC 0.47, and [simulateInterval] to
    0.47000000000000003; and for a NaN request [ApplyDispatch] reports the
    realized power 0 while [simulateInterval] returns NaN. *)
Lemma C1_counterexample :
  ieee.Validate (ieeeBattery 100 50 0 1 0.02) = Ok tt
  /\ (exists res b',
        ieee.ApplyDispatch (ieeeBattery 100 50 0 1 0.02) 10 {| ieee.PowerMW := -50 |} 1 = (Ok res, b')
        /\ ieee.SOC (ieee.State b') = 0.47
        /\ fst (fst (ieee.simulateInterval 0.02 (-50) 10 1 (ieeeParams 100 50 0 1)))
           = 0.47000000000000003
        /\ (fst (fst (ieee.simulateInterval 0.02 (-50) 10 1 (ieeeParams 100 50 0 1)))
            =? ieee.SOC (ieee.State b')) = false)
  /\ (exists res b',
        ieee.ApplyDispatch (ieeeBattery 100 50 0 1 0.02) 10 {| ieee.PowerMW := nan |} 1 = (Ok res, b')
        /\ ieee.rPowerMW res = 0
        /\ ieee.IsNaN (snd (fst (ieee.simulateInterval 0.02 nan 10 1 (ieeeParams 100 50 0 1)))) = true).
Proof.
  split; [vm_compute; reflexivity|].
  split; do 2 eexists; (split; [vm_compute; reflexivity|]); repeat split.
Qed.

(** C2.  A valid battery of 1000 MWh and 1000 MW with MaxSOC 0.8 at SOC 0.2,
    asked to charge at full power for one hour, ends at SOC
    0.8000000000000002, above MaxSOC: the headroom (0.8 - 0.2) x 1000
    evaluates to 600.0000000000001 MWh, the grid energy is clipped to
    666.6666666666667 MWh, and the new SOC only passes through [clamp01],
    which clamps to [0, 1].  [Validate] rejects the battery the step leaves
    behind; [simulateInterval], which clamps to [MinSOC, MaxSOC], returns
    0.8 at the same input. *)
Theorem C2_soc_exceeds_MaxSOC :
  ieee.Validate (ieeeBattery 1000 1000 0 0.8 0.2) = Ok tt
  /\ exists res b',
       ieee.ApplyDispatch (ieeeBattery 1000 1000 0 0.8 0.2) 10 {| ieee.PowerMW := -1000 |} 1
       = (Ok res, b')
       /\ ieee.rEnergyFromGridMWh res = 666.6666666666667
       /\ ieee.SOC (ieee.State b') = 0.8000000000000002
       /\ (ieee.MaxSOC (ieee.Params b') <? ieee.SOC (ieee.State b')) = true
       /\ ieee.Validate b' = Err "initial SOC must be within [MinSOC, MaxSOC]"
       /\ fst (fst (ieee.simulateInterval 0.2 (-1000) 10 1 (ieeeParams 1000 1000 0 0.8))) = 0.8.
Proof.
  split; [vm_compute; reflexivity|].
  do 2 eexists. split; [vm_compute; reflexivity|]. repeat split.
Qed.


End Binary64.

(** ** The engine *)

Section EngineTheorems.

Import model strategy backtest.

Section EngineLemmas.

Context {St : Type} `{Strategy St}.

Lemma runLoop_app (l1 l2 : list (Z * LMPInterval)) (st : RunState St) :
  runLoop (l1 ++ l2) st
  = match runLoop l1 st with
    | (Ok _, st') => runLoop l2 st'
    | (r, st') => (r, st')
    end.
Proof.
  revert st. induction l1 as [|ii l1 IH]; intro st; cbn [runLoop app].
  - reflexivity.
  - destruct (runStep st ii) as [[u|e|e] st']; trivial.
Qed.

(** A successful iteration appends one row. *)
Lemma runStep_ok_inv (st st' : RunState St) (ii : Z * LMPInterval) (u : unit) :
  runStep st ii = (Ok u, st') ->
  exists row, ledger st' = ledger st ++ [row]
    /\ CumPNL row = (cum st + PNL row)%f64
    /\ cum st' = CumPNL row.
Proof.
  destruct ii as [idx it]. unfold runStep.
  destruct (Decide (strat st) _) as [[req|e|e] s']; try discriminate.
  cbn [batt strat ledger cum].
  destruct (ApplyDispatch (batt st) (model.LMP it) req (DurationHours it))
    as [[res|e|e] b']; try discriminate.
  cbn [batt strat ledger cum]. intro E. inversion E; subst; clear E.
  eexists. cbn [ledger cum]. split; [reflexivity|]. split; reflexivity.
Qed.

Lemma sums_inv_step (st st' : RunState St) (ii : Z * LMPInterval) (u : unit) :
  sums_inv st -> runStep st ii = (Ok u, st') -> sums_inv st'.
Proof.
  intros [Hc Hl] E. destruct (runStep_ok_inv _ _ E) as (row & El & Er & Ec).
  assert (Hsum : sumf (map PNL (ledger st ++ [row])) = CumPNL row).
  { unfold sumf. rewrite map_app, fold_left_app. cbn [map fold_left].
    fold (sumf (map PNL (ledger st))). now rewrite <- Hc, Er. }
  split.
  - rewrite Ec, El. now symmetry.
  - rewrite El. intros i r Hi.
    destruct (Nat.lt_ge_cases i (List.length (ledger st))) as [Hlt|Hge].
    + rewrite nth_error_app1 in Hi by trivial.
      rewrite firstn_app.
      replace (S i - List.length (ledger st))%nat with 0%nat by lia.
      cbn [firstn]. rewrite app_nil_r. now apply Hl.
    + rewrite nth_error_app2 in Hi by trivial.
      destruct (i - List.length (ledger st))%nat as [|k] eqn:Ek.
      * cbn in Hi. inversion Hi; subst r.
        rewrite firstn_all2 by (rewrite length_app; cbn; lia).
        now symmetry.
      * cbn in Hi. destruct k; discriminate.
Qed.

Lemma runLoop_ok_inv (l : list (Z * LMPInterval)) (st st' : RunState St) (u : unit) :
  sums_inv st -> runLoop l st = (Ok u, st') ->
  sums_inv st' /\ List.length (ledger st') = (List.length (ledger st) + List.length l)%nat.
Proof.
  revert st. induction l as [|ii l IH]; intros st Hinv E; cbn [runLoop] in E.
  - inversion E; subst. split; [trivial | cbn; lia].
  - destruct (runStep st ii) as [[u0|e|e] st1] eqn:E1; try discriminate.
    assert (Hinv1 : sums_inv st1) by (eapply sums_inv_step; eassumption).
    destruct (IH st1 Hinv1 E) as [Hi Hlen].
    split; trivial. rewrite Hlen.
    destruct (runStep_ok_inv _ _ E1) as (row & El & _). rewrite El, length_app. cbn. lia.
Qed.

End EngineLemmas.

Lemma indexed_length {A} (l : list A) : List.length (slice.indexed l) = List.length l.
Proof.
  unfold slice.indexed, slice.range. rewrite length_combine, length_map, length_seq.
  rewrite Nat2Z.id. apply Nat.min_id.
Qed.

(** C9.  In the result of every successful [Run], each ledger row's CumPNL is
    the sum of the PNL fields of the rows up to and including it (added in
    row order), there is one row per interval, and TotalPNL is the CumPNL
    of the last row. *)
Theorem C9_cumulative_pnl
    (St : Type) (SI : Strategy St) (intervals : list LMPInterval)
    (b : option model.Battery) (s : option St) (r : Result) :
  returned (Run intervals b s) = Ok r ->
  ledger_sums (Ledger r)
  /\ List.length (Ledger r) = List.length intervals
  /\ exists lastRow,
       nth_error (Ledger r) (List.length (Ledger r) - 1) = Some lastRow
       /\ TotalPNL r = CumPNL lastRow.
Proof.
  unfold Run. destruct b as [b0|]; [|discriminate].
  destruct s as [s0|]; [|discriminate].
  destruct intervals as [|i0 rest] eqn:Ei; [discriminate|]. rewrite <- Ei.
  destruct (runLoop (slice.indexed intervals) _) as [[u|e|e] st] eqn:E;
    cbn [returned]; try discriminate.
  intro Hr. inversion Hr; subst r; clear Hr. cbn [Ledger TotalPNL].
  assert (Hinv0 : sums_inv {| batt := b0; strat := s0; ledger := []; cum := f0 |}).
  { split; [reflexivity|]. intros i row Hi. destruct i; discriminate. }
  destruct (runLoop_ok_inv _ Hinv0 E) as [[Hc Hl] Hlen].
  cbn [ledger List.length] in Hlen. rewrite indexed_length in Hlen. cbn [plus] in Hlen.
  split; [exact Hl|]. split; [exact Hlen|].
  assert (Hne : (0 < List.length (ledger st))%nat) by (rewrite Hlen, Ei; cbn; lia).
  destruct (nth_error (ledger st) (List.length (ledger st) - 1)) as [row|] eqn:En.
  - exists row. split; trivial.
    rewrite (Hl _ _ En), Hc.
    rewrite firstn_all2 by lia. reflexivity.
  - apply nth_error_None in En. lia.
Qed.

End EngineTheorems.

(** ** Runs of the engine: failures, non-finite requests, the schedule *)

Section EngineRuns.

Import model strategy backtest.

Lemma seq_indexed_app {A} (l1 l2 : list A) (k : nat) :
  combine (map Z.of_nat (seq k (List.length (l1 ++ l2)))) (l1 ++ l2)
  = combine (map Z.of_nat (seq k (List.length l1))) l1
    ++ combine (map Z.of_nat (seq (k + List.length l1) (List.length l2))) l2.
Proof.
  revert k. induction l1 as [|x l1 IH]; intro k; cbn [List.length app seq map combine].
  - now rewrite Nat.add_0_r.
  - rewrite IH. now rewrite Nat.add_succ_r.
Qed.

Lemma indexed_app_cons {A} (pre post : list A) (x : A) :
  exists rest,
    slice.indexed (pre ++ x :: post)
    = slice.indexed pre ++ (Z.of_nat (List.length pre), x) :: rest.
Proof.
  unfold slice.indexed, slice.range. rewrite !Nat2Z.id.
  rewrite seq_indexed_app. cbn [List.length seq map combine plus].
  eexists. reflexivity.
Qed.

Lemma ApplyDispatch_nonpositive (b : model.Battery) (lmp : float64) (d : Dispatch) (dt : float64) :
  (dt <=? f0)%f64 = true ->
  ApplyDispatch b lmp d dt = (Err "durationHours must be > 0", b).
Proof. intro H. unfold ApplyDispatch. now rewrite H. Qed.

(** C10.  [ApplyDispatch] called with a duration that is not positive returns
    an error and leaves the battery as it was; in a run, when the intervals
    before it went through, an interval of non-positive duration makes [Run]
    return an error with the battery in the state the earlier intervals left
    it in. *)
Theorem C10_nonpositive_duration_fails
    (St : Type) (SI : Strategy St)
    (b : model.Battery) (lmp : float64) (d : Dispatch) (dt : float64)
    (pre post : list LMPInterval) (it : LMPInterval)
    (b0 : model.Battery) (s0 : St) (st1 : RunState St) :
  (dt <=? f0)%f64 = true ->
  runLoop (slice.indexed pre) {| batt := b0; strat := s0; ledger := []; cum := f0 |}
    = (Ok tt, st1) ->
  (DurationHours it <=? f0)%f64 = true ->
  is_ok (fst (Decide (strat st1)
                {| strategy.Index := Z.of_nat (List.length pre); Interval := it;
                   Battery := batt st1 |})) = true ->
  (exists msg, ApplyDispatch b lmp d dt = (Err msg, b))
  /\ (exists msg, returned (Run (pre ++ it :: post) (Some b0) (Some s0)) = Err msg)
  /\ battAfter (Run (pre ++ it :: post) (Some b0) (Some s0)) = Some (batt st1).
Proof.
  intros Hdt Hpre Hit Hdec. split.
  { eexists. now apply ApplyDispatch_nonpositive. }
  unfold Run.
  destruct (pre ++ it :: post) as [|i0 l0] eqn:El.
  { destruct pre; discriminate. }
  rewrite <- El. clear El i0 l0.
  destruct (indexed_app_cons pre post it) as (rest & ->).
  rewrite runLoop_app, Hpre. cbn [runLoop]. unfold runStep.
  destruct (Decide (strat st1) _) as [[req|e|e] s'] eqn:Ed; try discriminate.
  cbn [batt strat ledger cum].
  rewrite ApplyDispatch_nonpositive by exact Hit.
  cbn [returned battAfter batt]. split; [eexists|]; reflexivity.
Qed.

Lemma C9_witness :
  ledger_sums (Ledger sampleResult)
  /\ List.length (Ledger sampleResult) = List.length sampleDay
  /\ exists lastRow,
       nth_error (Ledger sampleResult) (List.length (Ledger sampleResult) - 1) = Some lastRow
       /\ TotalPNL sampleResult = CumPNL lastRow.
Proof.
  apply (@C9_cumulative_pnl _ _ sampleDay (Some sampleBattery) (Some sampleSchedule)).
  vm_compute. reflexivity.
Defined.

Lemma C10_witness :
  (exists msg, ApplyDispatch sampleBattery (Fin 10) {| model.PowerMW := Fin 5 |} (Fin 0)
               = (Err msg, sampleBattery))
  /\ (exists msg,
        returned (Run ([sampleInterval 1704103200 3600 0 (Fin 10)] ++ emptyInterval :: sampleDay)
                      (Some sampleBattery) (Some sampleSchedule)) = Err msg)
  /\ battAfter (Run ([sampleInterval 1704103200 3600 0 (Fin 10)] ++ emptyInterval :: sampleDay)
                    (Some sampleBattery) (Some sampleSchedule))
     = Some (batt afterFirst).
Proof.
  apply C10_nonpositive_duration_fails.
  - reflexivity.
  - vm_compute. reflexivity.
  - reflexivity.
  - vm_compute. reflexivity.
Defined.

(** C4, as stated, fails: the schedule strategy with a NaN charge power
    returns NaN from [Decide] for the first interval, and [Run] returns a
    result. *)
Lemma C4_counterexample :
  exists d s' r,
    Decide nanSchedule firstContext = (Ok d, s')
    /\ is_finite (model.PowerMW d) = false
    /\ returned (Run sampleDay (Some sampleBattery) (Some nanSchedule)) = Ok r.
Proof.
  do 3 eexists. split; [|split].
  - vm_compute. reflexivity.
  - reflexivity.
  - vm_compute. reflexivity.
Qed.

Section RunTotal.

Context {St : Type} `{Strategy St}.

Variable Inv : St -> Prop.
Hypothesis Inv_Decide : forall s ctx,
  Inv s -> is_ok (fst (Decide s ctx)) = true /\ Inv (snd (Decide s ctx)).

Lemma runStep_total (st : RunState St) (idx : Z) (it : LMPInterval) :
  valid (batt st) -> Inv (strat st) ->
  positive_finite (DurationHours it) = true ->
  exists st' row,
    runStep st (idx, it) = (Ok tt, st')
    /\ valid (batt st') /\ Inv (strat st')
    /\ ledger st' = ledger st ++ [row]
    /\ row_absorbs_nonfinite row.
Proof.
  intros Hv Hi Hdt. unfold runStep.
  destruct (Inv_Decide {| strategy.Index := idx; Interval := it; Battery := batt st |} Hi)
    as [Hok Hi'].
  destruct (Decide (strat st) _) as [[req|e|e] s']; try discriminate.
  cbn [batt strat ledger cum snd] in *.
  destruct (valid_inv Hv) as (q & s & Eb & V & Hs).
  destruct (positive_finite_inv _ Hdt) as (t & Et & Ht).
  rewrite Eb, Et.
  destruct (IsNaN (model.PowerMW req)) eqn:En.
  - assert (Hc : model.PowerMW (ClipDispatch (battery_of q s) req) = NaN).
    { destruct req as [[| | |]]; try discriminate. reflexivity. }
    rewrite (ApplyDispatch_idle q s Ht (model.LMP it) req (or_introl Hc)).
    do 2 eexists. split; [reflexivity|]. cbn [batt strat ledger].
    split; [now apply valid_battery_of|]. split; [exact Hi'|].
    split; [reflexivity|].
    split; cbn; [reflexivity|]. intros _. repeat split.
  - destruct (ApplyDispatch_spec (model.LMP it) req V Hs Ht)
      as (pr & ef & et & th & s2 & pnl & -> & Hs2 & _).
    do 2 eexists. split; [reflexivity|]. cbn [batt strat ledger].
    split; [now apply valid_battery_of|]. split; [exact Hi'|].
    split; [reflexivity|].
    split; cbn; [reflexivity|]. rewrite En. discriminate.
Qed.

Lemma runLoop_total (l : list (Z * LMPInterval)) (st : RunState St) :
  valid (batt st) -> Inv (strat st) ->
  Forall (fun ii => positive_finite (DurationHours (snd ii)) = true) l ->
  exists st' rows,
    runLoop l st = (Ok tt, st')
    /\ valid (batt st')
    /\ ledger st' = ledger st ++ rows
    /\ List.length rows = List.length l
    /\ Forall row_absorbs_nonfinite rows.
Proof.
  intros Hv Hi Hl. revert st Hv Hi.
  induction Hl as [|[idx it] l Hdt _ IH]; intros st Hv Hi; cbn [runLoop].
  - exists st, []. rewrite app_nil_r.
    split; [reflexivity|]. split; [exact Hv|]. split; [reflexivity|].
    split; [reflexivity | constructor].
  - cbn [snd] in Hdt.
    destruct (@runStep_total st idx it Hv Hi Hdt) as (st1 & row & -> & Hv1 & Hi1 & El & Hrow).
    destruct (IH st1 Hv1 Hi1) as (st' & rows & -> & Hv' & El' & Hlen & Hrows).
    exists st', (row :: rows). split; [reflexivity|]. split; [trivial|].
    split; [|split].
    + rewrite El', El, <- app_assoc. reflexivity.
    + cbn. now rewrite Hlen.
    + now constructor.
Qed.

End RunTotal.

(** C4 (amended).  A power that is not a finite number does not make the
    engine fail: with a valid battery, a non-empty series of intervals of
    positive duration and a strategy that does not panic, [Run] returns a
    result with one row per interval; every realized power is finite, and
    an interval whose requested power is NaN is an idle interval. *)
Theorem C4_nonfinite_power_is_absorbed
    (St : Type) (SI : Strategy St) (Inv : St -> Prop)
    (intervals : list LMPInterval) (b : model.Battery) (s0 : St) :
  valid b ->
  intervals <> [] ->
  Forall (fun it => positive_finite (DurationHours it) = true) intervals ->
  Inv s0 ->
  (forall s ctx, Inv s -> is_ok (fst (Decide s ctx)) = true /\ Inv (snd (Decide s ctx))) ->
  exists r,
    returned (Run intervals (Some b) (Some s0)) = Ok r
    /\ List.length (Ledger r) = List.length intervals
    /\ Forall row_absorbs_nonfinite (Ledger r).
Proof.
  intros Hv Hne Hdt Hi Hdec. unfold Run.
  destruct intervals as [|i0 rest] eqn:Ei; [contradiction|]. rewrite <- Ei in *.
  assert (Hl : Forall (fun ii : Z * LMPInterval =>
                         positive_finite (DurationHours (snd ii)) = true)
                      (slice.indexed intervals)).
  { apply Forall_forall. intros [i it] Hin. cbn [snd].
    unfold slice.indexed in Hin. apply in_combine_r in Hin.
    rewrite Forall_forall in Hdt. now apply Hdt. }
  destruct (@runLoop_total St SI Inv Hdec (slice.indexed intervals)
              {| batt := b; strat := s0; ledger := []; cum := f0 |} Hv Hi Hl)
    as (st' & rows & -> & _ & El & Hlen & Hrows).
  cbn [returned]. eexists. split; [reflexivity|]. cbn [Ledger ledger app] in *.
  rewrite El. split; [|exact Hrows].
  rewrite Hlen. apply indexed_length.
Qed.

Lemma scheduleInitialized_Decide (s : ScheduleStrategy) (ctx : Context) :
  initialized s = true ->
  is_ok (fst (Decide s ctx)) = true /\ initialized (snd (Decide s ctx)) = true.
Proof.
  intro Hi. cbn [Decide ScheduleStrategy_Strategy]. unfold ScheduleDecide, initialize.
  rewrite Hi.
  destruct (inWindow _ (csMins s) (ceMins s)); [split; trivial|].
  destruct (inWindow _ (dsMins s) (deMins s)); split; trivial.
Qed.

Lemma initialize_inv (s s1 : ScheduleStrategy) :
  initialize s = Ok s1 -> initialized s1 = true /\ sParams s1 = sParams s.
Proof.
  unfold initialize. destruct (initialized s) eqn:Ei.
  - intro E. inversion E; subst. split; trivial.
  - destruct (must (parseHHMM (ChargeStart (sParams s)))) as [cs|e|e]; try discriminate.
    cbn [bind].
    destruct (must (parseHHMM (DischargeStart (sParams s)))) as [ds|e|e]; try discriminate.
    cbn [bind].
    destruct (if negb (isEmptyString (TrimSpace (ChargeEnd (sParams s))))
              then must (parseHHMM (ChargeEnd (sParams s))) else Ok ds) as [ce|e|e];
      try discriminate.
    cbn [bind].
    destruct (if negb (isEmptyString (TrimSpace (DischargeEnd (sParams s))))
              then must (parseHHMM (DischargeEnd (sParams s))) else Ok ds) as [de|e|e];
      try discriminate.
    cbn [bind]. intro E. inversion E; subst. split; reflexivity.
Qed.

Lemma initialize_idem (s : ScheduleStrategy) :
  initialized s = true -> initialize s = Ok s.
Proof. intro H. unfold initialize. now rewrite H. Qed.

Local Open Scope Z_scope.

Lemma ScheduleDecide_initialized (s s1 : ScheduleStrategy) (ctx : Context) :
  initialize s = Ok s1 ->
  ScheduleDecide s ctx
  = (Ok {| model.PowerMW :=
             if inWindow (minuteOfDay ctx) (csMins s1) (ceMins s1)
             then (- Abs (ChargePowerMW (sParams s)))%f64
             else if inWindow (minuteOfDay ctx) (dsMins s1) (deMins s1)
             then Abs (DischargePowerMW (sParams s))
             else f0 |}, s1).
Proof.
  intro E. destruct (initialize_inv _ E) as [_ Ep].
  unfold ScheduleDecide. rewrite E. fold (minuteOfDay ctx). rewrite Ep.
  destruct (inWindow _ (csMins s1) (ceMins s1)); trivial.
  destruct (inWindow _ (dsMins s1) (deMins s1)); trivial.
Qed.

Lemma schedule_Decide_ok (s : ScheduleStrategy) (ctx : Context) :
  is_ok (initialize s) = true ->
  is_ok (fst (Decide s ctx)) = true /\ is_ok (initialize (snd (Decide s ctx))) = true.
Proof.
  intro H. destruct (initialize s) as [s1|e|e] eqn:E; try discriminate.
  cbn [Decide ScheduleStrategy_Strategy].
  rewrite (@ScheduleDecide_initialized s s1 ctx E). cbn [fst snd is_ok].
  split; trivial. destruct (initialize_inv _ E) as [Hi _].
  now rewrite (initialize_idem _ Hi).
Qed.

Lemma C4_witness :
  exists r,
    returned (Run sampleDay (Some sampleBattery) (Some nanSchedule)) = Ok r
    /\ List.length (Ledger r) = List.length sampleDay
    /\ Forall row_absorbs_nonfinite (Ledger r).
Proof.
  apply (@C4_nonfinite_power_is_absorbed ScheduleStrategy _
           (fun s => is_ok (initialize s) = true)).
  - exact sampleBattery_valid.
  - discriminate.
  - repeat constructor.
  - reflexivity.
  - intros s ctx. apply schedule_Decide_ok.
Defined.

Lemma parseHHMM_clock (h m : nat) :
  (h < 24)%nat -> (m < 60)%nat -> parseHHMM (clock h m) = Ok (Z.of_nat (h * 60 + m)).
Proof.
  intros Hh Hm.
  assert (A : forallb (fun h => forallb (clockParses h) (seq 0 60)) (seq 0 24) = true)
    by (vm_compute; reflexivity).
  rewrite forallb_forall in A. specialize (A h). rewrite forallb_forall in A.
  assert (B : clockParses h m = true).
  { apply A; apply in_seq; lia. }
  unfold clockParses in B. destruct (parseHHMM (clock h m)); try discriminate.
  apply Z.eqb_eq in B. now subst.
Qed.

Lemma initialize_fresh (s : ScheduleStrategy) (cs ce ds de : Z) :
  initialized s = false ->
  parseHHMM (ChargeStart (sParams s)) = Ok cs ->
  parseHHMM (DischargeStart (sParams s)) = Ok ds ->
  parseOr ds (ChargeEnd (sParams s)) = Ok ce ->
  parseOr ds (DischargeEnd (sParams s)) = Ok de ->
  initialize s = Ok (parsedSchedule (sParams s) cs ce ds de).
Proof.
  intros Hi Hcs Hds Hce Hde. unfold initialize, parseOr in *.
  rewrite Hi, Hcs, Hds. cbn [must bind].
  destruct (isEmptyString (TrimSpace (ChargeEnd (sParams s)))); cbn [negb];
    [inversion Hce; subst ce | rewrite Hce]; cbn [must bind];
    (destruct (isEmptyString (TrimSpace (DischargeEnd (sParams s)))); cbn [negb];
     [inversion Hde; subst de | rewrite Hde]; reflexivity).
Qed.

(** C7.  The window test of the schedule strategy is false on an empty window
    (start = end), is start <= t < end on a same-day window and is
    t >= start or t < end on a window that wraps across midnight.  The
    windows of [Decide] are the clock strings of the parameters, read as
    minutes of the day (HH:MM is 60 HH + MM), a blank end standing for the
    start of the discharge window; on its first call and on every later one
    [Decide] requests minus the magnitude of the charge power inside the
    charge window (tested first), the magnitude of the discharge power
    inside the discharge window only, and zero otherwise. *)
Theorem C7_schedule_window_decision
    (t start end_ : Z) (p : ScheduleParams) (cs ce ds de : Z) (ctx : Context) :
  parseHHMM (ChargeStart p) = Ok cs ->
  parseHHMM (DischargeStart p) = Ok ds ->
  parseOr ds (ChargeEnd p) = Ok ce ->
  parseOr ds (DischargeEnd p) = Ok de ->
  (start = end_ -> inWindow t start end_ = false)
  /\ (start < end_ -> (inWindow t start end_ = true <-> start <= t < end_))
  /\ (start > end_ -> (inWindow t start end_ = true <-> t >= start \/ t < end_))
  /\ (0 <= minuteOfDay ctx < 1440)
  /\ (forall h m : nat, (h < 24)%nat -> (m < 60)%nat ->
        parseHHMM (clock h m) = Ok (Z.of_nat (h * 60 + m)))
  /\ forall s : ScheduleStrategy,
       s = NewSchedule p \/ s = parsedSchedule p cs ce ds de ->
       (inWindow (minuteOfDay ctx) cs ce = true ->
        Decide s ctx
        = (Ok {| model.PowerMW := (- Abs (ChargePowerMW p))%f64 |},
           parsedSchedule p cs ce ds de))
       /\ (inWindow (minuteOfDay ctx) cs ce = false ->
           inWindow (minuteOfDay ctx) ds de = true ->
           Decide s ctx
           = (Ok {| model.PowerMW := Abs (DischargePowerMW p) |},
              parsedSchedule p cs ce ds de))
       /\ (inWindow (minuteOfDay ctx) cs ce = false ->
           inWindow (minuteOfDay ctx) ds de = false ->
           Decide s ctx = (Ok {| model.PowerMW := f0 |}, parsedSchedule p cs ce ds de)).
Proof.
  intros Hcs Hds Hce Hde.
  split; [|split; [|split; [|split; [|split]]]].
  - intros ->. unfold inWindow. now rewrite Z.eqb_refl.
  - intro H. unfold inWindow.
    rewrite (proj2 (Z.eqb_neq _ _)) by lia. rewrite (proj2 (Z.ltb_lt _ _)) by lia.
    rewrite andb_true_iff, Z.geb_le, Z.ltb_lt. tauto.
  - intro H. unfold inWindow.
    rewrite (proj2 (Z.eqb_neq _ _)) by lia. rewrite (proj2 (Z.ltb_ge _ _)) by lia.
    rewrite orb_true_iff, Z.geb_le, Z.ltb_lt. lia.
  - unfold minuteOfDay, Hour, Minute.
    set (l := localSec (model.IntervalStartLocal (Interval ctx))).
    assert (H1 : 0 <= l mod 86400 < 86400) by (apply Z.mod_pos_bound; lia).
    assert (H2 : 0 <= l mod 3600 < 3600) by (apply Z.mod_pos_bound; lia).
    assert (0 <= l mod 86400 / 3600 <= 23).
    { split; [apply Z.div_pos; lia|]. apply Z.lt_succ_r. apply Z.div_lt_upper_bound; lia. }
    assert (0 <= l mod 3600 / 60 <= 59).
    { split; [apply Z.div_pos; lia|]. apply Z.lt_succ_r. apply Z.div_lt_upper_bound; lia. }
    lia.
  - exact parseHHMM_clock.
  - intros s Hs.
    assert (E : initialize s = Ok (parsedSchedule p cs ce ds de)).
    { destruct Hs as [-> | ->].
      - now apply (@initialize_fresh (NewSchedule p)).
      - reflexivity. }
    assert (Ep : sParams s = p) by (destruct Hs as [-> | ->]; reflexivity).
    cbn [Decide ScheduleStrategy_Strategy].
    rewrite (@ScheduleDecide_initialized s _ ctx E).
    cbn [csMins ceMins dsMins deMins parsedSchedule]. rewrite Ep.
    split; [|split].
    + now intros ->.
    + now intros -> ->.
    + now intros -> ->.
Qed.

Lemma C7_witness :
  (1320 = 120 -> inWindow 1350 1320 120 = false)
  /\ (1320 < 120 -> (inWindow 1350 1320 120 = true <-> 1320 <= 1350 < 120))
  /\ (1320 > 120 -> (inWindow 1350 1320 120 = true <-> 1350 >= 1320 \/ 1350 < 120))
  /\ (0 <= minuteOfDay firstContext < 1440)
  /\ (forall h m : nat, (h < 24)%nat -> (m < 60)%nat ->
        parseHHMM (clock h m) = Ok (Z.of_nat (h * 60 + m)))
  /\ forall s : ScheduleStrategy,
       s = NewSchedule (sParams sampleSchedule)
       \/ s = parsedSchedule (sParams sampleSchedule) 600 660 660 720 ->
       (inWindow (minuteOfDay firstContext) 600 660 = true ->
        Decide s firstContext
        = (Ok {| model.PowerMW := (- Abs (ChargePowerMW (sParams sampleSchedule)))%f64 |},
           parsedSchedule (sParams sampleSchedule) 600 660 660 720))
       /\ (inWindow (minuteOfDay firstContext) 600 660 = false ->
           inWindow (minuteOfDay firstContext) 660 720 = true ->
           Decide s firstContext
           = (Ok {| model.PowerMW := Abs (DischargePowerMW (sParams sampleSchedule)) |},
              parsedSchedule (sParams sampleSchedule) 600 660 660 720))
       /\ (inWindow (minuteOfDay firstContext) 600 660 = false ->
           inWindow (minuteOfDay firstContext) 660 720 = false ->
           Decide s firstContext
           = (Ok {| model.PowerMW := f0 |},
              parsedSchedule (sParams sampleSchedule) 600 660 660 720)).
Proof.
  apply (@C7_schedule_window_decision 1350 1320 120 (sParams sampleSchedule)
           600 660 660 720 firstContext); reflexivity.
Defined.

End EngineRuns.

(** ** The oracle: the plan exists and has one dispatch per interval *)

Section OraclePlan.

Import model strategy.

Section SliceLemmas.

Context {A : Type}.

Lemma get_ok (l : list A) (i : Z) :
  (0 <= i < Z.of_nat (List.length l))%Z ->
  exists x, slice.get l i = Ok x /\ In x l.
Proof.
  intro Hi. unfold slice.get.
  rewrite (proj2 (Z.ltb_ge i 0)) by lia.
  destruct (nth_error l (Z.to_nat i)) as [x|] eqn:E.
  - exists x. split; trivial. eapply nth_error_In; eassumption.
  - apply nth_error_None in E. lia.
Qed.

Lemma length_upd (l : list A) (n : nat) (x : A) :
  List.length (slice.upd l n x) = List.length l.
Proof.
  revert n. induction l as [|h t IH]; intros [|n]; cbn; trivial. now rewrite IH.
Qed.

Lemma Forall_upd (P : A -> Prop) (l : list A) (n : nat) (x : A) :
  Forall P l -> P x -> Forall P (slice.upd l n x).
Proof.
  intros Hl Hx. revert n. induction Hl as [|h t Hh Ht IH]; intros [|n]; cbn;
    constructor; trivial.
Qed.

Lemma set_ok (l : list A) (i : Z) (x : A) :
  (0 <= i < Z.of_nat (List.length l))%Z ->
  slice.set l i x = Ok (slice.upd l (Z.to_nat i) x).
Proof.
  intro Hi. unfold slice.set.
  rewrite (proj2 (Z.ltb_ge i 0)) by lia.
  rewrite (proj2 (Z.leb_gt _ _)) by lia. reflexivity.
Qed.

Lemma make_ok (x : A) (n : Z) :
  (0 <= n)%Z -> slice.make x n = Ok (repeat x (Z.to_nat n)).
Proof.
  intro Hn. unfold slice.make. now rewrite (proj2 (Z.ltb_ge n 0)) by lia.
Qed.

Lemma indexed_spec (l : list A) (i : Z) (x : A) :
  In (i, x) (slice.indexed l) -> (0 <= i < Z.of_nat (List.length l))%Z /\ In x l.
Proof.
  intro H. unfold slice.indexed in H. split.
  - apply in_combine_l in H. unfold slice.range in H.
    apply in_map_iff in H. destruct H as (k & <- & Hk).
    apply in_seq in Hk. rewrite Nat2Z.id in Hk. lia.
  - eapply in_combine_r; eassumption.
Qed.

End SliceLemmas.

Lemma range_spec (n i : Z) : In i (slice.range n) -> (0 <= i < n)%Z.
Proof.
  unfold slice.range. intro H. apply in_map_iff in H. destruct H as (k & <- & Hk).
  apply in_seq in Hk. lia.
Qed.

Lemma range_length (n : Z) : List.length (slice.range n) = Z.to_nat n.
Proof. unfold slice.range. now rewrite length_map, length_seq. Qed.

(** A loop whose body keeps an invariant and never fails, does not fail. *)
Lemma foldM_inv {A B} (P : A -> Prop) (f : A -> B -> result A) (l : list B) (a : A) :
  P a ->
  (forall a x, P a -> In x l -> exists a', f a x = Ok a' /\ P a') ->
  exists a', slice.foldM f l a = Ok a' /\ P a'.
Proof.
  revert a. induction l as [|x l IH]; intros a Ha Hf; cbn [slice.foldM].
  - eauto.
  - destruct (Hf a x Ha (or_introl eq_refl)) as (a1 & -> & Ha1). cbn [bind].
    apply IH; trivial. intros a2 y Ha2 Hy. apply Hf; trivial. now right.
Qed.

(** *** The SOC grid *)

Lemma to_int_inject (z : Z) :
  (- 2 ^ 63 <= z < 2 ^ 63)%Z -> to_int (Fin (inject_Z z)) = z.
Proof.
  intro Hz. unfold to_int, Qtrunc.
  assert (E : (if Qle_bool 0 (inject_Z z) then Qfloor (inject_Z z)
               else Qceiling (inject_Z z)) = z).
  { destruct (Qle_bool 0 (inject_Z z)); [apply Qfloor_Z | apply Qceiling_Z]. }
  rewrite E. unfold min_int.
  rewrite (proj2 (Z.leb_le _ _)) by lia. rewrite (proj2 (Z.ltb_lt _ _)) by lia.
  reflexivity.
Qed.

Lemma Qround_half_away_range (a : Q) (n : Z) :
  0 <= a -> a <= inject_Z n -> (0 <= Qround_half_away a <= n)%Z.
Proof.
  intros H0 Hn. unfold Qround_half_away.
  rewrite (proj2 (Qle_bool_iff 0 a)) by trivial.
  split.
  - change 0%Z with (Qfloor 0). apply Qfloor_resp_le. lra.
  - apply Z.lt_succ_r. rewrite Zlt_Qlt.
    apply Qle_lt_trans with (a + (1 # 2)); [apply Qfloor_le|].
    unfold Z.succ. rewrite inject_Z_plus. change (inject_Z 1) with 1. lra.
Qed.

Section Grid.

Variable q : QParams.
Variable n : Z.
Hypothesis V : QValid q.
Hypothesis Hn : (2 <= n < 2 ^ 63)%Z.

Lemma socToIdx_range (x : Q) :
  (0 <= socToIdx (params_of q) n (Fin x) <= n)%Z.
Proof.
  unfold socToIdx, ge. fcbn.
  destruct (Qle_bool x (qMin q)) eqn:E1;
    [lia | apply Qle_bool_false in E1].
  destruct (Qle_bool (qMax q) x) eqn:E2;
    [lia | apply Qle_bool_false in E2].
  rewrite div_Fin by lra. fcbn.
  set (f := (x + - qMin q) / (qMax q + - qMin q)).
  assert (Hf : 0 <= f <= 1) by (apply Qdiv_bounds; lra).
  assert (Hn0 : 0 <= inject_Z n).
  { change 0 with (inject_Z 0). rewrite <- Zle_Qle. lia. }
  assert (Ha : 0 <= f * inject_Z n) by (apply Qmult_le_0_compat; lra).
  assert (Hb : f * inject_Z n <= inject_Z n).
  { setoid_replace (inject_Z n) with (1 * inject_Z n) at 2 by ring.
    apply Qmult_le_compat_r; lra. }
  pose proof (Qround_half_away_range Ha Hb) as Hr.
  rewrite to_int_inject by lia. exact Hr.
Qed.

Lemma idxToSoc_range (i : Z) :
  exists s, idxToSoc (params_of q) n i = Fin s /\ qMin q <= s <= qMax q.
Proof.
  destruct V. unfold idxToSoc. fcbn.
  destruct (i <=? 0)%Z eqn:E1; [eexists; split; [reflexivity | lra]|].
  destruct (i >=? n)%Z eqn:E2; [eexists; split; [reflexivity | lra]|].
  apply Z.leb_gt in E1. rewrite Z.geb_leb in E2. apply Z.leb_gt in E2.
  assert (Hn0 : 0 < inject_Z n).
  { change 0 with (inject_Z 0). rewrite <- Zlt_Qlt. lia. }
  unfold of_int. rewrite div_Fin by lra. fcbn.
  set (f := inject_Z i / inject_Z n).
  assert (Hf : 0 <= f <= 1).
  { apply Qdiv_bounds; trivial.
    - rewrite Qmult_0_l. change 0 with (inject_Z 0). rewrite <- Zle_Qle. lia.
    - rewrite Qmult_1_l. rewrite <- Zle_Qle. lia. }
  assert (Ha : 0 <= f * (qMax q + - qMin q)) by (apply Qmult_le_0_compat; lra).
  assert (Hb : f * (qMax q + - qMin q) <= 1 * (qMax q + - qMin q))
    by (apply Qmult_le_compat_r; lra).
  eexists. split; [reflexivity|]. lra.
Qed.

End Grid.

Lemma actionSet_finite (q : QParams) (ps : Z) :
  (1 <= ps)%Z ->
  Forall (fun a => is_finite a = true) (actionSet (params_of q) ps).
Proof.
  intro Hps. unfold actionSet. apply Forall_forall. intros a Ha.
  apply in_map_iff in Ha. destruct Ha as (k & <- & _).
  fcbn. unfold of_int. rewrite div_Fin.
  - reflexivity.
  - change 0 with (inject_Z 0). rewrite inject_Z_injective. lia.
Qed.

(** *** The loops of optimizeDP *)

Lemma simulateInterval_finite (q : QParams) (s t x : Q) (lmp : float64) :
  QValid q -> qMin q <= s <= qMax q -> 0 < t ->
  exists s' pr pnl,
    simulateInterval (Fin s) (Fin x) lmp (Fin t) (params_of q) = (Fin s', Fin pr, pnl).
Proof.
  intros V Hs Ht.
  destruct (clip_cases s (Fin x) V) as [[E _]|(p & Hc & _)]; [discriminate|].
  destruct (Q_dec p 0) as [[Hn|Hp]|Hz].
  - destruct (simulateInterval_charge V Hs Ht lmp _ Hc Hn) as (r & pr & s' & -> & _).
    eauto.
  - destruct (simulateInterval_discharge V Hs Ht lmp _ Hc Hp) as (r & pr & s' & -> & _).
    eauto.
  - rewrite (simulateInterval_idle q t Hs lmp (Fin x) Hc Hz). eauto.
Qed.

Section DPLoops.

Variable q : QParams.
Variable n : Z.
Hypothesis V : QValid q.
Hypothesis Hn : (2 <= n < 2 ^ 63)%Z.

(** Number of SOC states and of intervals. *)
Let N : nat := Z.to_nat (n + 1).
Variable T : nat.

Lemma actionStep_ok (lmp dpS : float64) (s t : Q) (acc : ActionAcc) (a : float64) :
  qMin q <= s <= qMax q -> 0 < t -> accOK n acc -> is_finite a = true ->
  exists acc', actionStep (params_of q) n lmp (Fin t) dpS (Fin s) acc a = Ok acc'
               /\ accOK n acc'.
Proof.
  intros Hs Ht [Hlen Hb] Ha. destruct a as [x| | |]; try discriminate.
  destruct (simulateInterval_finite x lmp V Hs Ht) as (s' & pr & pnl & E).
  unfold actionStep. rewrite E.
  pose proof (@socToIdx_range q n Hn s') as Hr.
  set (ns := socToIdx (params_of q) n (Fin s')) in *.
  assert (Hin : (0 <= ns < Z.of_nat (List.length (a_next acc)))%Z)
    by (rewrite Hlen; unfold N; lia).
  destruct (get_ok _ Hin) as (cur & -> & _). cbn [bind].
  destruct ((dpS + pnl >? cur)%f64).
  - rewrite (set_ok _ _ Hin). cbn [bind].
    destruct ((dpS + pnl >? bestValue acc)%f64); eexists; (split; [reflexivity|]);
      split; cbn [a_next bestNextState]; try rewrite length_upd; trivial.
  - cbn [bind].
    destruct ((dpS + pnl >? bestValue acc)%f64); eexists; (split; [reflexivity|]);
      split; cbn [a_next bestNextState]; trivial.
Qed.

Lemma set2_ok {A} (P : A -> Prop) (m : list (list A)) (t s : Z) (x : A) :
  rowsOK n T m -> Forall (Forall P) m -> P x ->
  (0 <= t < Z.of_nat T)%Z -> (0 <= s <= n)%Z ->
  exists m', set2 m t s x = Ok m' /\ rowsOK n T m' /\ Forall (Forall P) m'.
Proof.
  intros [Hlen Hrows] HP Hx Ht Hs. unfold set2.
  assert (Hin : (0 <= t < Z.of_nat (List.length m))%Z) by lia.
  destruct (get_ok _ Hin) as (row & -> & Hrow). cbn [bind].
  rewrite Forall_forall in Hrows, HP.
  assert (Hs' : (0 <= s < Z.of_nat (List.length row))%Z)
    by (rewrite (Hrows _ Hrow); unfold N; lia).
  rewrite (set_ok _ _ Hs'). cbn [bind]. rewrite (set_ok _ _ Hin).
  eexists. split; [reflexivity|]. split; [split|].
  - now rewrite length_upd.
  - apply Forall_upd; [now apply Forall_forall|].
    rewrite length_upd. now apply Hrows.
  - apply Forall_upd; [now apply Forall_forall|].
    apply Forall_upd; trivial. now apply HP.
Qed.

Lemma get2_ok {A} (P : A -> Prop) (m : list (list A)) (t s : Z) :
  rowsOK n T m -> Forall (Forall P) m ->
  (0 <= t < Z.of_nat T)%Z -> (0 <= s <= n)%Z ->
  exists x, get2 m t s = Ok x /\ P x.
Proof.
  intros [Hlen Hrows] HP Ht Hs. unfold get2.
  assert (Hin : (0 <= t < Z.of_nat (List.length m))%Z) by lia.
  destruct (get_ok _ Hin) as (row & -> & Hrow). cbn [bind].
  rewrite Forall_forall in Hrows, HP.
  assert (Hs' : (0 <= s < Z.of_nat (List.length row))%Z)
    by (rewrite (Hrows _ Hrow); unfold N; lia).
  destruct (get_ok _ Hs') as (x & -> & Hx). exists x. split; trivial.
  pose proof (HP _ Hrow) as Hr. rewrite Forall_forall in Hr. now apply Hr.
Qed.

Variable ps : Z.
Hypothesis Hps : (1 <= ps)%Z.

Lemma stateStep_ok (t : Z) (lmp : float64) (dt : Q) (tb : Tables) (sIdx : Z) :
  0 < dt -> (0 <= t < Z.of_nat T)%Z -> (0 <= sIdx <= n)%Z -> tablesOK n T tb ->
  exists tb', stateStep (params_of q) n (actionSet (params_of q) ps) t lmp (Fin dt) tb sIdx
              = Ok tb'
    /\ tablesOK n T tb'.
Proof.
  intros Hdt Ht Hs (Hdp & Hnx & Hch & Hpw & Hrange). unfold stateStep.
  assert (Hin : (0 <= sIdx < Z.of_nat (List.length (dp tb)))%Z)
    by (rewrite Hdp; unfold N; lia).
  destruct (get_ok _ Hin) as (dpS & -> & _). cbn [bind].
  destruct ((dpS <=? negInf / f2)%f64).
  { eexists. split; [reflexivity|]. repeat split; trivial; apply Hch || apply Hpw. }
  destruct (@idxToSoc_range q n V Hn sIdx) as (s & -> & Hsr).
  destruct (@foldM_inv _ _ (accOK n)
              (actionStep (params_of q) n lmp (Fin dt) dpS (Fin s))
              (actionSet (params_of q) ps)
              {| a_next := next tb; bestValue := dpS; bestNextState := sIdx;
                 bestPower := f0 |}) as (acc & -> & Hlen & Hb).
  { split; cbn; trivial. }
  { intros a x Ha Hx. apply actionStep_ok; trivial.
    pose proof (actionSet_finite q Hps) as Hfin. rewrite Forall_forall in Hfin.
    now apply Hfin. }
  cbn [bind].
  destruct (@set2_ok _ (fun z => (-1 <= z <= n)%Z) (choice tb) t sIdx (bestNextState acc))
    as (ch' & -> & Hch' & Hrange'); trivial; try lia.
  cbn [bind].
  destruct (@set2_ok _ (fun _ => True) (powerChosen tb) t sIdx (bestPower acc))
    as (pw' & -> & Hpw' & _); trivial.
  { apply Forall_forall. intros row _. apply Forall_forall. trivial. }
  cbn [bind]. eexists. split; [reflexivity|].
  repeat split; cbn [dp next choice powerChosen]; trivial;
    apply Hch' || apply Hpw'.
Qed.

Lemma intervalStep_ok (tb : Tables) (t : Z) (it : LMPInterval) :
  positive_finite (DurationHours it) = true -> (0 <= t < Z.of_nat T)%Z -> tablesOK n T tb ->
  exists tb', intervalStep (params_of q) n (n + 1) (actionSet (params_of q) ps) tb (t, it)
              = Ok tb'
    /\ tablesOK n T tb'.
Proof.
  intros Hpos Ht (Hdp & Hnx & Hch & Hpw & Hrange). unfold intervalStep.
  destruct (positive_finite_inv _ Hpos) as (dt & -> & Hdt).
  change (Fin dt <=? f0)%f64 with (Qle_bool dt 0).
  rewrite (proj2 (Qle_bool_false dt 0)) by lra.
  destruct (@foldM_inv _ _ (tablesOK n T)
              (stateStep (params_of q) n (actionSet (params_of q) ps) t (LMP it) (Fin dt))
              (slice.range (n + 1))
              {| dp := dp tb; next := map (fun _ => negInf) (next tb);
                 choice := choice tb; powerChosen := powerChosen tb |})
    as (tb1 & -> & Hdp1 & Hnx1 & Hch1 & Hpw1 & Hrange1).
  { repeat split; cbn [dp next choice powerChosen]; trivial;
      try (now rewrite length_map); apply Hch || apply Hpw. }
  { intros a x Ha Hx. apply range_spec in Hx. apply stateStep_ok; trivial. lia. }
  cbn [bind]. eexists. split; [reflexivity|].
  repeat split; cbn [dp next choice powerChosen]; trivial; apply Hch1 || apply Hpw1.
Qed.

Lemma reconstructStep_ok (tb : Tables) (st : list Dispatch * Z) (t : Z) :
  tablesOK n T tb -> (0 <= t < Z.of_nat T)%Z -> reconOK n T st ->
  exists st', reconstructStep tb st t = Ok st' /\ reconOK n T st'.
Proof.
  intros (Hdp & Hnx & Hch & Hpw & Hrange) Ht [Hlen Hcur].
  destruct st as [pl cur]. cbn [fst snd] in *. unfold reconstructStep.
  destruct (@get2_ok _ (fun z => (-1 <= z <= n)%Z) (choice tb) t cur)
    as (ns & -> & Hns); trivial.
  cbn [bind].
  assert (Hin : (0 <= t < Z.of_nat (List.length pl))%Z) by lia.
  destruct (ns <? 0)%Z eqn:E.
  - rewrite (set_ok _ _ Hin). cbn [bind]. eexists. split; [reflexivity|].
    split; cbn [fst snd]; trivial. now rewrite length_upd.
  - apply Z.ltb_ge in E.
    destruct (@get2_ok _ (fun _ => True) (powerChosen tb) t cur) as (pw & -> & _); trivial.
    { apply Forall_forall. intros row _. apply Forall_forall. trivial. }
    cbn [bind]. rewrite (set_ok _ _ Hin). cbn [bind]. eexists. split; [reflexivity|].
    split; cbn [fst snd]; [now rewrite length_upd | lia].
Qed.

End DPLoops.

Lemma Forall_repeat {A} (P : A -> Prop) (x : A) (k : nat) : P x -> Forall P (repeat x k).
Proof. intro H. induction k; cbn; constructor; trivial. Qed.

Lemma optimizeDP_ok (q : QParams) (intervals : list LMPInterval) (s0 : Q)
    (socSteps powerSteps : Z) :
  QValid q ->
  Forall (fun it => positive_finite (DurationHours it) = true) intervals ->
  (socSteps < 2 ^ 63 - 1)%Z -> (1 <= powerSteps)%Z ->
  exists pl, optimizeDP intervals (params_of q) (Fin s0) socSteps powerSteps = Ok pl
             /\ List.length pl = List.length intervals.
Proof.
  intros V Hpos Hss Hps. unfold optimizeDP.
  set (n := if (socSteps <? 2)%Z then 2%Z else socSteps).
  assert (Hn : (2 <= n < 2 ^ 63)%Z).
  { unfold n. destruct (socSteps <? 2)%Z eqn:E; [lia|]. apply Z.ltb_ge in E. lia. }
  set (T := List.length intervals).
  rewrite !make_ok by lia. cbn [bind].
  pose proof (@socToIdx_range q n Hn s0) as Hinit.
  set (initIdx := socToIdx (params_of q) n (Fin s0)) in *.
  rewrite set_ok by (rewrite repeat_length; lia). cbn [bind].
  rewrite (proj2 (Z.ltb_ge (2 * powerSteps + 1) 0)) by lia. cbn [bind].
  destruct (@foldM_inv _ _ (tablesOK n T)
              (intervalStep (params_of q) n (n + 1) (actionSet (params_of q) powerSteps))
              (slice.indexed intervals)
              {| dp := slice.upd (repeat negInf (Z.to_nat (n + 1))) (Z.to_nat initIdx) f0;
                 next := repeat f0 (Z.to_nat (n + 1));
                 choice := repeat (repeat (-1)%Z (Z.to_nat (n + 1))) T;
                 powerChosen := repeat (repeat f0 (Z.to_nat (n + 1))) T |})
    as (tb & -> & Htb).
  { unfold tablesOK, rowsOK. cbn [dp next choice powerChosen].
    rewrite length_upd, !repeat_length.
    repeat split; trivial.
    - apply Forall_repeat. apply repeat_length.
    - apply Forall_repeat. apply repeat_length.
    - apply Forall_repeat. apply Forall_repeat. lia. }
  { intros tb [t it] Htb Hin. apply indexed_spec in Hin. destruct Hin as [Ht Hit].
    rewrite Forall_forall in Hpos.
    apply intervalStep_ok; trivial. now apply Hpos. }
  cbn [bind].
  destruct (@foldM_inv _ _ (reconOK n T) (reconstructStep tb)
              (slice.range (Z.of_nat T))
              (repeat {| PowerMW := f0 |} T, initIdx)) as ([pl cur] & -> & Hlen & _).
  { split; cbn [fst snd]; [apply repeat_length | lia]. }
  { intros st t Hst Ht. apply range_spec in Ht.
    apply reconstructStep_ok; trivial. }
  cbn [bind]. exists pl. split; trivial.
Qed.

Section ByDay.

Variable q : QParams.
Variable s0 : Q.
Variables socSteps powerSteps : Z.
Hypothesis V : QValid q.
Hypothesis Hss : (socSteps < 2 ^ 63 - 1)%Z.
Hypothesis Hps : (1 <= powerSteps)%Z.

Let positive (it : LMPInterval) : Prop := positive_finite (DurationHours it) = true.

Lemma dayStep_ok (acc : DayAcc) (i : Z) (it : LMPInterval) :
  Forall positive (dayIntervals acc) -> positive it ->
  exists acc', dayStep (params_of q) (Fin s0) socSteps powerSteps acc (i, it) = Ok acc'
    /\ (List.length (fullPlan acc') + List.length (dayIntervals acc')
        = S (List.length (fullPlan acc) + List.length (dayIntervals acc)))%nat
    /\ Forall positive (dayIntervals acc').
Proof.
  intros Hacc Hit. unfold dayStep.
  destruct ((i >? 0)%Z && negb (dayStart (IntervalStartLocal it) =? currentDay acc)%Z).
  - destruct (optimizeDP_ok s0 V Hacc Hss Hps) as (dayPlan & -> & Hlen).
    cbn [bind dayIntervals fullPlan]. eexists. split; [reflexivity|].
    cbn [dayIntervals fullPlan app]. split.
    + rewrite length_app, Hlen. cbn. lia.
    + repeat constructor. exact Hit.
  - cbn [bind]. eexists. split; [reflexivity|]. cbn [dayIntervals fullPlan]. split.
    + rewrite length_app. cbn. lia.
    + apply Forall_app. split; trivial. repeat constructor. exact Hit.
Qed.

Lemma dayLoop_ok (l : list (Z * LMPInterval)) (acc : DayAcc) :
  Forall positive (dayIntervals acc) -> Forall (fun ii => positive (snd ii)) l ->
  exists acc', slice.foldM (dayStep (params_of q) (Fin s0) socSteps powerSteps) l acc = Ok acc'
    /\ (List.length (fullPlan acc') + List.length (dayIntervals acc')
        = List.length (fullPlan acc) + List.length (dayIntervals acc) + List.length l)%nat
    /\ Forall positive (dayIntervals acc').
Proof.
  intros Hacc Hl. revert acc Hacc.
  induction Hl as [|[i it] l Hit _ IH]; intros acc Hacc; cbn [slice.foldM].
  - exists acc. split; [reflexivity|]. split; [cbn; lia | trivial].
  - cbn [snd] in Hit.
    destruct (@dayStep_ok acc i it Hacc Hit) as (acc1 & -> & Hlen1 & Hacc1). cbn [bind].
    destruct (IH acc1 Hacc1) as (acc' & -> & Hlen' & Hacc').
    exists acc'. split; [reflexivity|]. split; trivial. rewrite Hlen', Hlen1. cbn. lia.
Qed.

Lemma optimizeDPByDay_ok (intervals : list LMPInterval) :
  intervals <> [] -> Forall positive intervals ->
  exists pl, optimizeDPByDay intervals (params_of q) (Fin s0) socSteps powerSteps = Ok pl
    /\ List.length pl = List.length intervals.
Proof.
  intros Hne Hpos. unfold optimizeDPByDay.
  destruct intervals as [|i0 rest] eqn:Ei; [contradiction|]. rewrite <- Ei in *.
  destruct (@dayLoop_ok (slice.indexed intervals)
              {| dayIntervals := []; fullPlan := []; currentDay := zeroUnix |})
    as (acc & -> & Hlen & Hacc).
  { constructor. }
  { apply Forall_forall. intros [i it] Hin. apply indexed_spec in Hin.
    rewrite Forall_forall in Hpos. now apply Hpos. }
  cbn [bind]. cbn [fullPlan dayIntervals List.length plus] in Hlen.
  rewrite indexed_length in Hlen.
  assert (Hfull : exists full,
             match dayIntervals acc with
             | [] => Ok (fullPlan acc)
             | _ :: _ =>
                 match optimizeDP (dayIntervals acc) (params_of q) (Fin s0) socSteps powerSteps with
                 | Ok dayPlan => Ok (fullPlan acc ++ dayPlan)
                 | Err e => Err ("error optimizing day: " ++ e)
                 | Panic e => Panic e
                 end
             end = Ok full /\ List.length full = List.length intervals).
  { destruct (dayIntervals acc) as [|d0 dr] eqn:Ed.
    - eexists. split; [reflexivity|]. cbn in Hlen. lia.
    - destruct (optimizeDP_ok s0 V Hacc Hss Hps) as (dayPlan & -> & Hlen2).
      eexists. split; [reflexivity|]. rewrite length_app, Hlen2. exact Hlen. }
  destruct Hfull as (full & -> & Hlenf). cbn [bind].
  rewrite Hlenf, Nat.eqb_refl. cbn [negb]. eauto.
Qed.

End ByDay.

Lemma NewOracleStrategy_ok
    (intervals : list LMPInterval) (b : model.Battery) (cfg : OracleParams) :
  valid b ->
  intervals <> [] ->
  Forall (fun it => positive_finite (DurationHours it) = true) intervals ->
  (SocSteps cfg < 2 ^ 63 - 1)%Z ->
  (PowerSteps cfg < 2 ^ 62)%Z ->
  exists o,
    NewOracleStrategy intervals (Params b) (SOC (State b)) cfg = Ok o
    /\ List.length (plan o) = List.length intervals.
Proof.
  intros Hv Hne Hpos Hss _.
  destruct (valid_inv Hv) as (q & s & -> & V & _).
  unfold NewOracleStrategy.
  destruct intervals as [|i0 rest] eqn:Ei; [contradiction|]. rewrite <- Ei in *.
  cbn [Params State SOC battery_of].
  destruct (@optimizeDPByDay_ok q s
              (if (SocSteps cfg <=? 0)%Z then 200%Z else SocSteps cfg)
              (if (PowerSteps cfg <=? 0)%Z then 10%Z else PowerSteps cfg) V)
    with (intervals := intervals) as (pl & -> & Hlen); trivial.
  - destruct (SocSteps cfg <=? 0)%Z; lia.
  - destruct (PowerSteps cfg <=? 0)%Z eqn:E; [lia|]. apply Z.leb_gt in E. lia.
  - cbn [bind]. eexists. split; [reflexivity|]. exact Hlen.
Qed.

End OraclePlan.

(** ** The oracle against a schedule *)

Section OracleVersusSchedule.

Import model strategy backtest.

(** C6 fails on the code.  On the sample day (10 $/MWh, then 90 $/MWh) the
    plan of the oracle earns 450 with the sample battery, the schedule that
    charges in the first hour and discharges in the second earns 4000. *)
Theorem C6_oracle_below_schedule :
  exists o,
    NewOracleStrategy sampleDay (Params sampleBattery) (SOC (State sampleBattery)) defaultOracle
      = Ok o
    /\ (totalOf (Run sampleDay (Some sampleBattery) (Some o)) == Fin 450)%f64
    /\ (totalOf (Run sampleDay (Some sampleBattery) (Some sampleSchedule)) == Fin 4000)%f64
    /\ (totalOf (Run sampleDay (Some sampleBattery) (Some o))
        <? totalOf (Run sampleDay (Some sampleBattery) (Some sampleSchedule)))%f64 = true.
Proof.
  eexists. split; [vm_compute; reflexivity|].
  split; [vm_compute; reflexivity|]. split; vm_compute; reflexivity.
Qed.

End OracleVersusSchedule.

(** ** Node ranking under a price offset *)

Section Ranking.

Import model analysis.

Lemma cond_set_ok {A} (b : bool) (l : list A) (i : Z) (x : A) (N : nat) :
  List.length l = N -> (0 <= i < Z.of_nat N)%Z ->
  exists l', (if b then slice.set l i x else Ok l) = Ok l' /\ List.length l' = N.
Proof.
  intros Hl Hi. destruct b.
  - rewrite set_ok by (rewrite Hl; lia). eexists. split; [reflexivity|].
    now rewrite length_upd.
  - eauto.
Qed.

Section CanonicalDP.

Variable steps : Z.
Hypothesis Hsteps : (1 <= steps)%Z.
Let N : nat := Z.to_nat (steps + 1).

Lemma canonicalStateStep_ok (price dt : float64) (dp next : list float64) (socIdx : Z) :
  List.length dp = N -> List.length next = N -> (0 <= socIdx <= steps)%Z ->
  exists next', canonicalStateStep steps price dt dp next socIdx = Ok next'
                /\ List.length next' = N.
Proof.
  intros Hdp Hnx Hs. unfold canonicalStateStep.
  assert (HN : Z.of_nat N = (steps + 1)%Z) by (unfold N; lia).
  destruct (@get_ok _ dp socIdx) as (d & -> & _); [lia|]. cbn [bind].
  destruct ((d <=? strategy.negInf / strategy.f2)%f64); [eauto|].
  destruct (@get_ok _ next socIdx) as (cur & -> & _); [lia|]. cbn [bind].
  destruct (@cond_set_ok _ (d >? cur)%f64 next socIdx d N) as (n1 & -> & H1);
    trivial; [lia|]. cbn [bind].
  assert (H2 : exists n2,
             (if (socIdx <? steps)%Z
              then up <- slice.get n1 (socIdx + 1) ;;
                   (if (d + - (price * dt) >? up)%f64
                    then slice.set n1 (socIdx + 1) (d + - (price * dt))%f64
                    else Ok n1)
              else Ok n1) = Ok n2 /\ List.length n2 = N).
  { destruct (socIdx <? steps)%Z eqn:E; [|eauto]. apply Z.ltb_lt in E.
    destruct (@get_ok _ n1 (socIdx + 1)%Z) as (up & -> & _); [lia|]. cbn [bind].
    apply cond_set_ok; trivial. lia. }
  destruct H2 as (n2 & -> & H2). cbn [bind].
  destruct (socIdx >? 0)%Z eqn:E; [|eauto]. apply Z.gtb_lt in E.
  destruct (@get_ok _ n2 (socIdx - 1)%Z) as (down & -> & _); [lia|]. cbn [bind].
  apply cond_set_ok; trivial. lia.
Qed.

Lemma canonicalIntervalStep_ok (dt : float64) (st : list float64 * list float64)
    (it : LMPInterval) :
  List.length (fst st) = N /\ List.length (snd st) = N ->
  exists st', canonicalIntervalStep steps dt st it = Ok st'
              /\ List.length (fst st') = N /\ List.length (snd st') = N.
Proof.
  destruct st as [dp next]. cbn [fst snd]. intros [Hdp Hnx].
  unfold canonicalIntervalStep.
  destruct (@foldM_inv _ _ (fun nx : list float64 => List.length nx = N)
              (canonicalStateStep steps (LMP it) dt dp)
              (slice.range (steps + 1))
              (map (fun _ => strategy.negInf) next)) as (next' & -> & Hlen).
  { now rewrite length_map. }
  { intros nx i Hnx' Hi. apply range_spec in Hi.
    apply canonicalStateStep_ok; trivial. lia. }
  cbn [bind]. eexists. split; [reflexivity|]. cbn [fst snd]. split; trivial.
Qed.

End CanonicalDP.

Lemma oracleProfitCanonical_total (intervals : list LMPInterval) :
  exists v, oracleProfitCanonical intervals = Ok v.
Proof.
  unfold oracleProfitCanonical. destruct intervals as [|i0 rest] eqn:Ei; [eauto|].
  rewrite <- Ei.
  destruct ((DurationHours i0 <=? f0)%f64); [eauto|].
  set (steps0 := to_int (Round (f1 / DurationHours i0))).
  set (steps := if (steps0 <? 1)%Z then 1%Z else steps0).
  assert (Hsteps : (1 <= steps)%Z).
  { unfold steps. destruct (steps0 <? 1)%Z eqn:E; [lia|]. apply Z.ltb_ge in E. lia. }
  rewrite !make_ok by lia. cbn [bind].
  set (init0 := to_int (Round (Fin (1 # 2) * of_int steps))).
  set (init1 := if (init0 <? 0)%Z then 0%Z else init0).
  set (init := if (init1 >? steps)%Z then steps else init1).
  assert (Hinit : (0 <= init <= steps)%Z).
  { unfold init, init1. destruct (init0 <? 0)%Z eqn:E1.
    - destruct (0 >? steps)%Z eqn:E2; lia.
    - apply Z.ltb_ge in E1. destruct (init0 >? steps)%Z eqn:E2; [lia|].
      rewrite Z.gtb_ltb in E2. apply Z.ltb_ge in E2. lia. }
  rewrite set_ok by (rewrite repeat_length; lia). cbn [bind].
  destruct (@foldM_inv _ _
              (fun st : list float64 * list float64 =>
                 List.length (fst st) = Z.to_nat (steps + 1)
                 /\ List.length (snd st) = Z.to_nat (steps + 1))
              (canonicalIntervalStep steps (DurationHours i0)) intervals
              (slice.upd (repeat strategy.negInf (Z.to_nat (steps + 1))) (Z.to_nat init) f0,
               repeat f0 (Z.to_nat (steps + 1)))) as ([dp nx] & -> & _).
  { cbn [fst snd]. now rewrite length_upd, !repeat_length. }
  { intros st it Hst _. now apply canonicalIntervalStep_ok. }
  cbn [bind].
  match goal with |- context [if ?b then _ else _] => destruct b end; eauto.
Qed.

(** *** Sorting and percentiles under a price offset *)

Section Offset.

Variable c : Q.

Let sh (x : float64) : float64 := (x + Fin c)%f64.

Lemma less_offset (x y : float64) :
  is_finite x = true -> is_finite y = true -> less (sh x) (sh y) = less x y.
Proof.
  destruct x as [a| | |], y as [b| | |]; try discriminate. intros _ _.
  unfold less, sh. fcbn. rewrite !orb_false_r.
  destruct (Qltb a b) eqn:E.
  - apply Qltb_true in E. apply Qltb_true. lra.
  - apply Qltb_false in E. apply Qltb_false. lra.
Qed.

Lemma insert_offset (x : float64) (l : list float64) :
  is_finite x = true -> Forall (fun v => is_finite v = true) l ->
  insert (sh x) (map sh l) = map sh (insert x l).
Proof.
  intros Hx Hl. induction Hl as [|y l Hy _ IH]; cbn [insert map]; trivial.
  rewrite less_offset by trivial.
  destruct (less y x); cbn [map]; [now rewrite IH | reflexivity].
Qed.

Lemma insert_finite (x : float64) (l : list float64) :
  is_finite x = true -> Forall (fun v => is_finite v = true) l ->
  Forall (fun v => is_finite v = true) (insert x l).
Proof.
  intros Hx Hl. induction Hl as [|y l Hy Hl IH]; cbn [insert].
  - repeat constructor. exact Hx.
  - destruct (less y x); constructor; trivial. now constructor.
Qed.

Lemma Float64s_finite (l : list float64) :
  Forall (fun v => is_finite v = true) l ->
  Forall (fun v => is_finite v = true) (Float64s l).
Proof.
  intro Hl. induction Hl as [|x l Hx _ IH]; cbn [Float64s]; [constructor|].
  now apply insert_finite.
Qed.

Lemma Float64s_offset (l : list float64) :
  Forall (fun v => is_finite v = true) l ->
  Float64s (map sh l) = map sh (Float64s l).
Proof.
  intro Hl. induction Hl as [|x l Hx Hl IH]; cbn [Float64s map]; trivial.
  rewrite IH. apply insert_offset; trivial. now apply Float64s_finite.
Qed.

Lemma insert_length (x : float64) (l : list float64) :
  List.length (insert x l) = S (List.length l).
Proof.
  induction l as [|y l IH]; cbn [insert]; trivial.
  destruct (less y x); cbn [List.length]; now rewrite ?IH.
Qed.

Lemma Float64s_length (l : list float64) : List.length (Float64s l) = List.length l.
Proof.
  induction l as [|x l IH]; cbn [Float64s]; trivial.
  now rewrite insert_length, IH.
Qed.

Lemma get_map {A B} (f : A -> B) (l : list A) (i : Z) (x : A) :
  slice.get l i = Ok x -> slice.get (map f l) i = Ok (f x).
Proof.
  unfold slice.get. destruct (i <? 0)%Z; [discriminate|].
  rewrite nth_error_map. destruct (nth_error l (Z.to_nat i)); [|discriminate].
  intro E. now inversion E.
Qed.

Lemma get_finite (l : list float64) (i : Z) :
  Forall (fun v => is_finite v = true) l ->
  (0 <= i < Z.of_nat (List.length l))%Z ->
  exists v, slice.get l i = Ok (Fin v).
Proof.
  intros Hl Hi. destruct (get_ok l Hi) as (x & E & Hin).
  rewrite Forall_forall in Hl. apply Hl in Hin.
  destruct x; try discriminate. eauto.
Qed.

(** A percentile of the offset list is the percentile plus the offset. *)
Lemma percentileSorted_offset (l : list float64) (qq : Q) :
  Forall (fun v => is_finite v = true) l ->
  l <> [] -> (Z.of_nat (List.length l) < 2 ^ 63)%Z ->
  0 < qq -> qq < 1 ->
  exists v v',
    percentileSorted l (Fin qq) = Ok (Fin v)
    /\ percentileSorted (map sh l) (Fin qq) = Ok (Fin v')
    /\ v' == v + c.
Proof.
  intros Hl Hne Hlen H0 H1. unfold percentileSorted.
  destruct l as [|a0 l0] eqn:El; [contradiction|]. rewrite <- El in *.
  assert (Em : map sh l = sh a0 :: map sh l0) by (rewrite El; reflexivity).
  rewrite Em. rewrite <- Em. clear Em.
  rewrite length_map.
  set (n := Z.of_nat (List.length l)) in *.
  assert (Hn : (1 <= n)%Z) by (unfold n; rewrite El; cbn [List.length]; lia).
  change (Fin qq <=? f0)%f64 with (Qle_bool qq 0).
  rewrite (proj2 (Qle_bool_false qq 0)) by lra.
  change (Fin qq >=? f1)%f64 with (Qle_bool 1 qq).
  rewrite (proj2 (Qle_bool_false 1 qq)) by lra.
  unfold of_int. cbn [mul Floor Ceil].
  set (x := qq * inject_Z (n - 1)).
  assert (Hn1 : 0 <= inject_Z (n - 1)).
  { change 0 with (inject_Z 0). rewrite <- Zle_Qle. lia. }
  assert (Hx0 : 0 <= x) by (apply Qmult_le_0_compat; lra).
  assert (Hx1 : x <= inject_Z (n - 1)).
  { unfold x. setoid_replace (inject_Z (n - 1)) with (1 * inject_Z (n - 1)) at 2 by ring.
    apply Qmult_le_compat_r; lra. }
  assert (Hlo : (0 <= Qfloor x <= n - 1)%Z).
  { split.
    - change 0%Z with (Qfloor 0). now apply Qfloor_resp_le.
    - rewrite <- (Qfloor_Z (n - 1)). now apply Qfloor_resp_le. }
  assert (Hhi : (0 <= Qceiling x <= n - 1)%Z).
  { split.
    - change 0%Z with (Qceiling 0). now apply Qceiling_resp_le.
    - rewrite <- (Qceiling_Z (n - 1)). now apply Qceiling_resp_le. }
  rewrite !to_int_inject by lia.
  destruct (@get_finite l (Qfloor x) Hl) as (vlo & Elo); [fold n; lia|].
  destruct (@get_finite l (Qceiling x) Hl) as (vhi & Ehi); [fold n; lia|].
  rewrite (get_map sh _ _ Elo), (get_map sh _ _ Ehi), Elo, Ehi.
  destruct (Qfloor x =? Qceiling x)%Z.
  - exists vlo, (vlo + c). repeat split; reflexivity.
  - cbn [bind]. unfold sh. fcbn. do 2 eexists. split; [reflexivity|].
    split; [reflexivity|]. ring.
Qed.

End Offset.

Lemma vals_fold (l : list LMPInterval) (st : Stats) :
  vals (fold_left statsStep l st) = vals st ++ map LMP l.
Proof.
  revert st. induction l as [|it l IH]; intro st; cbn [fold_left map].
  - now rewrite app_nil_r.
  - rewrite IH. cbn [statsStep vals]. now rewrite <- app_assoc.
Qed.

(** In exact arithmetic the spread between the 95th and the 5th percentile
    does not change when a constant is added to every price.  (In binary64
    the percentiles of the two series are rounded separately and the spreads
    can differ in the last places; see the counterexample below.) *)
Lemma spread_offset_exact (c : Q) (B : list LMPInterval) :
  B <> [] ->
  Forall (fun it => is_finite (LMP it) = true) B ->
  (Z.of_nat (List.length B) < 2 ^ 63)%Z ->
  exists pa pb,
    ComputePotential (map (offsetLMP c) B) = Ok pa
    /\ ComputePotential B = Ok pb
    /\ (SpreadP95P05 pa == SpreadP95P05 pb)%f64.
Proof.
  intros Hne Hfin Hlen.
  assert (HvB : Forall (fun v => is_finite v = true) (map LMP B)).
  { apply Forall_forall. intros v Hv. apply in_map_iff in Hv.
    destruct Hv as (it & <- & Hit). rewrite Forall_forall in Hfin. now apply Hfin. }
  assert (HvA : map LMP (map (offsetLMP c) B) = map (fun x => (x + Fin c)%f64) (map LMP B)).
  { rewrite !map_map. reflexivity. }
  pose proof (Float64s_finite HvB) as Hsorted.
  assert (Hsne : Float64s (map LMP B) <> []).
  { intro E. apply (f_equal (@List.length _)) in E.
    rewrite Float64s_length, length_map in E. destruct B; [contradiction | discriminate]. }
  assert (Hslen : (Z.of_nat (List.length (Float64s (map LMP B))) < 2 ^ 63)%Z)
    by (now rewrite Float64s_length, length_map).
  destruct (@percentileSorted_offset c _ (5 # 100) Hsorted Hsne Hslen)
    as (v05 & w05 & E05 & F05 & G05); [reflexivity | reflexivity |].
  destruct (@percentileSorted_offset c _ (95 # 100) Hsorted Hsne Hslen)
    as (v95 & w95 & E95 & F95 & G95); [reflexivity | reflexivity |].
  destruct (oracleProfitCanonical_total (map (offsetLMP c) B)) as (oa & Eoa).
  destruct (oracleProfitCanonical_total B) as (ob & Eob).
  unfold ComputePotential.
  destruct B as [|b0 rest] eqn:EB; [contradiction|]. rewrite <- EB in *.
  assert (Em : map (offsetLMP c) B = offsetLMP c b0 :: map (offsetLMP c) rest)
    by (rewrite EB; reflexivity).
  rewrite Em. rewrite <- Em. clear Em.
  rewrite !vals_fold. cbn [vals app].
  rewrite HvA, Float64s_offset by trivial.
  unfold q05, q95. rewrite E05, E95, F05, F95, Eoa, Eob. cbn [bind].
  do 2 eexists. split; [reflexivity|]. split; [reflexivity|].
  cbn [SpreadP95P05]. simpl. lra.
Qed.

Section Offset2.
Variable c : Q.
Let sh (x : float64) : float64 := (x + Fin c)%f64.

(** The running minimum and maximum of the offset series are those of the
    series, offset. *)
Lemma stats_offset (l : list LMPInterval) (st st' : Stats) :
  Forall (fun it => is_finite (LMP it) = true) l ->
  minv st' = sh (minv st) -> maxv st' = sh (maxv st) ->
  minv st <> NaN -> minv st <> NInf -> maxv st <> NaN -> maxv st <> PInf ->
  minv (fold_left statsStep (map (offsetLMP c) l) st')
  = sh (minv (fold_left statsStep l st))
  /\ maxv (fold_left statsStep (map (offsetLMP c) l) st')
     = sh (maxv (fold_left statsStep l st)).
Proof.
  intro Hl. revert st st'.
  induction Hl as [|it l Hit _ IH]; intros st st' Emin Emax N1 N2 N3 N4;
    cbn [map fold_left]; [now split|].
  destruct (LMP it) as [v| | |] eqn:Ev; try discriminate.
  apply IH; unfold statsStep; cbn [minv maxv offsetLMP LMP]; rewrite ?Ev, ?Emin, ?Emax.
  - destruct (minv st) as [m| | |]; try contradiction; unfold sh; fcbn; trivial.
    destruct (Qltb v m) eqn:E.
    + apply Qltb_true in E. rewrite (proj2 (Qltb_true (v + c) (m + c))) by lra. reflexivity.
    + apply Qltb_false in E. rewrite (proj2 (Qltb_false (v + c) (m + c))) by lra. reflexivity.
  - destruct (maxv st) as [m| | |]; try contradiction; unfold sh, gt; fcbn; trivial.
    destruct (Qltb m v) eqn:E.
    + apply Qltb_true in E. rewrite (proj2 (Qltb_true (m + c) (v + c))) by lra. reflexivity.
    + apply Qltb_false in E. rewrite (proj2 (Qltb_false (m + c) (v + c))) by lra. reflexivity.
  - destruct (Fin v <? minv st)%f64; [discriminate | trivial].
  - destruct (Fin v <? minv st)%f64; [discriminate | trivial].
  - destruct (Fin v >? maxv st)%f64; [discriminate | trivial].
  - destruct (Fin v >? maxv st)%f64; [discriminate | trivial].
Qed.

End Offset2.

(** C8 (amended).  When node A's LMP series is node B's plus a constant c,
    the ranking analysis succeeds on both with the same count; the sorted
    prices the percentiles are interpolated from, the minimum and the
    maximum of A are those of B with c added to each. *)
Theorem C8_offset_shifts_prices (c : Q) (B : list LMPInterval) :
  B <> [] ->
  Forall (fun it => is_finite (LMP it) = true) B ->
  (Z.of_nat (List.length B) < 2 ^ 63)%Z ->
  exists pa pb,
    ComputePotential (map (offsetLMP c) B) = Ok pa
    /\ ComputePotential B = Ok pb
    /\ Count pa = Count pb
    /\ Float64s (map LMP (map (offsetLMP c) B))
       = map (fun x => (x + Fin c)%f64) (Float64s (map LMP B))
    /\ MinLMP pa = (MinLMP pb + Fin c)%f64
    /\ MaxLMP pa = (MaxLMP pb + Fin c)%f64.
Proof.
  intros Hne Hfin Hlen.
  assert (HvB : Forall (fun v => is_finite v = true) (map LMP B)).
  { apply Forall_forall. intros v Hv. apply in_map_iff in Hv.
    destruct Hv as (it & <- & Hit). rewrite Forall_forall in Hfin. now apply Hfin. }
  assert (HvA : map LMP (map (offsetLMP c) B) = map (fun x => (x + Fin c)%f64) (map LMP B)).
  { rewrite !map_map. reflexivity. }
  pose proof (Float64s_finite HvB) as Hsorted.
  assert (Hsne : Float64s (map LMP B) <> []).
  { intro E. apply (f_equal (@List.length _)) in E.
    rewrite Float64s_length, length_map in E. destruct B; [contradiction | discriminate]. }
  assert (Hslen : (Z.of_nat (List.length (Float64s (map LMP B))) < 2 ^ 63)%Z)
    by (now rewrite Float64s_length, length_map).
  destruct (@percentileSorted_offset c _ (5 # 100) Hsorted Hsne Hslen)
    as (v05 & w05 & E05 & F05 & G05); [reflexivity | reflexivity |].
  destruct (@percentileSorted_offset c _ (95 # 100) Hsorted Hsne Hslen)
    as (v95 & w95 & E95 & F95 & G95); [reflexivity | reflexivity |].
  destruct (oracleProfitCanonical_total (map (offsetLMP c) B)) as (oa & Eoa).
  destruct (oracleProfitCanonical_total B) as (ob & Eob).
  destruct (@stats_offset c B
              {| sum := f0; minv := PInf; maxv := NInf; vals := [] |}
              {| sum := f0; minv := PInf; maxv := NInf; vals := [] |} Hfin)
    as (Hmin & Hmax); try reflexivity; try discriminate.
  unfold ComputePotential.
  destruct B as [|b0 rest] eqn:EB; [contradiction|]. rewrite <- EB in *.
  assert (Em : map (offsetLMP c) B = offsetLMP c b0 :: map (offsetLMP c) rest)
    by (rewrite EB; reflexivity).
  rewrite Em. rewrite <- Em. clear Em.
  rewrite !vals_fold. cbn [vals app].
  rewrite HvA, Float64s_offset by trivial.
  unfold q05, q95. rewrite E05, E95, F05, F95, Eoa, Eob. cbn [bind].
  do 2 eexists. split; [reflexivity|]. split; [reflexivity|].
  cbn [Count MinLMP MaxLMP]. rewrite length_map.
  repeat split; trivial.
Qed.

Section OffsetReplay.

Import PrimFloat.
Local Open Scope float_scope.

(** C8, as stated, fails.  One hourly interval at 10 $/MWh and the same
    interval at 20 $/MWh (offset 10) have oracle profits 10 and 20: the
    constant series does not have zero profit.  And in binary64 the prices
    10 and 33 have the spread 20.699999999999996, the prices 12 and 35
    (offset 2) the spread 20.700000000000003. *)
Lemma C8_counterexample :
  (exists pa pb,
     ComputePotential (map (offsetLMP 10) (oneHourAt 10)) = Ok pa
     /\ ComputePotential (oneHourAt 10) = Ok pb
     /\ (OracleProfit pa == Fin 20)%f64
     /\ (OracleProfit pb == Fin 10)%f64
     /\ ~ (OracleProfit pa == OracleProfit pb)%f64
     /\ ~ (OracleProfit pb == f0)%f64)
  /\ (exists sa sb,
        ieee.ComputePotential [12; 35] = Ok sa
        /\ ieee.ComputePotential [10; 33] = Ok sb
        /\ ieee.SpreadP95P05 sa = 20.700000000000003
        /\ ieee.SpreadP95P05 sb = 20.699999999999996
        /\ (ieee.SpreadP95P05 sa =? ieee.SpreadP95P05 sb) = false).
Proof.
  split.
  - do 2 eexists. split; [vm_compute; reflexivity|]. split; [vm_compute; reflexivity|].
    split; [reflexivity|]. split; [reflexivity|].
    split; intro H; vm_compute in H; discriminate.
  - do 2 eexists. split; [vm_compute; reflexivity|]. split; [vm_compute; reflexivity|].
    repeat split.
Qed.

End OffsetReplay.

Lemma C8_witness :
  exists pa pb,
    ComputePotential (map (offsetLMP 10) sampleDay) = Ok pa
    /\ ComputePotential sampleDay = Ok pb
    /\ Count pa = Count pb
    /\ Float64s (map LMP (map (offsetLMP 10) sampleDay))
       = map (fun x => (x + Fin 10)%f64) (Float64s (map LMP sampleDay))
    /\ MinLMP pa = (MinLMP pb + Fin 10)%f64
    /\ MaxLMP pa = (MaxLMP pb + Fin 10)%f64.
Proof.
  apply C8_offset_shifts_prices.
  - discriminate.
  - repeat constructor.
  - reflexivity.
Defined.

End Ranking.

(** ** The oracle's plan, day by day *)

Section OracleDays.

Import model strategy.

Lemma splitDays_head (x : LMPInterval) (t : list LMPInterval) :
  exists g gs, splitDays (x :: t) = (x :: g) :: gs.
Proof.
  cbn [splitDays]. destruct (splitDays t) as [|[|y g] gs]; eauto.
  destruct (dayOf x =? dayOf y)%Z; eauto.
Qed.

Lemma splitDays_concat (l : list LMPInterval) : List.concat (splitDays l) = l.
Proof.
  induction l as [|x t IH]; trivial. cbn [splitDays].
  destruct t as [|y t'].
  - reflexivity.
  - destruct (splitDays_head y t') as (g & gs & E). rewrite E in *.
    destruct (dayOf x =? dayOf y)%Z; cbn [List.concat app] in *; now rewrite IH.
Qed.

(** A non-empty run of intervals of day [d] in front of a list. *)
Lemma splitDays_run (d : Z) (g r : list LMPInterval) :
  g <> [] -> Forall (fun it => dayOf it = d) g ->
  splitDays (g ++ r)
  = match r with
    | [] => [g]
    | y :: _ =>
        if (dayOf y =? d)%Z
        then match splitDays r with
             | h :: gs => (g ++ h) :: gs
             | [] => [g]
             end
        else g :: splitDays r
    end.
Proof.
  intros Hne Hg. induction Hg as [|x g Hx Hg IH]; [contradiction|]. clear Hne.
  destruct g as [|x' g'].
  - cbn [app]. destruct r as [|y r']; [reflexivity|].
    destruct (splitDays_head y r') as (h & gs & E).
    cbn [splitDays] in *. rewrite E. rewrite Hx.
    rewrite (Z.eqb_sym d). destruct (dayOf y =? d)%Z; reflexivity.
  - specialize (IH ltac:(discriminate)).
    change ((x :: x' :: g') ++ r) with (x :: ((x' :: g') ++ r)).
    cbn [splitDays]. rewrite IH.
    assert (Hx' : dayOf x' = d) by (now inversion Hg).
    destruct r as [|y r'].
    + rewrite Hx, Hx', Z.eqb_refl. reflexivity.
    + destruct (splitDays_head y r') as (h & gs & E). rewrite E.
      destruct (dayOf y =? d)%Z; cbn [app]; rewrite Hx, Hx', Z.eqb_refl; reflexivity.
Qed.

Section DayGroups.

Variable p : BatteryParams.
Variable initialSOC : float64.
Variables socSteps powerSteps : Z.

Let optOK (g : list LMPInterval) (pl : list Dispatch) : Prop :=
  optimizeDP g p initialSOC socSteps powerSteps = Ok pl.

Lemma dayLoop_groups (l : list (Z * LMPInterval)) (acc acc' : DayAcc)
    (lastPlan : list Dispatch) :
  dayIntervals acc <> [] ->
  Forall (fun it => dayOf it = currentDay acc) (dayIntervals acc) ->
  Forall (fun ii => (fst ii > 0)%Z) l ->
  slice.foldM (dayStep p initialSOC socSteps powerSteps) l acc = Ok acc' ->
  optOK (dayIntervals acc') lastPlan ->
  dayIntervals acc' <> []
  /\ exists plans,
       Forall2 optOK (splitDays (dayIntervals acc ++ map snd l)) plans
       /\ fullPlan acc' ++ lastPlan = fullPlan acc ++ List.concat plans.
Proof.
  intros Hne Hday Hl. revert acc Hne Hday.
  induction Hl as [|[i it] l Hi _ IH]; intros acc Hne Hday Hrun Hlast.
  - cbn [slice.foldM] in Hrun. inversion Hrun; subst acc'. split; trivial.
    exists [lastPlan]. cbn [map].
    rewrite (@splitDays_run _ _ [] Hne Hday).
    split; [repeat constructor; exact Hlast|]. cbn [List.concat]. now rewrite app_nil_r.
  - cbn [slice.foldM fst] in *.
    destruct (dayStep p initialSOC socSteps powerSteps acc (i, it)) as [acc1|e|e] eqn:Estep;
      try discriminate.
    cbn [bind] in Hrun. unfold dayStep in Estep.
    rewrite (proj2 (Z.gtb_lt _ _)) in Estep by lia. cbn [andb] in Estep.
    fold (dayOf it) in Estep.
    destruct (dayOf it =? currentDay acc)%Z eqn:Ed; cbn [negb] in Estep.
    + (* same day: the interval joins the current group *)
      cbn [bind] in Estep. apply Z.eqb_eq in Ed.
      destruct (dayIntervals acc) as [|g0 g'] eqn:Eg; [contradiction|].
      inversion Estep; subst acc1; clear Estep.
      destruct (IH {| dayIntervals := (g0 :: g') ++ [it]; fullPlan := fullPlan acc;
                      currentDay := currentDay acc |}) as (Hne' & plans & Hf & Hp); trivial.
      { cbn [dayIntervals]. discriminate. }
      { cbn [dayIntervals currentDay]. apply Forall_app. split; trivial.
        repeat constructor. exact Ed. }
      split; trivial. exists plans. cbn [dayIntervals fullPlan map snd] in *.
      rewrite <- app_assoc in Hf. cbn [app] in Hf. split; trivial.
    + (* a new day: the current group is optimised *)
      destruct (optimizeDP (dayIntervals acc) p initialSOC socSteps powerSteps)
        as [dayPlan|e|e] eqn:Eopt; try discriminate.
      cbn [bind dayIntervals fullPlan currentDay] in Estep.
      inversion Estep; subst acc1; clear Estep.
      destruct (IH {| dayIntervals := [] ++ [it]; fullPlan := fullPlan acc ++ dayPlan;
                      currentDay := dayOf it |}) as (Hne' & plans & Hf & Hp); trivial.
      { cbn. discriminate. }
      { cbn. repeat constructor. }
      split; trivial. exists (dayPlan :: plans).
      cbn [dayIntervals fullPlan map snd app] in *.
      rewrite (@splitDays_run _ _ (it :: map snd l) Hne Hday), Ed.
      split; [constructor; trivial|].
      cbn [List.concat]. rewrite Hp. now rewrite app_assoc.
Qed.

End DayGroups.

Lemma indexed_tail {A} (t : list A) (k : nat) :
  map snd (combine (map Z.of_nat (seq k (List.length t))) t) = t
  /\ Forall (fun ii => (fst ii >= Z.of_nat k)%Z)
            (combine (map Z.of_nat (seq k (List.length t))) t).
Proof.
  revert k. induction t as [|x t IH]; intro k; cbn [List.length seq map combine].
  - split; constructor.
  - destruct (IH (S k)) as [E F]. split.
    + cbn [snd]. now rewrite E.
    + constructor; [cbn; lia|]. eapply Forall_impl; [|exact F]. cbn. intros; lia.
Qed.

Lemma indexed_cons {A} (x : A) (t : list A) :
  exists rest, slice.indexed (x :: t) = (0%Z, x) :: rest
    /\ map snd rest = t /\ Forall (fun ii => (fst ii > 0)%Z) rest.
Proof.
  unfold slice.indexed, slice.range. rewrite Nat2Z.id. cbn [List.length seq map combine].
  eexists. split; [reflexivity|]. destruct (indexed_tail t 1) as [E F]. split; trivial.
  eapply Forall_impl; [|exact F]. cbn. intros; lia.
Qed.

Section ByDayGroups.

Variable p : BatteryParams.
Variable initialSOC : float64.
Variables socSteps powerSteps : Z.

Lemma dayStep_nonempty (acc acc1 : DayAcc) (ii : Z * LMPInterval) :
  dayStep p initialSOC socSteps powerSteps acc ii = Ok acc1 -> dayIntervals acc1 <> [].
Proof.
  destruct ii as [i it]. unfold dayStep.
  match goal with |- bind ?m _ = _ -> _ => destruct m as [a|e|e] end; try discriminate.
  cbn [bind]. intro E. inversion E; subst. cbn [dayIntervals].
  destruct (dayIntervals a); discriminate.
Qed.

Lemma dayLoop_nonempty (l : list (Z * LMPInterval)) (acc acc' : DayAcc) :
  dayIntervals acc <> [] ->
  slice.foldM (dayStep p initialSOC socSteps powerSteps) l acc = Ok acc' ->
  dayIntervals acc' <> [].
Proof.
  revert acc. induction l as [|ii l IH]; intros acc Hne Hrun; cbn [slice.foldM] in Hrun.
  - now inversion Hrun; subst.
  - destruct (dayStep p initialSOC socSteps powerSteps acc ii) as [acc1|e|e] eqn:E;
      try discriminate.
    cbn [bind] in Hrun. apply (IH acc1); trivial. eapply dayStep_nonempty; eassumption.
Qed.

(** The plan of [optimizeDPByDay] is the concatenation of the plans of the
    days, in the order of the days. *)
Lemma optimizeDPByDay_groups (intervals : list LMPInterval) (pl : list Dispatch) :
  optimizeDPByDay intervals p initialSOC socSteps powerSteps = Ok pl ->
  exists plans,
    Forall2 (fun g dayPlan => optimizeDP g p initialSOC socSteps powerSteps = Ok dayPlan)
            (splitDays intervals) plans
    /\ pl = List.concat plans.
Proof.
  unfold optimizeDPByDay. destruct intervals as [|x t]; [discriminate|].
  destruct (indexed_cons x t) as (rest & -> & Erest & Hrest).
  cbn [slice.foldM].
  assert (Efirst : dayStep p initialSOC socSteps powerSteps
                     {| dayIntervals := []; fullPlan := []; currentDay := zeroUnix |} (0%Z, x)
                   = Ok {| dayIntervals := [x]; fullPlan := []; currentDay := dayOf x |})
    by reflexivity.
  rewrite Efirst. cbn [bind].
  match goal with |- context [slice.foldM ?f rest ?a] =>
    destruct (slice.foldM f rest a) as [acc|e|e] eqn:Erun end; try discriminate.
  cbn [bind].
  assert (Hne : dayIntervals acc <> []).
  { eapply dayLoop_nonempty; [|exact Erun]. cbn. discriminate. }
  destruct (dayIntervals acc) as [|d0 dr] eqn:Ed; [contradiction|].
  destruct (optimizeDP (d0 :: dr) p initialSOC socSteps powerSteps)
    as [dayPlan|e|e] eqn:Eopt; try discriminate.
  cbn [bind].
  destruct (negb _); [discriminate|]. intro E. inversion E; subst pl; clear E.
  rewrite <- Ed in Eopt.
  destruct (@dayLoop_groups p initialSOC socSteps powerSteps rest
              {| dayIntervals := [x]; fullPlan := []; currentDay := dayOf x |}
              acc dayPlan) as (_ & plans & Hf & Hp); trivial.
  { cbn. discriminate. }
  { cbn. repeat constructor. }
  cbn [dayIntervals fullPlan app] in *. rewrite Erest in Hf.
  exists plans. split; trivial.
Qed.

End ByDayGroups.

Lemma Forall2_strengthen {A B} (R R' : A -> B -> Prop) (l1 : list A) (l2 : list B) :
  Forall2 R l1 l2 ->
  (forall x y, In x l1 -> R x y -> R' x y) ->
  Forall2 R' l1 l2.
Proof.
  intros H HR. induction H as [|x y l1 l2 Hxy _ IH]; constructor.
  - apply HR; [now left | trivial].
  - apply IH. intros a b Ha. apply HR. now right.
Qed.

(** C5.  For a non-empty series of intervals of positive duration and a valid
    battery, [NewOracleStrategy] returns a strategy, whatever the grid sizes
    (as long as the table sizes computed from them fit an int).  Its plan has
    one dispatch per interval: it is the concatenation, in the order of the
    days, of the plans [optimizeDP] computes for the days (the maximal runs
    of intervals starting on the same local calendar day), each as long as
    its day. *)
Theorem C5_oracle_plan_length
    (intervals : list LMPInterval) (b : model.Battery) (cfg : OracleParams) :
  valid b ->
  intervals <> [] ->
  Forall (fun it => positive_finite (DurationHours it) = true) intervals ->
  (SocSteps cfg < 2 ^ 63 - 1)%Z ->
  (PowerSteps cfg < 2 ^ 62)%Z ->
  exists o plans,
    NewOracleStrategy intervals (Params b) (SOC (State b)) cfg = Ok o
    /\ List.length (plan o) = List.length intervals
    /\ plan o = List.concat plans
    /\ List.concat (splitDays intervals) = intervals
    /\ Forall2
         (fun day dayPlan =>
            optimizeDP day (Params b) (SOC (State b))
              (if (SocSteps cfg <=? 0)%Z then 200%Z else SocSteps cfg)
              (if (PowerSteps cfg <=? 0)%Z then 10%Z else PowerSteps cfg) = Ok dayPlan
            /\ List.length dayPlan = List.length day)
         (splitDays intervals) plans.
Proof.
  intros Hv Hne Hpos Hss Hps.
  destruct (NewOracleStrategy_ok cfg Hv Hne Hpos Hss Hps) as (o & Eo & Hlen).
  pose proof Eo as Eo'. unfold NewOracleStrategy in Eo'.
  destruct intervals as [|i0 rest] eqn:Ei; [contradiction|]. rewrite <- Ei in *.
  destruct (optimizeDPByDay intervals (Params b) (SOC (State b)) _ _) as [pl|e|e] eqn:Ebd;
    try discriminate.
  cbn [bind] in Eo'. inversion Eo'; subst o; clear Eo'. cbn [plan] in *.
  destruct (optimizeDPByDay_groups _ _ _ _ _ Ebd) as (plans & Hf & Hp).
  exists {| plan := pl |}, plans. split; [exact Eo|]. split; [exact Hlen|].
  split; [exact Hp|]. split; [apply splitDays_concat|].
  eapply Forall2_strengthen; [exact Hf|]. cbv beta.
  intros day dayPlan Hday Hopt. split; trivial.
  destruct (valid_inv Hv) as (q & s & Eb & V & _). rewrite Eb in *.
  cbn [Params State SOC battery_of] in *.
  assert (Hdaypos : Forall (fun it => positive_finite (DurationHours it) = true) day).
  { apply Forall_forall. intros it Hit. rewrite Forall_forall in Hpos. apply Hpos.
    rewrite <- (splitDays_concat intervals). apply in_concat. eauto. }
  destruct (@optimizeDP_ok q day s
              (if (SocSteps cfg <=? 0)%Z then 200%Z else SocSteps cfg)
              (if (PowerSteps cfg <=? 0)%Z then 10%Z else PowerSteps cfg) V Hdaypos)
    as (pl' & Epl' & Hlen').
  - destruct (SocSteps cfg <=? 0)%Z; lia.
  - destruct (PowerSteps cfg <=? 0)%Z eqn:E; [lia|]. apply Z.leb_gt in E. lia.
  - rewrite Hopt in Epl'. inversion Epl'; subst pl'. exact Hlen'.
Qed.

Lemma C5_witness :
  exists o plans,
    NewOracleStrategy sampleDay (Params sampleBattery) (SOC (State sampleBattery))
      {| SocSteps := 200; PowerSteps := 10 |} = Ok o
    /\ List.length (plan o) = List.length sampleDay
    /\ plan o = List.concat plans
    /\ List.concat (splitDays sampleDay) = sampleDay
    /\ Forall2
         (fun day dayPlan =>
            optimizeDP day (Params sampleBattery) (SOC (State sampleBattery)) 200 10
              = Ok dayPlan
            /\ List.length dayPlan = List.length day)
         (splitDays sampleDay) plans.
Proof.
  apply (@C5_oracle_plan_length sampleDay sampleBattery {| SocSteps := 200; PowerSteps := 10 |}).
  - exact sampleBattery_valid.
  - discriminate.
  - repeat constructor.
  - reflexivity.
  - reflexivity.
Defined.

End OracleDays.

(** ** The scenarios of the specification, evaluated *)

Section Scenarios.

Import model strategy backtest.

(** Charging at the SOC ceiling moves no energy. *)
Example charge_at_ceiling :
  exists res b',
    ApplyDispatch {| Params := {| EnergyCapacityMWh := Fin 100; PowerCapacityMW := Fin 50;
                                  ChargeEfficiency := Fin 1; DischargeEfficiency := Fin 1;
                                  MinSOC := Fin 0; MaxSOC := Fin (9 # 10);
                                  DegradationCostPerMWh := Fin 0 |};
                     State := {| SOC := Fin (9 # 10) |} |}
                  (Fin 50) {| model.PowerMW := Fin (-50) |} (Fin 1) = (Ok res, b')
    /\ (rPowerMW res == f0)%f64
    /\ (rEnergyFromGridMWh res == f0)%f64
    /\ (SOC (State b') == Fin (9 # 10))%f64
    /\ (rPNL res == f0)%f64.
Proof.
  do 2 eexists. split; [vm_compute; reflexivity|]. repeat split; reflexivity.
Qed.

(** A request beyond the power capacity is clipped to it; charging 50 MWh at
    90 percent efficiency stores 45 MWh. *)
Example round_trip_first_hour :
  exists res b',
    ApplyDispatch sampleBattery (Fin 10) {| model.PowerMW := Fin (-80) |} (Fin 1) = (Ok res, b')
    /\ (rPowerMW res == Fin (-50))%f64
    /\ (rEnergyFromGridMWh res == Fin 50)%f64
    /\ (SOC (State b') == Fin (95 # 100))%f64
    /\ (rPNL res == Fin (-500))%f64.
Proof.
  do 2 eexists. split; [vm_compute; reflexivity|]. repeat split; reflexivity.
Qed.

(** A wrapping window from 22:00 to 02:00. *)
Example wrap_around_window :
  inWindow 1350 1320 120 = true /\ inWindow 90 1320 120 = true
  /\ inWindow 120 1320 120 = false /\ inWindow 1319 1320 120 = false
  /\ inWindow 600 600 600 = false.
Proof. repeat split. Qed.

Example parseHHMM_2205 : parseHHMM " 22:05 " = Ok 1325%Z.
Proof. reflexivity. Qed.

Example parseHHMM_2400 : is_ok (parseHHMM "24:00") = false.
Proof. reflexivity. Qed.

End Scenarios.

(** * Further properties of the code *)

(** ** Laws of the maps *)

Section MapLaws.

Context {K V : Type}.
Variable eqb : K -> K -> bool.
Hypothesis eqb_spec : forall a b, reflect (a = b) (eqb a b).

Lemma eqb_same (k : K) : eqb k k = true.
Proof. destruct (eqb_spec k k); [reflexivity | contradiction]. Qed.

Lemma lookup_store (m : list (K * V)) (k k' : K) (v : V) :
  gomap.lookup eqb (gomap.store eqb m k v) k'
  = if eqb k k' then Some v else gomap.lookup eqb m k'.
Proof.
  induction m as [|[k0 v0] m IH]; cbn [gomap.store gomap.lookup].
  - reflexivity.
  - destruct (eqb_spec k0 k) as [->|Hn]; cbn [gomap.lookup].
    + destruct (eqb k k'); reflexivity.
    + rewrite IH. destruct (eqb_spec k0 k') as [->|Hn'].
      * destruct (eqb_spec k k') as [->|_]; [contradiction | reflexivity].
      * reflexivity.
Qed.

Lemma store_keys (m : list (K * V)) (k : K) (v : V) :
  NoDup (map fst m) -> NoDup (map fst (gomap.store eqb m k v))
  /\ forall k', In k' (map fst (gomap.store eqb m k v)) -> k' = k \/ In k' (map fst m).
Proof.
  induction m as [|[k0 v0] m IH]; cbn [gomap.store map fst]; intro Hnd.
  - split; [repeat constructor; intros [] | intros k' [<-|[]]; now left].
  - inversion Hnd as [|? ? Hk0 Hm]; subst.
    destruct (eqb_spec k0 k) as [->|Hn]; cbn [map fst].
    + split; [exact Hnd | intros k' Hk'; now right].
    + destruct (IH Hm) as [IH1 IH2]. split.
      * constructor; trivial. intro Hin. destruct (IH2 _ Hin) as [E|Hin']; contradiction.
      * intros k' [<-|Hk']; [right; now left|]. destruct (IH2 _ Hk'); auto. right. now right.
Qed.

Lemma lookup_not_in (m : list (K * V)) (k : K) :
  ~ In k (map fst m) -> gomap.lookup eqb m k = None.
Proof.
  induction m as [|[k0 v0] m IH]; cbn [gomap.lookup map fst]; trivial.
  intro Hn. destruct (eqb_spec k0 k) as [->|_].
  - exfalso. apply Hn. now left.
  - apply IH. intro Hin. apply Hn. now right.
Qed.

Lemma lookup_in (m : list (K * V)) (k : K) (v : V) :
  gomap.lookup eqb m k = Some v -> In (k, v) m.
Proof.
  induction m as [|[k0 v0] m IH]; cbn [gomap.lookup]; [discriminate|].
  destruct (eqb_spec k0 k) as [->|_].
  - intro E. inversion E; subst. now left.
  - intro E. right. now apply IH.
Qed.

Lemma in_lookup (m : list (K * V)) (k : K) (v : V) :
  NoDup (map fst m) -> In (k, v) m -> gomap.lookup eqb m k = Some v.
Proof.
  induction m as [|[k0 v0] m IH]; cbn [gomap.lookup map fst]; [intros _ []|].
  intros Hnd [E|Hin]; inversion Hnd as [|? ? Hk0 Hm]; subst.
  - inversion E; subst. now rewrite eqb_same.
  - destruct (eqb_spec k0 k) as [->|_]; [|now apply IH].
    exfalso. apply Hk0. apply in_map_iff. now exists (k, v).
Qed.

Lemma delete_keys (m : list (K * V)) (k : K) :
  NoDup (map fst m) ->
  NoDup (map fst (gomap.delete eqb m k))
  /\ forall k', gomap.lookup eqb (gomap.delete eqb m k) k'
                = if eqb k k' then None else gomap.lookup eqb m k'.
Proof.
  induction m as [|[k0 v0] m IH]; cbn [gomap.delete gomap.lookup map fst]; intro Hnd.
  - split; [constructor|]. intro k'. now destruct (eqb k k').
  - inversion Hnd as [|? ? Hk0 Hm]; subst.
    destruct (eqb_spec k0 k) as [->|Hn].
    + split; trivial. intro k'. destruct (eqb_spec k k') as [<-|_]; [|reflexivity].
      now apply lookup_not_in.
    + destruct (IH Hm) as [IH1 IH2]. cbn [map fst gomap.lookup]. split.
      * constructor; trivial. intro Hin. apply Hk0.
        clear - Hin. induction m as [|[k1 v1] m IHm]; cbn in *; [contradiction|].
        destruct (eqb k1 k); cbn in *; [now right|].
        destruct Hin; [now left | right; auto].
      * intro k'. rewrite IH2.
        destruct (eqb_spec k0 k') as [->|_]; [|reflexivity].
        destruct (eqb_spec k k') as [->|_]; [contradiction | reflexivity].
Qed.

Lemma lookup_none (m : list (K * V)) (k : K) :
  gomap.lookup eqb m k = None <-> ~ In k (map fst m).
Proof.
  split; [|apply lookup_not_in].
  induction m as [|[k0 v0] m IH]; cbn [gomap.lookup map fst]; [intros _ []|].
  destruct (eqb_spec k0 k) as [->|Hn]; [discriminate|].
  intros E [E'|Hin]; [contradiction | now apply IH].
Qed.

Lemma store_present (m : list (K * V)) (k : K) (v v' : V) :
  gomap.lookup eqb m k = Some v ->
  exists l1 l2,
    m = l1 ++ (k, v) :: l2
    /\ gomap.store eqb m k v' = l1 ++ (k, v') :: l2.
Proof.
  induction m as [|[k0 v0] m IH]; cbn [gomap.lookup gomap.store]; [discriminate|].
  destruct (eqb_spec k0 k) as [->|Hn].
  - intro E. inversion E; subst. exists [], m. split; reflexivity.
  - intro E. destruct (IH E) as (l1 & l2 & -> & ->).
    exists ((k0, v0) :: l1), l2. split; reflexivity.
Qed.

Lemma store_absent (m : list (K * V)) (k : K) (v' : V) :
  gomap.lookup eqb m k = None -> gomap.store eqb m k v' = m ++ [(k, v')].
Proof.
  induction m as [|[k0 v0] m IH]; cbn [gomap.lookup gomap.store app]; trivial.
  destruct (eqb_spec k0 k) as [->|Hn]; [discriminate|].
  intro E. now rewrite IH.
Qed.

Lemma lookup_own_keys {W} (f : V -> W) (m : list (K * V)) :
  NoDup (map fst m) ->
  flat_map (fun k => match gomap.lookup eqb m k with
                     | Some v => [f v]
                     | None => []
                     end) (map fst m)
  = map f (map snd m).
Proof.
  induction m as [|[k0 v0] m IH]; cbn [map fst snd flat_map gomap.lookup]; trivial.
  intro Hnd. inversion Hnd as [|? ? Hk0 Hm]; subst.
  rewrite eqb_same. cbn [app]. f_equal. rewrite <- (IH Hm).
  clear IH Hnd Hm. induction (map fst m) as [|k ks IHk]; cbn [flat_map]; trivial.
  rewrite IHk by (intro Hin; apply Hk0; now right).
  destruct (eqb_spec k0 k) as [->|_]; [|reflexivity].
  exfalso. apply Hk0. now left.
Qed.

End MapLaws.

(** ** One interval of the battery, seen from outside *)

Section StepFacts.

Import model strategy.

Local Open Scope Q_scope.

(** Clipping keeps the direction of a request and never enlarges it. *)
Lemma clip_direction (q : QParams) (s x : Q) :
  QValid q ->
  exists p, PowerMW (ClipDispatch (battery_of q s) {| PowerMW := Fin x |}) = Fin p
    /\ - qP q <= p <= qP q
    /\ (x <= 0 -> x <= p <= 0) /\ (0 <= x -> 0 <= p <= x).
Proof.
  intros []. unfold ClipDispatch. fcbn.
  destruct (Qltb (qP q) x) eqn:E1; [apply Qltb_true in E1 | apply Qltb_false in E1]; fcbn.
  - destruct (Qltb (qP q) (- qP q)) eqn:E2; [apply Qltb_true in E2 | apply Qltb_false in E2].
    + exfalso; lra.
    + eexists; split; [reflexivity|]. repeat split; lra.
  - destruct (Qltb x (- qP q)) eqn:E2; [apply Qltb_true in E2 | apply Qltb_false in E2].
    + eexists; split; [reflexivity|]. repeat split; lra.
    + eexists; split; [reflexivity|]. repeat split; lra.
Qed.

Lemma clip_follows (q : QParams) (s : Q) (x : float64) :
  QValid q ->
  (x = NaN /\ PowerMW (ClipDispatch (battery_of q s) {| PowerMW := x |}) = NaN)
  \/ exists p, PowerMW (ClipDispatch (battery_of q s) {| PowerMW := x |}) = Fin p
               /\ - qP q <= p <= qP q /\ follows x p.
Proof.
  intro V. destruct x as [xx| | |].
  - right. destruct (clip_direction s xx V) as (p & Hp & Hr & Hd). exists p. repeat split; tauto.
  - right. pose proof V as V'. destruct V'. exists (qP q). unfold ClipDispatch. fcbn.
    destruct (Qltb (qP q) (- qP q)) eqn:E2; [apply Qltb_true in E2 | apply Qltb_false in E2].
    + exfalso; lra.
    + repeat split; simpl; lra.
  - right. pose proof V as V'. destruct V'. exists (- qP q). unfold ClipDispatch. fcbn.
    repeat split; simpl; lra.
  - left. split; reflexivity.
Qed.

Lemma ApplyDispatch_step (q : QParams) (s t : Q) (lmp x : float64) :
  QValid q -> qMin q <= s <= qMax q -> 0 < t ->
  exists pr ef et th s',
    ApplyDispatch (battery_of q s) lmp {| PowerMW := x |} (Fin t)
    = (Ok {| rPowerMW := Fin pr; rEnergyToGridMWh := Fin et;
             rEnergyFromGridMWh := Fin ef; rThroughputMWh := Fin th;
             rSOCStart := Fin s; rSOCEnd := Fin s';
             rPNL := CalculateIntervalPnL (battery_of q s') lmp (Fin ef) (Fin et) |},
       battery_of q s')
    /\ qMin q <= s' <= qMax q
    /\ 0 <= ef /\ 0 <= et /\ (ef == 0 \/ et == 0) /\ th == ef + et
    /\ pr * t == et - ef
    /\ (s' - s) * qE q == ef * qCe q - et / qDe q
    /\ ef <= qP q * t /\ et <= qP q * t
    /\ ef * qCe q <= (qMax q - s) * qE q /\ et <= (s - qMin q) * qE q * qDe q
    /\ - qP q <= pr <= qP q /\ follows x pr.
Proof.
  intros V Hs Ht. pose proof V as V'. destruct V'.
  assert (Z0 : 0 / qDe q == 0) by (field; lra).
  assert (Hd0 : 0 <= (s - qMin q) * qE q * qDe q).
  { apply Qmult_le_0_compat; [apply Qmult_le_0_compat|]; lra. }
  assert (Hc0 : 0 <= (qMax q - s) * qE q) by (apply Qmult_le_0_compat; lra).
  assert (Hpt : 0 <= qP q * t) by (apply Qmult_le_0_compat; lra).
  destruct (clip_follows s x V) as [[-> Hc]|(p & Hc & Hr & Hf)].
  - rewrite (ApplyDispatch_idle q s Ht lmp _ (or_introl Hc)).
    exists 0, 0, 0, 0, s. split; [reflexivity|].
    rewrite Z0. repeat split; simpl; try lra.
  - destruct (Q_dec p 0) as [[Hn|Hp0]|Hz].
    + destruct (ApplyDispatch_charge V Hs Ht lmp _ Hc Hn) as (r & pr & s' & -> & Er & Ep & Es).
      destruct (qMaxCharge_bounds V Hs Ht) as (B0 & B1 & B2).
      assert (Hr0 : 0 <= r).
      { rewrite Er. unfold qFromGrid. apply Q.min_glb; trivial.
        setoid_replace 0 with (- 0 * t) by ring.
        apply Qmult_le_compat_r; lra. }
      assert (Hr1 : r <= qMaxCharge q s t) by (rewrite Er; apply Q.le_min_r).
      assert (Hr2 : r <= - p * t) by (rewrite Er; apply Q.le_min_l).
      assert (0 <= r * qCe q) by (apply Qmult_le_0_compat; lra).
      assert (r * qCe q <= qMaxCharge q s t * qCe q) by (apply Qmult_le_compat_r; lra).
      exists pr, r, 0, r, s'. split; [reflexivity|].
      assert (s <= s') by (apply (Qmult_le_r _ _ (qE q)); lra).
      assert (s' <= qMax q) by (apply (Qmult_le_r _ _ (qE q)); lra).
      assert (Hpr1 : p <= pr) by (apply (Qmult_le_r _ _ t); lra).
      assert (Hpr2 : pr <= 0) by (apply (Qmult_le_r _ _ t); lra).
      rewrite Z0.
      assert (Hfo : follows x pr).
      { destruct x as [xx| | |]; simpl in *; try lra. }
      repeat split; try lra; trivial.
    + destruct (ApplyDispatch_discharge V Hs Ht lmp _ Hc Hp0) as (r & pr & s' & -> & Er & Ep & Es).
      destruct (qMaxDischarge_bounds V Hs Ht) as (B0 & B1 & B2).
      assert (Hr0 : 0 <= r).
      { rewrite Er. unfold qToGrid. apply Q.min_glb; trivial.
        apply Qmult_le_0_compat; lra. }
      assert (Hr1 : r <= qMaxDischarge q s t) by (rewrite Er; apply Q.le_min_r).
      assert (Hr2 : r <= p * t) by (rewrite Er; apply Q.le_min_l).
      assert (Hw : 0 <= r / qDe q <= (s - qMin q) * qE q) by (apply Qdiv_bounds; lra).
      exists pr, 0, r, r, s'. split; [reflexivity|].
      assert (s' <= s) by (apply (Qmult_le_r _ _ (qE q)); lra).
      assert (qMin q <= s') by (apply (Qmult_le_r _ _ (qE q)); lra).
      assert (Hpr1 : pr <= p) by (apply (Qmult_le_r _ _ t); lra).
      assert (Hpr2 : 0 <= pr) by (apply (Qmult_le_r _ _ t); lra).
      assert (Hfo : follows x pr).
      { destruct x as [xx| | |]; simpl in *; try lra. }
      repeat split; try lra; trivial.
    + rewrite (ApplyDispatch_idle q s Ht lmp _ (or_intror (ex_intro _ p (conj Hc Hz)))).
      exists 0, 0, 0, 0, s. split; [reflexivity|].
      rewrite Z0.
      assert (Hfo : follows x 0).
      { destruct x as [xx| | |]; simpl in *; try lra. }
      repeat split; try lra; trivial.
Qed.


(** X1.  For a valid battery and a positive duration, the realized power of
    ApplyDispatch is a finite number whose magnitude is at most
    PowerCapacityMW; it has the direction of the request and is never larger
    than it: a request <= 0 gives request <= realized <= 0, a request >= 0
    gives 0 <= realized <= request. *)
Theorem ApplyDispatch_power_follows_request
    (b : model.Battery) (lmp x dt : float64) :
  valid b -> positive_finite dt = true ->
  exists res b',
    ApplyDispatch b lmp {| PowerMW := x |} dt = (Ok res, b')
    /\ (Abs (rPowerMW res) <=? PowerCapacityMW (Params b))%f64 = true
    /\ ((x <=? f0)%f64 = true ->
        (x <=? rPowerMW res)%f64 = true /\ (rPowerMW res <=? f0)%f64 = true)
    /\ ((x >=? f0)%f64 = true ->
        (rPowerMW res >=? f0)%f64 = true /\ (rPowerMW res <=? x)%f64 = true).
Proof.
  intros Hv Hdt.
  destruct (valid_inv Hv) as (q & s & -> & V & Hs).
  destruct (positive_finite_inv _ Hdt) as (t & -> & Ht).
  destruct (ApplyDispatch_step lmp x V Hs Ht)
    as (pr & ef & et & th & s' & -> & _ & _ & _ & _ & _ & _ & _ & _ & _ & _ & _ & Hr & Hf).
  do 2 eexists. split; [reflexivity|].
  cbn [rPowerMW Params battery_of PowerCapacityMW params_of Abs le ge].
  split; [|split].
  - apply Qle_bool_iff. apply Qabs_Qle_condition. exact Hr.
  - destruct x as [xx| | |]; simpl in *; try discriminate.
    + intro H. apply Qle_bool_iff in H. rewrite !Qle_bool_iff. tauto.
    + intros _. split; trivial. now apply Qle_bool_iff.
  - destruct x as [xx| | |]; simpl in *; try discriminate.
    + intro H. apply Qle_bool_iff in H. rewrite !Qle_bool_iff. tauto.
    + intros _. split; trivial. now apply Qle_bool_iff.
Qed.

Lemma ApplyDispatch_power_follows_request_witness :
  exists res b',
    ApplyDispatch sampleBattery (Fin 10) {| PowerMW := Fin (-80) |} (Fin 1) = (Ok res, b')
    /\ (Abs (rPowerMW res) <=? PowerCapacityMW (Params sampleBattery))%f64 = true
    /\ ((Fin (-80) <=? f0)%f64 = true ->
        (Fin (-80) <=? rPowerMW res)%f64 = true /\ (rPowerMW res <=? f0)%f64 = true)
    /\ ((Fin (-80) >=? f0)%f64 = true ->
        (rPowerMW res >=? f0)%f64 = true /\ (rPowerMW res <=? Fin (-80))%f64 = true).
Proof.
  apply (@ApplyDispatch_power_follows_request sampleBattery (Fin 10) (Fin (-80)) (Fin 1)).
  - repeat split.
  - reflexivity.
Defined.

(** X2.  For a valid battery and a positive duration, the energies
    ApplyDispatch reports are consistent: EnergyFromGridMWh and
    EnergyToGridMWh are non-negative, at most one of them is non-zero, and
    ThroughputMWh is their sum. *)
Theorem ApplyDispatch_energy_accounts
    (b : model.Battery) (lmp : float64) (d : Dispatch) (dt : float64) :
  valid b -> positive_finite dt = true ->
  exists res b',
    ApplyDispatch b lmp d dt = (Ok res, b')
    /\ (rEnergyFromGridMWh res >=? f0)%f64 = true
    /\ (rEnergyToGridMWh res >=? f0)%f64 = true
    /\ ((rEnergyFromGridMWh res == f0)%f64 \/ (rEnergyToGridMWh res == f0)%f64)
    /\ (rThroughputMWh res == rEnergyFromGridMWh res + rEnergyToGridMWh res)%f64.
Proof.
  intros Hv Hdt.
  destruct (valid_inv Hv) as (q & s & -> & V & Hs).
  destruct (positive_finite_inv _ Hdt) as (t & -> & Ht).
  destruct d as [x].
  destruct (ApplyDispatch_step lmp x V Hs Ht)
    as (pr & ef & et & th & s' & -> & _ & Hef & Het & Hz & Hth & _).
  do 2 eexists. split; [reflexivity|].
  cbn [rPowerMW rEnergyFromGridMWh rEnergyToGridMWh rThroughputMWh ge le same add sub mul neg f0].
  rewrite !Qle_bool_iff. repeat split; trivial.
Qed.

Lemma ApplyDispatch_energy_accounts_witness :
  exists res b',
    ApplyDispatch sampleBattery (Fin 10) {| PowerMW := Fin (-80) |} (Fin 1) = (Ok res, b')
    /\ (rEnergyFromGridMWh res >=? f0)%f64 = true
    /\ (rEnergyToGridMWh res >=? f0)%f64 = true
    /\ ((rEnergyFromGridMWh res == f0)%f64 \/ (rEnergyToGridMWh res == f0)%f64)
    /\ (rThroughputMWh res == rEnergyFromGridMWh res + rEnergyToGridMWh res)%f64.
Proof.
  apply (@ApplyDispatch_energy_accounts sampleBattery (Fin 10) {| PowerMW := Fin (-80) |} (Fin 1)).
  - repeat split.
  - reflexivity.
Defined.

(** X3.  For a valid battery and a positive duration, one interval never moves
    more grid energy than the limits the code computes: neither energy exceeds
    PowerCapacityMW x duration, EnergyFromGridMWh is at most (MaxSOC - SOC) x
    EnergyCapacityMWh / ChargeEfficiency, and EnergyToGridMWh is at most (SOC
    - MinSOC) x EnergyCapacityMWh x DischargeEfficiency. *)
Theorem ApplyDispatch_energy_limits
    (b : model.Battery) (lmp : float64) (d : Dispatch) (dt : float64) :
  valid b -> positive_finite dt = true ->
  exists res b',
    ApplyDispatch b lmp d dt = (Ok res, b')
    /\ (rEnergyFromGridMWh res <=? PowerCapacityMW (Params b) * dt)%f64 = true
    /\ (rEnergyToGridMWh res <=? PowerCapacityMW (Params b) * dt)%f64 = true
    /\ (rEnergyFromGridMWh res
        <=? (MaxSOC (Params b) - SOC (State b)) * EnergyCapacityMWh (Params b)
            / ChargeEfficiency (Params b))%f64 = true
    /\ (rEnergyToGridMWh res
        <=? (SOC (State b) - MinSOC (Params b)) * EnergyCapacityMWh (Params b)
            * DischargeEfficiency (Params b))%f64 = true.
Proof.
  intros Hv Hdt.
  destruct (valid_inv Hv) as (q & s & -> & V & Hs).
  destruct (positive_finite_inv _ Hdt) as (t & -> & Ht).
  destruct d as [x].
  destruct (ApplyDispatch_step lmp x V Hs Ht)
    as (pr & ef & et & th & s' & -> & _ & _ & _ & _ & _ & _ & _ & H1 & H2 & H3 & H4 & _).
  do 2 eexists. split; [reflexivity|].
  cbn [rEnergyFromGridMWh rEnergyToGridMWh Params State SOC battery_of params_of
       PowerCapacityMW ChargeEfficiency DischargeEfficiency MaxSOC MinSOC EnergyCapacityMWh].
  pose proof V as V'. destruct V'.
  cbn [add sub mul neg].
  rewrite div_Fin by lra.
  cbn [le].
  rewrite !Qle_bool_iff. repeat split; trivial.
  apply Qle_shift_div_l; trivial.
Qed.

Lemma ApplyDispatch_energy_limits_witness :
  exists res b',
    ApplyDispatch sampleBattery (Fin 10) {| PowerMW := Fin 80 |} (Fin 1) = (Ok res, b')
    /\ (rEnergyFromGridMWh res <=? PowerCapacityMW (Params sampleBattery) * Fin 1)%f64 = true
    /\ (rEnergyToGridMWh res <=? PowerCapacityMW (Params sampleBattery) * Fin 1)%f64 = true
    /\ (rEnergyFromGridMWh res
        <=? (MaxSOC (Params sampleBattery) - SOC (State sampleBattery))
            * EnergyCapacityMWh (Params sampleBattery)
            / ChargeEfficiency (Params sampleBattery))%f64 = true
    /\ (rEnergyToGridMWh res
        <=? (SOC (State sampleBattery) - MinSOC (Params sampleBattery))
            * EnergyCapacityMWh (Params sampleBattery)
            * DischargeEfficiency (Params sampleBattery))%f64 = true.
Proof.
  apply (@ApplyDispatch_energy_limits sampleBattery (Fin 10) {| PowerMW := Fin 80 |} (Fin 1)).
  - repeat split.
  - reflexivity.
Defined.

(** X4.  A valid battery at MaxSOC asked to charge (request <= 0), or at
    MinSOC asked to discharge (request >= 0), moves no energy:
    EnergyFromGridMWh, EnergyToGridMWh and ThroughputMWh are zero, and for a
    finite LMP the PnL of the interval is zero. *)
Theorem ApplyDispatch_at_soc_limit
    (b : model.Battery) (lmp x dt : float64) :
  valid b -> positive_finite dt = true ->
  ((SOC (State b) >=? MaxSOC (Params b))%f64 = true /\ (x <=? f0)%f64 = true)
  \/ ((SOC (State b) <=? MinSOC (Params b))%f64 = true /\ (x >=? f0)%f64 = true) ->
  exists res b',
    ApplyDispatch b lmp {| PowerMW := x |} dt = (Ok res, b')
    /\ (rEnergyFromGridMWh res == f0)%f64
    /\ (rEnergyToGridMWh res == f0)%f64
    /\ (rThroughputMWh res == f0)%f64
    /\ (is_finite lmp = true -> (rPNL res == f0)%f64).
Proof.
  intros Hv Hdt Hlim.
  destruct (valid_inv Hv) as (q & s & -> & V & Hs).
  destruct (positive_finite_inv _ Hdt) as (t & -> & Ht).
  pose proof V as V'. destruct V'.
  destruct (ApplyDispatch_step lmp x V Hs Ht)
    as (pr & ef & et & th & s' & -> & _ & Hef & Het & Hz & Hth & Hp & Hb & _ & _ & H3 & H4 & Hr & Hf).
  do 2 eexists. split; [reflexivity|].
  cbn [rPowerMW rEnergyFromGridMWh rEnergyToGridMWh rThroughputMWh rPNL Params State SOC
       battery_of params_of same f0].
  cbn [Params State SOC battery_of params_of MaxSOC MinSOC ge le f0] in Hlim.
  remember (et / qDe q) as w eqn:Ew.
  assert (Hprs : x <> NaN -> (pr <= 0 -> et == 0) /\ (0 <= pr -> ef == 0)).
  { intros _. split; intro Hs0.
    - assert (pr * t <= 0 * t) by (apply Qmult_le_compat_r; lra). destruct Hz; lra.
    - assert (0 <= pr * t) by (apply Qmult_le_0_compat; lra). destruct Hz; lra. }
  assert (Hall : ef == 0 /\ et == 0).
  { destruct Hlim as [[H1 H2]|[H1 H2]].
    - apply Qle_bool_iff in H1.
      assert (Hsm : (qMax q - s) * qE q == 0).
      { assert (Hsq : s == qMax q) by lra. rewrite Hsq. ring. }
      assert (0 <= ef * qCe q) by (apply Qmult_le_0_compat; lra).
      assert (Hef0 : ef == 0).
      { assert (E0 : ef * qCe q == 0 * qCe q) by lra.
        apply Qmult_inj_r in E0; lra. }
      split; trivial.
      destruct x as [xx| | |]; simpl in *; try discriminate.
      + apply Qle_bool_iff in H2. apply Hprs; [discriminate | tauto].
      + apply Hprs; [discriminate | tauto].
    - apply Qle_bool_iff in H1.
      assert (Hsm : (s - qMin q) * qE q * qDe q == 0).
      { assert (Hsq : s == qMin q) by lra. rewrite Hsq. ring. }
      assert (Het0 : et == 0) by lra.
      split; trivial.
      destruct x as [xx| | |]; simpl in *; try discriminate.
      + apply Qle_bool_iff in H2. apply Hprs; [discriminate | tauto].
      + apply Hprs; [discriminate | tauto]. }
  destruct Hall as [Hef0 Het0].
  repeat split; trivial; try lra.
  destruct lmp as [l| | |]; try discriminate. intros _.
  unfold CalculateIntervalPnL. cbn. rewrite Hef0, Het0. ring.
Qed.

Lemma ApplyDispatch_at_soc_limit_witness :
  exists res b',
    ApplyDispatch fullBattery (Fin 10) {| PowerMW := Fin (-20) |} (Fin 1) = (Ok res, b')
    /\ (rEnergyFromGridMWh res == f0)%f64
    /\ (rEnergyToGridMWh res == f0)%f64
    /\ (rThroughputMWh res == f0)%f64
    /\ (is_finite (Fin 10) = true -> (rPNL res == f0)%f64).
Proof.
  apply (@ApplyDispatch_at_soc_limit fullBattery (Fin 10) (Fin (-20)) (Fin 1)).
  - repeat split.
  - reflexivity.
  - left. split; reflexivity.
Defined.

End StepFacts.

(** ** The ledger of a run *)

Section LedgerTheorems.

Import model strategy backtest.

Section PassLemmas.

Context {St : Type} `{Strategy St}.

Lemma runLoop_passes (l : list (Z * LMPInterval)) (st st' : RunState St) (u : unit) :
  runLoop l st = (Ok u, st') ->
  exists rows,
    ledger st' = ledger st ++ rows
    /\ cum st' = fold_left (fun c row => (c + PNL row)%f64) rows (cum st)
    /\ passes (batt st) (strat st) (cum st) l rows (batt st') (strat st').
Proof.
  revert st. induction l as [|[idx it] l IH]; intros st E; cbn [runLoop] in E.
  - inversion E; subst. exists []. rewrite app_nil_r. repeat split. constructor.
  - destruct (runStep st (idx, it)) as [[u0|e|e] st1] eqn:E1; try discriminate.
    unfold runStep in E1.
    destruct (Decide (strat st) _) as [[req|e|e] s1] eqn:Ed; try discriminate.
    cbn [batt strat ledger cum] in E1.
    destruct (ApplyDispatch (batt st) (model.LMP it) req (DurationHours it))
      as [[res|e|e] b1] eqn:Ea; try discriminate.
    cbn [batt strat ledger cum] in E1. inversion E1; subst st1; clear E1.
    destruct (IH _ E) as (rows & El & Ec & Hp). cbn [batt strat ledger cum] in *.
    exists (rowOf idx it req res (cum st + rPNL res)%f64 :: rows).
    split; [|split].
    + rewrite El, <- app_assoc. reflexivity.
    + exact Ec.
    + econstructor; eassumption.
Qed.

(** A run that returns a result is a pass over its indexed intervals. *)
Lemma Run_passes (intervals : list LMPInterval) (b : option model.Battery) (s : option St)
    (r : Result) :
  returned (Run intervals b s) = Ok r ->
  exists b0 s0 b' s',
    b = Some b0 /\ s = Some s0
    /\ passes b0 s0 f0 (slice.indexed intervals) (Ledger r) b' s'
    /\ FinalSOC r = SOC (State b')
    /\ battAfter (Run intervals b s) = Some b'
    /\ stratAfter (Run intervals b s) = Some s'.
Proof.
  unfold Run. destruct b as [b0|]; [|discriminate].
  destruct s as [s0|]; [|discriminate].
  destruct intervals as [|i0 rest] eqn:Ei; [discriminate|]. rewrite <- Ei.
  destruct (runLoop (slice.indexed intervals) _) as [[u|e|e] st] eqn:E;
    cbn [returned battAfter stratAfter]; try discriminate.
  intro Hr. inversion Hr; subst r; clear Hr. cbn [Ledger FinalSOC].
  destruct (runLoop_passes _ _ E) as (rows & El & _ & Hp).
  cbn [batt strat ledger cum app] in *. subst rows.
  exists b0, s0, (batt st), (strat st). repeat split; trivial.
Qed.

Lemma passes_market (b : model.Battery) (s : St) (c : float64) (l : list (Z * LMPInterval))
    (rows : list LedgerRow) (b' : model.Battery) (s' : St) :
  passes b s c l rows b' s' ->
  map Index rows = map fst l
  /\ map rowMarket rows = map (fun ii => intervalMarket (snd ii)) l.
Proof.
  induction 1 as [|b s c idx it req s1 res b1 l rows b2 s2 Hd Ha Hp [IH1 IH2]].
  - split; reflexivity.
  - cbn [map fst snd]. rewrite IH1, IH2. split; reflexivity.
Qed.

Lemma ApplyDispatch_ok_soc (b b1 : model.Battery) (lmp : float64) (d : Dispatch)
    (dt : float64) (res : IntervalResult) :
  ApplyDispatch b lmp d dt = (Ok res, b1) ->
  rSOCStart res = SOC (State b) /\ rSOCEnd res = SOC (State b1)
  /\ Params b1 = Params b /\ (dt <=? f0)%f64 = false.
Proof.
  unfold ApplyDispatch.
  destruct (dt <=? f0)%f64; [discriminate|].
  cbv zeta.
  repeat match goal with
  | |- context [if ?c then _ else _] => destruct c
  end; intro E; inversion E; subst; repeat split.
Qed.

Lemma last_shift {A} (l : list A) (x d : A) : last (x :: l) d = last l x.
Proof.
  revert x d. induction l as [|y l IH]; intros x d; [reflexivity|].
  change (last (x :: y :: l) d) with (last (y :: l) d).
  now rewrite !IH.
Qed.

Lemma passes_soc (b : model.Battery) (s : St) (c : float64) (l : list (Z * LMPInterval))
    (rows : list LedgerRow) (b' : model.Battery) (s' : St) :
  passes b s c l rows b' s' ->
  soc_chain (SOC (State b)) rows
  /\ SOC (State b') = last (map SOCEnd rows) (SOC (State b))
  /\ Params b' = Params b.
Proof.
  induction 1 as [|b s c idx it req s1 res b1 l rows b2 s2 Hd Ha Hp (IH1 & IH2 & IH3)].
  - repeat split.
  - destruct (ApplyDispatch_ok_soc _ _ _ _ Ha) as (H1 & H2 & H3 & _).
    cbn [soc_chain rowOf SOCStart SOCEnd map]. rewrite H2. split; [|split].
    + split; trivial.
    + rewrite IH2. symmetry. apply last_shift.
    + congruence.
Qed.

End PassLemmas.

Lemma map_fst_indexed {A} (l : list A) :
  map fst (slice.indexed l) = slice.range (Z.of_nat (List.length l))
  /\ map snd (slice.indexed l) = l.
Proof.
  unfold slice.indexed.
  assert (Hlen : List.length (slice.range (Z.of_nat (List.length l))) = List.length l).
  { rewrite range_length. lia. }
  revert Hlen. generalize (slice.range (Z.of_nat (List.length l))). intro r. revert r.
  induction l as [|x l IH]; intros [|i r] Hlen; try discriminate; cbn.
  - split; reflexivity.
  - destruct (IH r) as [H1 H2]; [cbn in Hlen; lia|]. now rewrite H1, H2.
Qed.

(** X5.  Whenever Engine.Run returns a result, its ledger has the rows in the
    order of the intervals: the Index fields are 0, 1, 2, ..., and each row
    carries the timestamps, location, market and LMP of the interval at its
    index. *)
Theorem Run_ledger_follows_intervals
    (St : Type) (SI : Strategy St) (intervals : list LMPInterval)
    (b : option model.Battery) (s : option St) (r : Result) :
  returned (Run intervals b s) = Ok r ->
  map Index (Ledger r) = slice.range (Z.of_nat (List.length intervals))
  /\ map rowMarket (Ledger r) = map intervalMarket intervals.
Proof.
  intro Hr. destruct (Run_passes _ _ _ Hr) as (b0 & s0 & b' & s' & _ & _ & Hp & _).
  destruct (passes_market Hp) as [H1 H2].
  destruct (map_fst_indexed intervals) as [F1 F2].
  rewrite H1, H2, F1. split; trivial.
  rewrite <- (map_map snd intervalMarket), F2. reflexivity.
Qed.

Lemma Run_ledger_follows_intervals_witness :
  map Index (Ledger sampleResult) = slice.range (Z.of_nat (List.length sampleDay))
  /\ map rowMarket (Ledger sampleResult) = map intervalMarket sampleDay.
Proof.
  apply (@Run_ledger_follows_intervals _ _ sampleDay (Some sampleBattery) (Some sampleSchedule)).
  vm_compute. reflexivity.
Defined.

(** X6.  Whenever Engine.Run returns a result (with a strategy that only reads
    the battery), the first row's SOCStart is the battery's initial state of
    charge, every later row's SOCStart is the SOCEnd of the row before it,
    FinalSOC is the last row's SOCEnd, and the battery the run leaves behind
    has its parameters unchanged and FinalSOC as its state of charge. *)
Theorem Run_soc_is_continuous
    (St : Type) (SI : Strategy St) (intervals : list LMPInterval)
    (b0 : model.Battery) (s : option St) (r : Result) :
  returned (Run intervals (Some b0) s) = Ok r ->
  soc_chain (SOC (State b0)) (Ledger r)
  /\ FinalSOC r = last (map SOCEnd (Ledger r)) (SOC (State b0))
  /\ exists b', battAfter (Run intervals (Some b0) s) = Some b'
       /\ Params b' = Params b0 /\ SOC (State b') = FinalSOC r.
Proof.
  intro Hr. destruct (Run_passes _ _ _ Hr) as (b1 & s0 & b' & s' & Eb & _ & Hp & Hf & Hb & _).
  inversion Eb; subst b1; clear Eb.
  destruct (passes_soc Hp) as (H1 & H2 & H3).
  split; trivial. split; [congruence|].
  exists b'. repeat split; trivial. now symmetry.
Qed.

Lemma Run_soc_is_continuous_witness :
  soc_chain (SOC (State sampleBattery)) (Ledger sampleResult)
  /\ FinalSOC sampleResult = last (map SOCEnd (Ledger sampleResult)) (SOC (State sampleBattery))
  /\ exists b', battAfter (Run sampleDay (Some sampleBattery) (Some sampleSchedule)) = Some b'
       /\ Params b' = Params sampleBattery /\ SOC (State b') = FinalSOC sampleResult.
Proof.
  apply (@Run_soc_is_continuous _ _ sampleDay sampleBattery (Some sampleSchedule)).
  vm_compute. reflexivity.
Defined.

End LedgerTheorems.

(** ** The schedule strategy: parsing, windows, defaults *)

Section ScheduleTheorems.

Import model strategy backtest.

Local Open Scope Z_scope.

Lemma parseHHMM_range (s : string) (v : Z) : parseHHMM s = Ok v -> 0 <= v < 1440.
Proof.
  unfold parseHHMM.
  destruct (Split (TrimSpace s) ":") as [|hs [|ms [|x l]]]; try discriminate.
  destruct (Sscanf_d hs) as [h|]; try discriminate.
  destruct (Sscanf_d ms) as [m|]; try discriminate.
  destruct ((h <? 0) || (h >? 23) || (m <? 0) || (m >? 59)) eqn:E; try discriminate.
  intro Hv. inversion Hv; subst v; clear Hv.
  repeat (apply orb_false_iff in E; destruct E as [E ?]).
  lia.
Qed.

Lemma must_range (s : string) (v : Z) : must (parseHHMM s) = Ok v -> 0 <= v < 1440.
Proof.
  destruct (parseHHMM s) as [w|e|e] eqn:E; try discriminate.
  cbn. intro Hv. inversion Hv; subst. now apply parseHHMM_range with s.
Qed.

(** X8.  When the lazy initialisation of a fresh ScheduleStrategy succeeds,
    its four window bounds (charge start and end, discharge start and end) are
    minutes of a day: each lies in [0, 1440). *)
Theorem initialize_minutes_of_day (p : ScheduleParams) (s1 : ScheduleStrategy) :
  initialize (NewSchedule p) = Ok s1 ->
  0 <= csMins s1 < 1440 /\ 0 <= ceMins s1 < 1440
  /\ 0 <= dsMins s1 < 1440 /\ 0 <= deMins s1 < 1440.
Proof.
  unfold initialize. cbn [NewSchedule initialized sParams].
  destruct (must (parseHHMM (ChargeStart p))) as [cs|e|e] eqn:Ecs; try discriminate.
  cbn [bind].
  destruct (must (parseHHMM (DischargeStart p))) as [ds|e|e] eqn:Eds; try discriminate.
  cbn [bind].
  destruct (if negb (isEmptyString (TrimSpace (ChargeEnd p)))
            then must (parseHHMM (ChargeEnd p)) else Ok ds) as [ce|e|e] eqn:Ece;
    try discriminate.
  cbn [bind].
  destruct (if negb (isEmptyString (TrimSpace (DischargeEnd p)))
            then must (parseHHMM (DischargeEnd p)) else Ok ds) as [de|e|e] eqn:Ede;
    try discriminate.
  cbn [bind]. intro E. inversion E; subst s1; clear E. cbn [csMins ceMins dsMins deMins].
  pose proof (must_range _ Ecs). pose proof (must_range _ Eds).
  assert (0 <= ce < 1440).
  { destruct (negb _) in Ece; [now apply must_range in Ece | inversion Ece; now subst]. }
  assert (0 <= de < 1440).
  { destruct (negb _) in Ede; [now apply must_range in Ede | inversion Ede; now subst]. }
  tauto.
Qed.

Lemma initialize_minutes_of_day_witness :
  0 <= csMins firstInitialized < 1440 /\ 0 <= ceMins firstInitialized < 1440
  /\ 0 <= dsMins firstInitialized < 1440 /\ 0 <= deMins firstInitialized < 1440.
Proof.
  apply (@initialize_minutes_of_day (sParams sampleSchedule) firstInitialized).
  reflexivity.
Defined.

(** X9.  For two different bounds a and b, the window [b, a) is the complement
    of the window [a, b): every minute t is in exactly one of them (the one
    that wraps past midnight takes what the other leaves). *)
Theorem inWindow_complement (t a b : Z) :
  a <> b -> inWindow t b a = negb (inWindow t a b).
Proof.
  intro Hab. unfold inWindow.
  destruct (Z.eqb_spec a b) as [|_]; [contradiction|].
  destruct (Z.eqb_spec b a) as [|_]; [congruence|].
  destruct (Z.ltb_spec a b), (Z.ltb_spec b a); try lia;
    destruct (Z.geb_spec t a), (Z.geb_spec t b), (Z.ltb_spec t a), (Z.ltb_spec t b);
    cbn; try reflexivity; lia.
Qed.

Lemma inWindow_complement_witness :
  inWindow 90 120 1320 = negb (inWindow 90 1320 120).
Proof. apply inWindow_complement. lia. Defined.

Lemma inWindow_empty (t a : Z) : inWindow t a a = false.
Proof. unfold inWindow. now rewrite Z.eqb_refl. Qed.

(** X10.  A schedule whose DischargeEnd is blank gets DischargeStart as its
    discharge end, which makes the discharge window empty: Decide then only
    ever returns the charge power -|ChargePowerMW| or 0, for every interval. *)
Theorem blank_DischargeEnd_never_discharges
    (p : ScheduleParams) (s1 : ScheduleStrategy) (ctx : Context) :
  initialize (NewSchedule p) = Ok s1 ->
  TrimSpace (DischargeEnd p) = EmptyString ->
  deMins s1 = dsMins s1
  /\ exists d, Decide (NewSchedule p) ctx = (Ok d, s1)
       /\ (model.PowerMW d = (- Abs (ChargePowerMW p))%f64 \/ model.PowerMW d = f0).
Proof.
  intros E Hb.
  assert (Hde : deMins s1 = dsMins s1).
  { revert E. unfold initialize. cbn [NewSchedule initialized sParams]. rewrite Hb.
    cbn [isEmptyString negb].
    destruct (must (parseHHMM (ChargeStart p))) as [cs|e|e]; try discriminate. cbn [bind].
    destruct (must (parseHHMM (DischargeStart p))) as [ds|e|e]; try discriminate. cbn [bind].
    destruct (if negb (isEmptyString (TrimSpace (ChargeEnd p)))
              then must (parseHHMM (ChargeEnd p)) else Ok ds) as [ce|e|e]; try discriminate.
    cbn [bind]. intro E. inversion E; subst s1. reflexivity. }
  split; trivial.
  cbn [Decide ScheduleStrategy_Strategy].
  rewrite (@ScheduleDecide_initialized _ _ ctx E). rewrite Hde, inWindow_empty.
  eexists. split; [reflexivity|]. cbn [model.PowerMW NewSchedule sParams].
  destruct (inWindow _ _ _); auto.
Qed.

Lemma blank_DischargeEnd_never_discharges_witness :
  deMins openEndedInitialized = dsMins openEndedInitialized
  /\ exists d, Decide (NewSchedule openEndedParams) firstContext = (Ok d, openEndedInitialized)
       /\ (model.PowerMW d = (- Abs (ChargePowerMW openEndedParams))%f64
           \/ model.PowerMW d = f0).
Proof.
  apply (@blank_DischargeEnd_never_discharges openEndedParams openEndedInitialized firstContext);
    reflexivity.
Defined.

Lemma minute_of_day_shift (t t' : Time) (k : Z) :
  localSec t' = localSec t + 86400 * k ->
  Hour t' = Hour t /\ Minute t' = Minute t.
Proof.
  intro E. unfold Hour, Minute. rewrite E. split.
  - f_equal. rewrite Z.mul_comm. apply Z_mod_plus_full.
  - f_equal. replace (86400 * k) with ((24 * k) * 3600) by lia. apply Z_mod_plus_full.
Qed.

(** X11.  The schedule strategy decides by the local time of day alone: two
    intervals whose local start times differ by a whole number of days get the
    same dispatch (and leave the strategy in the same state), whatever their
    index, price or battery state. *)
Theorem schedule_repeats_daily
    (s : ScheduleStrategy) (ctx ctx' : Context) (k : Z) :
  localSec (model.IntervalStartLocal (Interval ctx'))
  = localSec (model.IntervalStartLocal (Interval ctx)) + 86400 * k ->
  Decide s ctx' = Decide s ctx.
Proof.
  intro E. destruct (minute_of_day_shift _ _ _ E) as [Hh Hm].
  cbn [Decide ScheduleStrategy_Strategy]. unfold ScheduleDecide.
  now rewrite Hh, Hm.
Qed.

Lemma schedule_repeats_daily_witness :
  Decide sampleSchedule nextDayContext = Decide sampleSchedule firstContext.
Proof.
  apply (@schedule_repeats_daily sampleSchedule firstContext nextDayContext 1).
  reflexivity.
Defined.

(** X12.  When the clock strings of a schedule (ASCII characters) do not
    parse, a run over a non-empty list of intervals panics inside the first
    Decide, before the battery is touched: the battery is left as it was
    given. *)
Theorem unparsable_schedule_panics
    (p : ScheduleParams) (b : model.Battery) (it : LMPInterval) (rest : list LMPInterval) :
  asciiClocks p = true ->
  is_ok (initialize (NewSchedule p)) = false ->
  (exists e, returned (Run (it :: rest) (Some b) (Some (NewSchedule p))) = Panic e)
  /\ battAfter (Run (it :: rest) (Some b) (Some (NewSchedule p))) = Some b.
Proof.
  intros _ Hi. unfold Run.
  destruct (slice.indexed (it :: rest)) as [|[idx i0] l] eqn:El.
  { apply (f_equal (@List.length _)) in El. rewrite indexed_length in El. discriminate. }
  cbn [runLoop]. unfold runStep. cbn [strat batt ledger cum Decide ScheduleStrategy_Strategy].
  unfold ScheduleDecide.
  destruct (initialize (NewSchedule p)) as [s1|e|e]; try discriminate;
    cbn [returned battAfter batt]; split; eauto.
Qed.

Lemma unparsable_schedule_panics_witness :
  (exists e, returned (Run (sampleInterval 1704103200 3600 0 (Fin 10) :: [])
                           (Some sampleBattery) (Some (NewSchedule lateParams))) = Panic e)
  /\ battAfter (Run (sampleInterval 1704103200 3600 0 (Fin 10) :: [])
                     (Some sampleBattery) (Some (NewSchedule lateParams)))
     = Some sampleBattery.
Proof.
  apply (@unparsable_schedule_panics lateParams sampleBattery
           (sampleInterval 1704103200 3600 0 (Fin 10)) []); reflexivity.
Defined.

End ScheduleTheorems.

(** ** The oracle: its grid and its replay *)

Section OracleTheorems.

Import model strategy backtest.

Lemma OracleDecide_nth (o : OracleStrategy) (ctx : Context) :
  OracleDecide o ctx
  = (Ok (if (strategy.Index ctx <? 0)%Z then {| model.PowerMW := f0 |}
         else nth (Z.to_nat (strategy.Index ctx)) (plan o) {| model.PowerMW := f0 |}), o).
Proof.
  unfold OracleDecide.
  destruct (strategy.Index ctx <? 0)%Z eqn:E1; cbn [orb]; trivial.
  apply Z.ltb_ge in E1.
  destruct (strategy.Index ctx >=? Z.of_nat (List.length (plan o)))%Z eqn:E2.
  - rewrite Z.geb_leb in E2. apply Z.leb_le in E2.
    rewrite nth_overflow by lia. reflexivity.
  - rewrite Z.geb_leb in E2. apply Z.leb_gt in E2.
    unfold slice.get. rewrite (proj2 (Z.ltb_ge _ _)) by lia.
    destruct (nth_error (plan o) (Z.to_nat (strategy.Index ctx))) as [d|] eqn:En.
    + now rewrite (nth_error_nth _ _ _ En).
    + apply nth_error_None in En. lia.
Qed.

Lemma passes_oracle (o : OracleStrategy) (b : model.Battery) (c : float64)
    (l : list (Z * LMPInterval)) (rows : list LedgerRow) (b' : model.Battery)
    (o' : OracleStrategy) :
  passes b o c l rows b' o' ->
  Forall (fun ii => (0 <= fst ii)%Z) l ->
  o' = o
  /\ map RequestedPowerMW rows
     = map (fun ii => model.PowerMW (nth (Z.to_nat (fst ii)) (plan o) {| model.PowerMW := f0 |})) l.
Proof.
  induction 1 as [|b s c idx it req s1 res b1 l rows b2 s2 Hd Ha Hp IH]; intro Hl.
  - split; reflexivity.
  - inversion Hl as [|x y Hidx Hl']; subst. cbn [fst] in Hidx.
    cbn [Decide OracleStrategy_Strategy] in Hd. rewrite OracleDecide_nth in Hd.
    cbn [strategy.Index] in Hd. rewrite (proj2 (Z.ltb_ge _ _)) in Hd by lia.
    inversion Hd; subst s1 req; clear Hd.
    destruct (IH Hl') as [-> IH2]. split; trivial.
    cbn [map rowOf RequestedPowerMW fst]. now rewrite IH2.
Qed.

(** X14.  In a successful run with an OracleStrategy, the RequestedPowerMW of
    ledger row i is the i-th entry of the plan, and 0 for rows beyond the end
    of the plan; the run leaves the strategy (its plan) unchanged. *)
Theorem oracle_run_replays_plan
    (intervals : list LMPInterval) (b : option model.Battery) (o : OracleStrategy)
    (r : Result) :
  returned (Run intervals b (Some o)) = Ok r ->
  stratAfter (Run intervals b (Some o)) = Some o
  /\ map RequestedPowerMW (Ledger r)
     = map (fun i => nth i (map model.PowerMW (plan o)) f0)
           (seq 0 (List.length intervals)).
Proof.
  intro Hr.
  destruct (Run_passes _ _ _ Hr) as (b0 & s0 & b' & s' & _ & Es & Hp & _ & _ & Hs).
  inversion Es; subst s0; clear Es.
  assert (Hl : Forall (fun ii : Z * LMPInterval => (0 <= fst ii)%Z) (slice.indexed intervals)).
  { apply Forall_forall. intros [i x] Hin. apply indexed_spec in Hin. cbn. lia. }
  destruct (passes_oracle Hp Hl) as [-> Hm]. split; trivial.
  rewrite Hm. rewrite <- (map_map fst (fun i => model.PowerMW (nth (Z.to_nat i) (plan o) _))).
  destruct (map_fst_indexed intervals) as [-> _].
  unfold slice.range. rewrite Nat2Z.id, map_map.
  apply map_ext. intro i. rewrite Nat2Z.id.
  change f0 with (model.PowerMW {| model.PowerMW := f0 |}) at 2.
  now rewrite map_nth.
Qed.

Lemma oracle_run_replays_plan_witness :
  stratAfter (Run sampleDay (Some sampleBattery) (Some samplePlan)) = Some samplePlan
  /\ map RequestedPowerMW (Ledger samplePlanResult)
     = map (fun i => nth i (map model.PowerMW (plan samplePlan)) f0)
           (seq 0 (List.length sampleDay)).
Proof.
  apply (@oracle_run_replays_plan sampleDay (Some sampleBattery) samplePlan samplePlanResult).
  vm_compute. reflexivity.
Defined.

End OracleTheorems.

(** ** The oracle never panics *)

Section OracleOutcome.

Import model strategy.

Lemma returns_or_errs_bind {A B} (P : A -> Prop) (Q : B -> Prop) (m : result A)
    (k : A -> result B) :
  returns_or_errs P m -> (forall a, P a -> returns_or_errs Q (k a)) ->
  returns_or_errs Q (bind m k).
Proof. destruct m; cbn; auto. Qed.

Lemma foldM_returns_or_errs {A B} (P : A -> Prop) (f : A -> B -> result A) (l : list B)
    (a : A) :
  P a ->
  (forall a x, P a -> In x l -> returns_or_errs P (f a x)) ->
  returns_or_errs P (slice.foldM f l a).
Proof.
  revert a. induction l as [|x l IH]; intros a Ha Hf; cbn [slice.foldM].
  - exact Ha.
  - apply returns_or_errs_bind with P.
    + apply Hf; [trivial | now left].
    + intros a1 Ha1. apply IH; trivial. intros a2 y Ha2 Hy. apply Hf; trivial. now right.
Qed.

Lemma foldM_ok_each {A B} (f : A -> B -> result A) (l : list B) (a a' : A) :
  slice.foldM f l a = Ok a' ->
  Forall (fun x => exists a0 a1, f a0 x = Ok a1) l.
Proof.
  revert a. induction l as [|x l IH]; intros a E; cbn [slice.foldM] in E.
  - constructor.
  - destruct (f a x) as [a1|e|e] eqn:E1; try discriminate. cbn [bind] in E.
    constructor; eauto.
Qed.

Lemma DurationHours_positive (it : LMPInterval) :
  positive_finite (DurationHours it) = negb (DurationHours it <=? f0)%f64.
Proof. reflexivity. Qed.

Lemma intervalStep_returns_or_errs (q : QParams) (n ps : Z) (T : nat) (tb : Tables)
    (t : Z) (it : LMPInterval) :
  QValid q -> (2 <= n < 2 ^ 63)%Z -> (1 <= ps)%Z ->
  (0 <= t < Z.of_nat T)%Z -> tablesOK n T tb ->
  returns_or_errs (tablesOK n T)
    (intervalStep (params_of q) n (n + 1) (actionSet (params_of q) ps) tb (t, it)).
Proof.
  intros V Hn Hps Ht Htb.
  destruct (positive_finite (DurationHours it)) eqn:Hpos.
  - destruct (@intervalStep_ok q n V Hn T ps Hps tb t it Hpos Ht Htb) as (tb' & -> & Htb').
    exact Htb'.
  - rewrite DurationHours_positive in Hpos. apply negb_false_iff in Hpos.
    unfold intervalStep. rewrite Hpos. exact I.
Qed.

Lemma optimizeDP_returns_or_errs (q : QParams) (intervals : list LMPInterval) (s0 : Q)
    (socSteps powerSteps : Z) :
  QValid q -> (socSteps < 2 ^ 63 - 1)%Z -> (1 <= powerSteps)%Z ->
  returns_or_errs (fun pl => List.length pl = List.length intervals)
    (optimizeDP intervals (params_of q) (Fin s0) socSteps powerSteps).
Proof.
  intros V Hss Hps. unfold optimizeDP.
  set (n := if (socSteps <? 2)%Z then 2%Z else socSteps).
  assert (Hn : (2 <= n < 2 ^ 63)%Z).
  { unfold n. destruct (socSteps <? 2)%Z eqn:E; [lia|]. apply Z.ltb_ge in E. lia. }
  set (T := List.length intervals).
  rewrite !make_ok by lia. cbn [bind].
  pose proof (@socToIdx_range q n Hn s0) as Hinit.
  set (initIdx := socToIdx (params_of q) n (Fin s0)) in *.
  rewrite set_ok by (rewrite repeat_length; lia). cbn [bind].
  rewrite (proj2 (Z.ltb_ge (2 * powerSteps + 1) 0)) by lia. cbn [bind].
  apply returns_or_errs_bind with (tablesOK n T).
  - apply foldM_returns_or_errs.
    + unfold tablesOK, rowsOK. cbn [dp next choice powerChosen].
      rewrite length_upd, !repeat_length.
      repeat split; trivial.
      * apply Forall_repeat. apply repeat_length.
      * apply Forall_repeat. apply repeat_length.
      * apply Forall_repeat. apply Forall_repeat. lia.
    + intros tb [t it] Htb Hin. apply indexed_spec in Hin. destruct Hin as [Ht Hit].
      apply intervalStep_returns_or_errs; trivial.
  - intros tb Htb.
    destruct (@foldM_inv _ _ (reconOK n T) (reconstructStep tb)
                (slice.range (Z.of_nat T))
                (repeat {| PowerMW := f0 |} T, initIdx)) as ([pl cur] & -> & Hlen & _).
    { split; cbn [fst snd]; [apply repeat_length | lia]. }
    { intros st t Hst Ht. apply range_spec in Ht.
      apply (@reconstructStep_ok n Hn T); trivial. }
    cbn [bind returns_or_errs]. exact Hlen.
Qed.

Lemma optimizeDP_ok_positive (intervals : list LMPInterval) (p : BatteryParams)
    (initialSOC : float64) (socSteps powerSteps : Z) (pl : list Dispatch) :
  optimizeDP intervals p initialSOC socSteps powerSteps = Ok pl ->
  Forall (fun it => positive_finite (DurationHours it) = true) intervals.
Proof.
  unfold optimizeDP.
  repeat match goal with
  | |- bind ?m _ = Ok _ -> _ =>
      let E := fresh "E" in destruct m eqn:E; try discriminate; cbn [bind]
  end.
  intros _.
  match goal with
  | Hf : slice.foldM _ (slice.indexed intervals) _ = Ok _ |- _ =>
      apply foldM_ok_each in Hf; rename Hf into Hall
  end.
  destruct (map_fst_indexed intervals) as [_ Es]. rewrite <- Es.
  apply Forall_map. eapply Forall_impl; [|exact Hall].
  intros [t it] (tb0 & tb1 & Hstep). cbn [snd]. unfold intervalStep in Hstep.
  rewrite DurationHours_positive.
  destruct (DurationHours it <=? f0)%f64; [discriminate | reflexivity].
Qed.

Section ByDayOutcome.

Variable q : QParams.
Variable s0 : Q.
Variables socSteps powerSteps : Z.
Hypothesis V : QValid q.
Hypothesis Hss : (socSteps < 2 ^ 63 - 1)%Z.
Hypothesis Hps : (1 <= powerSteps)%Z.

Lemma dayPlan_returns_or_errs (day : list LMPInterval) (done : list Dispatch) :
  returns_or_errs (fun _ : list Dispatch => True)
    match optimizeDP day (params_of q) (Fin s0) socSteps powerSteps with
    | Ok dayPlan => Ok (done ++ dayPlan)
    | Err e => Err ("error optimizing day: " ++ e)
    | Panic e => Panic e
    end.
Proof.
  pose proof (@optimizeDP_returns_or_errs q day s0 socSteps powerSteps V Hss Hps) as Hd.
  destruct (optimizeDP day (params_of q) (Fin s0) socSteps powerSteps); cbn in *; trivial.
Qed.

Lemma dayStep_returns_or_errs (acc : DayAcc) (ii : Z * LMPInterval) :
  returns_or_errs (fun _ => True)
    (dayStep (params_of q) (Fin s0) socSteps powerSteps acc ii).
Proof.
  destruct ii as [i it]. unfold dayStep.
  apply returns_or_errs_bind with (fun _ => True); [|intros; exact I].
  destruct ((i >? 0)%Z && negb (dayStart (IntervalStartLocal it) =? currentDay acc)%Z);
    [|exact I].
  pose proof (dayPlan_returns_or_errs (dayIntervals acc) (fullPlan acc)) as Hd.
  destruct (optimizeDP (dayIntervals acc) (params_of q) (Fin s0) socSteps powerSteps);
    cbn in *; trivial.
Qed.

Lemma optimizeDPByDay_returns_or_errs (intervals : list LMPInterval) :
  returns_or_errs (fun _ => True)
    (optimizeDPByDay intervals (params_of q) (Fin s0) socSteps powerSteps).
Proof.
  unfold optimizeDPByDay. destruct intervals as [|i0 rest] eqn:Ei; [exact I|].
  rewrite <- Ei.
  apply returns_or_errs_bind with (fun _ => True).
  - apply foldM_returns_or_errs; [exact I|]. intros. apply dayStep_returns_or_errs.
  - intros acc _.
    apply returns_or_errs_bind with (fun _ => True).
    + destruct (dayIntervals acc) as [|d0 dr]; [exact I|].
      apply dayPlan_returns_or_errs.
    + intros full _. destruct (negb _); exact I.
Qed.

End ByDayOutcome.

Lemma optimizeDPByDay_ok_positive (intervals : list LMPInterval) (p : BatteryParams)
    (initialSOC : float64) (socSteps powerSteps : Z) (pl : list Dispatch) :
  optimizeDPByDay intervals p initialSOC socSteps powerSteps = Ok pl ->
  Forall (fun it => positive_finite (DurationHours it) = true) intervals.
Proof.
  intro E. destruct (optimizeDPByDay_groups _ _ _ _ _ E) as (plans & Hf & _).
  rewrite <- (splitDays_concat intervals).
  induction Hf as [|g dayPlan gs plans Hg _ IH]; cbn [List.concat]; [constructor|].
  apply Forall_app. split; trivial.
  eapply optimizeDP_ok_positive; eassumption.
Qed.

(** X15.  For valid battery parameters (and step counts that fit an int)
    NewOracleStrategy never panics. It returns a strategy exactly when the
    interval list is non-empty and every interval has a positive duration, and
    then the plan has one entry per interval; otherwise it returns an error. *)
Theorem NewOracleStrategy_outcome
    (intervals : list LMPInterval) (b : model.Battery) (cfg : OracleParams) :
  valid b ->
  (SocSteps cfg < 2 ^ 63 - 1)%Z ->
  (PowerSteps cfg < 2 ^ 62)%Z ->
  match NewOracleStrategy intervals (Params b) (SOC (State b)) cfg with
  | Ok o =>
      intervals <> []
      /\ Forall (fun it => positive_finite (DurationHours it) = true) intervals
      /\ List.length (plan o) = List.length intervals
  | Err _ =>
      intervals = []
      \/ Exists (fun it => positive_finite (DurationHours it) = false) intervals
  | Panic _ => False
  end.
Proof.
  intros Hv Hss Hps.
  destruct (NewOracleStrategy intervals (Params b) (SOC (State b)) cfg) as [o|e|e] eqn:E.
  - assert (Hne : intervals <> []).
    { intros ->. discriminate. }
    assert (Hpos : Forall (fun it => positive_finite (DurationHours it) = true) intervals).
    { unfold NewOracleStrategy in E. destruct intervals as [|i0 rest]; [discriminate|].
      match type of E with bind ?m _ = _ => destruct m as [pl|e|e] eqn:Ed end;
        try discriminate.
      eapply optimizeDPByDay_ok_positive; eassumption. }
    repeat split; trivial.
    destruct (NewOracleStrategy_ok cfg Hv Hne Hpos Hss Hps) as (o' & Eo & Hlen).
    congruence.
  - destruct intervals as [|i0 rest] eqn:Ei; [now left|]. right. rewrite <- Ei in *.
    destruct (Forall_Exists_dec (fun it => positive_finite (DurationHours it) = true)
                (fun it => bool_dec _ _) intervals) as [Hall|Hex].
    + assert (Hne : intervals <> []) by (rewrite Ei; discriminate).
      destruct (NewOracleStrategy_ok cfg Hv Hne Hall Hss Hps) as (o' & Eo & _).
      congruence.
    + eapply Exists_impl; [|exact Hex]. intros it Hit.
      apply not_true_is_false. exact Hit.
  - destruct (valid_inv Hv) as (q & s & -> & V & _).
    unfold NewOracleStrategy in E. destruct intervals as [|i0 rest] eqn:Ei; [discriminate|].
    rewrite <- Ei in E. cbn [Params State SOC battery_of] in E.
    assert (Hss' : ((if (SocSteps cfg <=? 0)%Z then 200%Z else SocSteps cfg) < 2 ^ 63 - 1)%Z)
      by (destruct (SocSteps cfg <=? 0)%Z; lia).
    assert (Hps' : (1 <= (if (PowerSteps cfg <=? 0)%Z then 10%Z else PowerSteps cfg))%Z).
    { destruct (PowerSteps cfg <=? 0)%Z eqn:E0; [lia|]. apply Z.leb_gt in E0. lia. }
    pose proof (@optimizeDPByDay_returns_or_errs q s _ _ V Hss' Hps' intervals) as Hd.
    match type of E with bind ?m _ = _ => destruct m as [pl|e'|e'] eqn:Ed end;
      try discriminate.
    exact Hd.
Qed.

Lemma NewOracleStrategy_outcome_witness :
  match NewOracleStrategy (sampleDay ++ [emptyInterval]) (Params sampleBattery)
          (SOC (State sampleBattery)) defaultOracle with
  | Ok o =>
      sampleDay ++ [emptyInterval] <> []
      /\ Forall (fun it => positive_finite (DurationHours it) = true)
                (sampleDay ++ [emptyInterval])
      /\ List.length (plan o) = List.length (sampleDay ++ [emptyInterval])
  | Err _ =>
      sampleDay ++ [emptyInterval] = []
      \/ Exists (fun it => positive_finite (DurationHours it) = false)
                (sampleDay ++ [emptyInterval])
  | Panic _ => False
  end.
Proof.
  apply (@NewOracleStrategy_outcome (sampleDay ++ [emptyInterval]) sampleBattery defaultOracle).
  - repeat split.
  - reflexivity.
  - reflexivity.
Defined.

End OracleOutcome.

(** ** Ranking: the canonical profit is never negative *)

Section CanonicalProfit.

Import model analysis.

(** The order of the floats that are numbers or infinities. *)
Lemma le_refl_nn (x : float64) : IsNaN x = false -> (x <=? x)%f64 = true.
Proof.
  destruct x; cbn; trivial; try discriminate. intros _. apply Qle_bool_iff. apply Qle_refl.
Qed.

Lemma le_trans_f (x y z : float64) :
  (x <=? y)%f64 = true -> (y <=? z)%f64 = true -> (x <=? z)%f64 = true.
Proof.
  destruct x, y, z; cbn; trivial; try discriminate.
  rewrite !Qle_bool_iff. apply Qle_trans.
Qed.

Lemma gt_le (x y : float64) : (x >? y)%f64 = true -> (y <=? x)%f64 = true.
Proof.
  destruct x, y; cbn; trivial; try discriminate.
  intro H. apply Qltb_true in H. apply Qle_bool_iff. now apply Qlt_le_weak.
Qed.

Lemma not_gt_le (x y : float64) :
  IsNaN x = false -> IsNaN y = false -> (x >? y)%f64 = false -> (x <=? y)%f64 = true.
Proof.
  destruct x, y; cbn; trivial; try discriminate.
  intros _ _ H. apply Qltb_false in H. now apply Qle_bool_iff.
Qed.

Lemma gt_nn (x y : float64) : (x >? y)%f64 = true -> IsNaN x = false.
Proof. destruct x, y; cbn; trivial; discriminate. Qed.

Lemma le_nn (x y : float64) : (x <=? y)%f64 = true -> IsNaN x = false /\ IsNaN y = false.
Proof. destruct x, y; cbn; auto; discriminate. Qed.

Lemma nth_error_upd_eq {A} (l : list A) (n : nat) (x : A) :
  (n < List.length l)%nat -> nth_error (slice.upd l n x) n = Some x.
Proof.
  revert n. induction l as [|h t IH]; intros [|n] Hn; cbn in *; try lia; trivial.
  apply IH. lia.
Qed.

Lemma Forall2_upd {A} (R : A -> A -> Prop) (l l' : list A) (n : nat) (x : A) :
  Forall2 R l l' -> (forall a, nth_error l n = Some a -> R a x) ->
  Forall2 R l (slice.upd l' n x).
Proof.
  intro H. revert n. induction H as [|a b l l' Hab Hll IH]; intros [|n] Hx; cbn;
    try constructor; trivial.
  - apply Hx. reflexivity.
  - apply IH. intros c Hc. apply Hx. exact Hc.
Qed.

Lemma Forall2_nth_error {A} (R : A -> A -> Prop) (l l' : list A) (n : nat) (a : A) :
  Forall2 R l l' -> nth_error l n = Some a ->
  exists b, nth_error l' n = Some b /\ R a b.
Proof.
  intro H. revert n. induction H as [|x y l l' Hxy _ IH]; intros [|n] Hn; cbn in *;
    try discriminate.
  - inversion Hn; subst. eauto.
  - now apply IH.
Qed.

Lemma Forall2_le_refl (l : list float64) :
  Forall (fun v => IsNaN v = false) l -> Forall2 (fun a b => (a <=? b)%f64 = true) l l.
Proof.
  induction 1; constructor; trivial. now apply le_refl_nn.
Qed.

Lemma Forall2_le_trans (l1 l2 l3 : list float64) :
  Forall2 (fun a b => (a <=? b)%f64 = true) l1 l2 ->
  Forall2 (fun a b => (a <=? b)%f64 = true) l2 l3 ->
  Forall2 (fun a b => (a <=? b)%f64 = true) l1 l3.
Proof.
  intro H. revert l3. induction H as [|a b l1 l2 Hab _ IH]; intros l3 H3;
    inversion H3; subst; constructor.
  - eapply le_trans_f; eassumption.
  - now apply IH.
Qed.

(** A slot that is overwritten only by a larger value. *)
Lemma raise_ok (v : float64) (l : list float64) (j : Z) (N : nat) :
  List.length l = N -> (0 <= j < Z.of_nat N)%Z ->
  Forall (fun x => IsNaN x = false) l ->
  exists cur l',
    slice.get l j = Ok cur
    /\ (if (v >? cur)%f64 then slice.set l j v else Ok l) = Ok l'
    /\ List.length l' = N
    /\ Forall (fun x => IsNaN x = false) l'
    /\ Forall2 (fun a b => (a <=? b)%f64 = true) l l'
    /\ (IsNaN v = false ->
        exists w, nth_error l' (Z.to_nat j) = Some w /\ (v <=? w)%f64 = true).
Proof.
  intros Hlen Hj Hnn.
  destruct (@get_ok _ l j) as (cur & Hget & Hin); [lia|].
  assert (Hcur : nth_error l (Z.to_nat j) = Some cur).
  { unfold slice.get in Hget. rewrite (proj2 (Z.ltb_ge _ _)) in Hget by lia.
    destruct (nth_error l (Z.to_nat j)); inversion Hget; now subst. }
  assert (Hcn : IsNaN cur = false) by (rewrite Forall_forall in Hnn; now apply Hnn).
  exists cur. destruct (v >? cur)%f64 eqn:E.
  - exists (slice.upd l (Z.to_nat j) v). rewrite set_ok by lia.
    repeat split; trivial.
    + now rewrite length_upd.
    + apply Forall_upd; trivial. eapply gt_nn; eassumption.
    + apply Forall2_upd; [now apply Forall2_le_refl|].
      intros a Ha. rewrite Hcur in Ha. inversion Ha; subst a. now apply gt_le.
    + intro Hv. exists v. split; [apply nth_error_upd_eq; lia | now apply le_refl_nn].
  - exists l. repeat split; trivial.
    + now apply Forall2_le_refl.
    + intro Hv. exists cur. split; trivial. now apply not_gt_le.
Qed.

Lemma half_negInf : exists h, (strategy.negInf / strategy.f2)%f64 = Fin h /\ h < 0.
Proof.
  eexists. split; [reflexivity|]. reflexivity.
Qed.

Lemma nonneg_above_sentinel (d : float64) :
  (f0 <=? d)%f64 = true -> (d <=? strategy.negInf / strategy.f2)%f64 = false.
Proof.
  destruct half_negInf as (h & -> & Hh). destruct d; cbn; trivial; try discriminate.
  intro H. apply Qle_bool_iff in H. apply Qle_bool_false. lra.
Qed.

Section States.

Variable steps : Z.
Hypothesis Hsteps : (1 <= steps)%Z.
Let N : nat := Z.to_nat (steps + 1).

Let nnl (l : list float64) : Prop := Forall (fun x => IsNaN x = false) l.
Let les (l l' : list float64) : Prop := Forall2 (fun a b => (a <=? b)%f64 = true) l l'.

Lemma canonicalStateStep_raises (price dt : float64) (dp next : list float64) (socIdx : Z) :
  List.length dp = N -> List.length next = N -> nnl next -> (0 <= socIdx <= steps)%Z ->
  exists next',
    canonicalStateStep steps price dt dp next socIdx = Ok next'
    /\ List.length next' = N /\ nnl next' /\ les next next'
    /\ (forall d, nth_error dp (Z.to_nat socIdx) = Some d -> (f0 <=? d)%f64 = true ->
        exists w, nth_error next' (Z.to_nat socIdx) = Some w /\ (f0 <=? w)%f64 = true).
Proof.
  intros Hdp Hnx Hnn Hs. unfold canonicalStateStep.
  assert (HN : Z.of_nat N = (steps + 1)%Z) by (unfold N; lia).
  destruct (@get_ok _ dp socIdx) as (d & Hget & _); [lia|]. rewrite Hget. cbn [bind].
  assert (Hd : nth_error dp (Z.to_nat socIdx) = Some d).
  { unfold slice.get in Hget. rewrite (proj2 (Z.ltb_ge _ _)) in Hget by lia.
    destruct (nth_error dp (Z.to_nat socIdx)); inversion Hget; now subst. }
  destruct ((d <=? strategy.negInf / strategy.f2)%f64) eqn:Eskip.
  { exists next. repeat split; trivial; [now apply Forall2_le_refl|].
    intros d' Hd' H0. rewrite Hd in Hd'. inversion Hd'; subst d'.
    rewrite (nonneg_above_sentinel _ H0) in Eskip. discriminate. }
  destruct (@raise_ok d next socIdx N Hnx) as (cur & n1 & Hg1 & Hs1 & L1 & NN1 & M1 & A1);
    trivial; [lia|]. rewrite Hg1. cbn [bind]. rewrite Hs1. cbn [bind].
  assert (H2 : exists n2,
             (if (socIdx <? steps)%Z
              then up <- slice.get n1 (socIdx + 1) ;;
                   (if (d + - (price * dt) >? up)%f64
                    then slice.set n1 (socIdx + 1) (d + - (price * dt))%f64
                    else Ok n1)
              else Ok n1) = Ok n2
             /\ List.length n2 = N /\ nnl n2 /\ les n1 n2).
  { destruct (socIdx <? steps)%Z eqn:E.
    - apply Z.ltb_lt in E.
      destruct (@raise_ok (d + - (price * dt))%f64 n1 (socIdx + 1) N L1)
        as (up & n2 & Hg2 & Hs2 & L2 & NN2 & M2 & _); trivial; [lia|].
      rewrite Hg2. cbn [bind]. rewrite Hs2. eauto.
    - exists n1. repeat split; trivial. now apply Forall2_le_refl. }
  destruct H2 as (n2 & -> & L2 & NN2 & M2). cbn [bind].
  assert (H3 : exists n3,
             (if (socIdx >? 0)%Z
              then down <- slice.get n2 (socIdx - 1) ;;
                   (if (d + price * dt >? down)%f64
                    then slice.set n2 (socIdx - 1) (d + price * dt)%f64
                    else Ok n2)
              else Ok n2) = Ok n3
             /\ List.length n3 = N /\ nnl n3 /\ les n2 n3).
  { destruct (socIdx >? 0)%Z eqn:E.
    - apply Z.gtb_lt in E.
      destruct (@raise_ok (d + price * dt)%f64 n2 (socIdx - 1) N L2)
        as (down & n3 & Hg3 & Hs3 & L3 & NN3 & M3 & _); trivial; [lia|].
      rewrite Hg3. cbn [bind]. rewrite Hs3. eauto.
    - exists n2. repeat split; trivial. now apply Forall2_le_refl. }
  destruct H3 as (n3 & -> & L3 & NN3 & M3).
  exists n3. repeat split; trivial.
  - eapply Forall2_le_trans; [exact M1|]. eapply Forall2_le_trans; eassumption.
  - intros d' Hd' H0. rewrite Hd in Hd'. inversion Hd'; subst d'.
    destruct (le_nn _ _ H0) as [_ Hdn].
    destruct (A1 Hdn) as (w1 & Hw1 & Hle1).
    destruct (Forall2_nth_error _ M2 Hw1) as (w2 & Hw2 & Hle2).
    destruct (Forall2_nth_error _ M3 Hw2) as (w3 & Hw3 & Hle3).
    exists w3. split; trivial.
    eapply le_trans_f; [exact H0|]. eapply le_trans_f; [exact Hle1|].
    eapply le_trans_f; eassumption.
Qed.

Lemma canonicalStates_raise (price dt : float64) (dp : list float64) (l : list Z)
    (next : list float64) :
  List.length dp = N -> List.length next = N -> nnl next ->
  Forall (fun i => (0 <= i <= steps)%Z) l ->
  exists next',
    slice.foldM (canonicalStateStep steps price dt dp) l next = Ok next'
    /\ List.length next' = N /\ nnl next' /\ les next next'
    /\ (forall i d, In i l -> nth_error dp (Z.to_nat i) = Some d -> (f0 <=? d)%f64 = true ->
        exists w, nth_error next' (Z.to_nat i) = Some w /\ (f0 <=? w)%f64 = true).
Proof.
  intros Hdp Hnx Hnn Hl. revert next Hnx Hnn.
  induction Hl as [|x l Hx _ IH]; intros next Hnx Hnn; cbn [slice.foldM].
  - exists next. repeat split; trivial; [now apply Forall2_le_refl|]. intros i d [].
  - destruct (@canonicalStateStep_raises price dt dp next x Hdp Hnx Hnn Hx)
      as (n1 & -> & L1 & NN1 & M1 & A1). cbn [bind].
    destruct (IH n1 L1 NN1) as (n2 & -> & L2 & NN2 & M2 & A2).
    exists n2. repeat split; trivial.
    + eapply Forall2_le_trans; eassumption.
    + intros i d [->|Hi] Hd H0.
      * destruct (A1 d Hd H0) as (w1 & Hw1 & Hle1).
        destruct (Forall2_nth_error _ M2 Hw1) as (w2 & Hw2 & Hle2).
        exists w2. split; trivial. eapply le_trans_f; eassumption.
      * now apply (A2 i d).
Qed.

(** The invariant of the loop over the intervals: some state has a value >= 0. *)
Let reachable (st : list float64 * list float64) : Prop :=
  List.length (fst st) = N /\ List.length (snd st) = N /\ nnl (fst st)
  /\ exists i d, (0 <= i <= steps)%Z /\ nth_error (fst st) (Z.to_nat i) = Some d
                 /\ (f0 <=? d)%f64 = true.

Lemma canonicalIntervalStep_reachable (dt : float64) (st : list float64 * list float64)
    (it : LMPInterval) :
  reachable st ->
  exists st', canonicalIntervalStep steps dt st it = Ok st' /\ reachable st'.
Proof.
  destruct st as [dp next]. unfold reachable. cbn [fst snd].
  intros (Hdp & Hnx & Hnn & i & d & Hi & Hd & H0).
  unfold canonicalIntervalStep.
  destruct (@canonicalStates_raise (LMP it) dt dp (slice.range (steps + 1))
              (map (fun _ => strategy.negInf) next))
    as (next' & -> & L & NN & _ & A); trivial.
  { now rewrite length_map. }
  { apply Forall_forall. intros x Hx. apply in_map_iff in Hx.
    destruct Hx as (y & <- & _). reflexivity. }
  { apply Forall_forall. intros x Hx. apply range_spec in Hx. lia. }
  cbn [bind]. eexists. split; [reflexivity|]. cbn [fst snd].
  repeat split; trivial.
  destruct (A i d) as (w & Hw & Hle); trivial.
  { unfold slice.range. apply in_map_iff. exists (Z.to_nat i). split; [lia|].
    apply in_seq. lia. }
  exists i, w. auto.
Qed.

End States.

Lemma best_is_max (l : list float64) (init : float64) :
  Forall (fun x => IsNaN x = false) l -> IsNaN init = false ->
  let best := fold_left (fun best v => if (v >? best)%f64 then v else best) l init in
  (init <=? best)%f64 = true
  /\ Forall (fun v => (v <=? best)%f64 = true) l.
Proof.
  intro Hl. revert init. induction Hl as [|x l Hx _ IH]; intros init Hi; cbn.
  - split; [now apply le_refl_nn | constructor].
  - destruct (x >? init)%f64 eqn:E.
    + destruct (IH x Hx) as [H1 H2]. split.
      * eapply le_trans_f; [apply gt_le; exact E | exact H1].
      * constructor; trivial.
    + destruct (IH init Hi) as [H1 H2]. split; trivial.
      constructor; trivial.
      eapply le_trans_f; [apply not_gt_le; eassumption | exact H1].
Qed.

Lemma oracleProfitCanonical_floor (intervals : list LMPInterval) :
  exists v, oracleProfitCanonical intervals = Ok v /\ (v >=? f0)%f64 = true.
Proof.
  unfold oracleProfitCanonical. destruct intervals as [|i0 rest] eqn:Ei.
  { exists f0. split; reflexivity. }
  rewrite <- Ei.
  destruct ((DurationHours i0 <=? f0)%f64).
  { exists f0. split; reflexivity. }
  set (steps0 := to_int (Round (f1 / DurationHours i0))).
  set (steps := if (steps0 <? 1)%Z then 1%Z else steps0).
  assert (Hsteps : (1 <= steps)%Z).
  { unfold steps. destruct (steps0 <? 1)%Z eqn:E; [lia|]. apply Z.ltb_ge in E. lia. }
  rewrite !make_ok by lia. cbn [bind].
  set (init0 := to_int (Round (Fin (1 # 2) * of_int steps))).
  set (init1 := if (init0 <? 0)%Z then 0%Z else init0).
  set (init := if (init1 >? steps)%Z then steps else init1).
  assert (Hinit : (0 <= init <= steps)%Z).
  { unfold init, init1. destruct (init0 <? 0)%Z eqn:E1.
    - destruct (0 >? steps)%Z eqn:E2; lia.
    - apply Z.ltb_ge in E1. destruct (init0 >? steps)%Z eqn:E2; [lia|].
      rewrite Z.gtb_ltb in E2. apply Z.ltb_ge in E2. lia. }
  rewrite set_ok by (rewrite repeat_length; lia). cbn [bind].
  destruct (@foldM_inv _ _
              (fun st : list float64 * list float64 =>
                 List.length (fst st) = Z.to_nat (steps + 1)
                 /\ List.length (snd st) = Z.to_nat (steps + 1)
                 /\ Forall (fun x => IsNaN x = false) (fst st)
                 /\ exists i d, (0 <= i <= steps)%Z
                      /\ nth_error (fst st) (Z.to_nat i) = Some d
                      /\ (f0 <=? d)%f64 = true)
              (canonicalIntervalStep steps (DurationHours i0)) intervals
              (slice.upd (repeat strategy.negInf (Z.to_nat (steps + 1))) (Z.to_nat init) f0,
               repeat f0 (Z.to_nat (steps + 1))))
    as ([dp nx] & -> & _ & _ & Hnn & i & d & Hi & Hd & H0).
  { cbn [fst snd]. rewrite length_upd, !repeat_length. repeat split; trivial.
    - apply Forall_upd; [|reflexivity]. apply Forall_repeat. reflexivity.
    - exists init, f0. repeat split; try lia.
      apply nth_error_upd_eq. rewrite repeat_length. lia. }
  { intros st it Hst _. now apply canonicalIntervalStep_reachable. }
  cbn [bind].
  destruct (@best_is_max dp strategy.negInf Hnn eq_refl) as [_ Hall].
  set (best := fold_left _ dp strategy.negInf) in *.
  assert (Hb : (f0 <=? best)%f64 = true).
  { eapply le_trans_f; [exact H0|]. rewrite Forall_forall in Hall. apply Hall.
    eapply nth_error_In; eassumption. }
  rewrite (nonneg_above_sentinel _ Hb). exists best. split; trivial.
Qed.

(** X16.  oracleProfitCanonical always returns, and what it returns is never
    negative and never NaN, whatever the prices are (even NaN or infinite
    ones): the value of the idle path, 0, is kept in the table from interval
    to interval. *)
Theorem oracleProfitCanonical_nonnegative (intervals : list LMPInterval) :
  exists v, oracleProfitCanonical intervals = Ok v /\ (v >=? f0)%f64 = true.
Proof. exact (oracleProfitCanonical_floor intervals). Qed.

End CanonicalProfit.

(** ** Ranking: the price statistics *)

Section PriceStatistics.

Import model analysis.

Let startStats : Stats := {| sum := f0; minv := PInf; maxv := NInf; vals := [] |}.

(** The minimum and the maximum after the loop over a non-empty list of
    finite prices. *)
Lemma stats_fold (B : list LMPInterval) :
  Forall (fun it => is_finite (LMP it) = true) B -> B <> [] ->
  exists mn mx,
    minv (fold_left statsStep B startStats) = Fin mn
    /\ maxv (fold_left statsStep B startStats) = Fin mx
    /\ In (Fin mn) (map LMP B) /\ In (Fin mx) (map LMP B)
    /\ Forall (fun it => exists v, LMP it = Fin v /\ mn <= v <= mx) B.
Proof.
  induction B as [|it B IH] using rev_ind; [intros _ H; contradiction|].
  intros Hf _. apply Forall_app in Hf. destruct Hf as [HfB Hit].
  inversion Hit as [|x y Hv _]; subst. destruct (LMP it) as [v| | |] eqn:Ev; try discriminate.
  rewrite fold_left_app. cbn [fold_left]. rewrite map_app. cbn [map].
  destruct B as [|b0 B0] eqn:EB.
  - cbn. rewrite Ev. cbn. exists v, v. repeat split; auto.
    constructor; [|constructor]. exists v. split; trivial. lra.
  - rewrite <- EB in *.
    destruct IH as (mn & mx & Emn & Emx & Imn & Imx & Hall); trivial.
    { rewrite EB. discriminate. }
    set (st := fold_left statsStep B startStats) in *.
    unfold statsStep at 1 2. cbn [minv maxv]. rewrite Ev, Emn, Emx.
    unfold gt. cbn [lt].
    destruct (Qltb v mn) eqn:E1; [apply Qltb_true in E1 | apply Qltb_false in E1];
      (destruct (Qltb mx v) eqn:E2; [apply Qltb_true in E2 | apply Qltb_false in E2]).
    + assert (mn <= mx).
      { destruct B as [|b1 B1]; [discriminate|]. inversion Hall as [|? ? (w & _ & Hw) _]; lra. }
      exfalso. lra.
    + exists v, mx. repeat split; trivial.
      * apply in_or_app. right. now left.
      * apply in_or_app. now left.
      * apply Forall_app. split.
        -- eapply Forall_impl; [|exact Hall]. cbn. intros a (w & Ew & Hw).
           exists w. split; trivial. lra.
        -- constructor; [|constructor]. exists v. split; trivial. lra.
    + exists mn, v. repeat split; trivial.
      * apply in_or_app. now left.
      * apply in_or_app. right. now left.
      * apply Forall_app. split.
        -- eapply Forall_impl; [|exact Hall]. cbn. intros a (w & Ew & Hw).
           exists w. split; trivial. lra.
        -- constructor; [|constructor]. exists v. split; trivial. lra.
    + exists mn, mx. repeat split; trivial.
      * apply in_or_app. now left.
      * apply in_or_app. now left.
      * apply Forall_app. split; trivial.
        constructor; [|constructor]. exists v. split; trivial. lra.
Qed.

(** X17.  For a non-empty list of intervals with finite prices,
    ComputePotential reports Count as the number of intervals, and MinLMP and
    MaxLMP as prices that occur in the list and bound every price of it. *)
Theorem ComputePotential_price_range (B : list LMPInterval) :
  B <> [] ->
  Forall (fun it => is_finite (LMP it) = true) B ->
  (Z.of_nat (List.length B) < 2 ^ 63)%Z ->
  exists p,
    ComputePotential B = Ok p
    /\ Count p = Z.of_nat (List.length B)
    /\ In (MinLMP p) (map LMP B) /\ In (MaxLMP p) (map LMP B)
    /\ Forall (fun it => (MinLMP p <=? LMP it)%f64 = true
                         /\ (LMP it <=? MaxLMP p)%f64 = true) B.
Proof.
  intros Hne Hf Hlen. unfold ComputePotential.
  destruct B as [|i0 rest] eqn:EB; [contradiction|]. rewrite <- EB in *.
  fold startStats.
  destruct (stats_fold Hf Hne) as (mn & mx & Emn & Emx & Imn & Imx & Hall).
  pose proof (vals_fold B startStats) as Ev. cbn [vals startStats app] in Ev.
  set (st := fold_left statsStep B startStats) in *.
  rewrite Ev.
  assert (Hfv : Forall (fun v => is_finite v = true) (map LMP B)).
  { apply Forall_map. exact Hf. }
  pose proof (Float64s_finite Hfv) as Hfs.
  assert (Hls : List.length (Float64s (map LMP B)) = List.length B)
    by now rewrite Float64s_length, length_map.
  assert (Hnes : Float64s (map LMP B) <> []).
  { intro E. rewrite E in Hls. rewrite EB in Hls. discriminate. }
  assert (Hlens : (Z.of_nat (List.length (Float64s (map LMP B))) < 2 ^ 63)%Z)
    by now rewrite Hls.
  destruct (@percentileSorted_offset 0 _ (5 # 100) Hfs Hnes Hlens)
    as (v05 & w05 & E05 & _); [reflexivity | reflexivity |].
  destruct (@percentileSorted_offset 0 _ (95 # 100) Hfs Hnes Hlens)
    as (v95 & w95 & E95 & _); [reflexivity | reflexivity |].
  fold q05 in E05. fold q95 in E95.
  rewrite E05, E95. cbn [bind].
  destruct (oracleProfitCanonical_total B) as (profit & ->). cbn [bind].
  eexists. split; [reflexivity|].
  cbn [Count MinLMP MaxLMP]. rewrite Emn, Emx.
  repeat split; trivial.
  eapply Forall_impl; [|exact Hall]. cbn. intros it (v & -> & Hv).
  cbn. rewrite !Qle_bool_iff. tauto.
Qed.

Lemma ComputePotential_price_range_witness :
  exists p,
    ComputePotential sampleDay = Ok p
    /\ Count p = Z.of_nat (List.length sampleDay)
    /\ In (MinLMP p) (map LMP sampleDay) /\ In (MaxLMP p) (map LMP sampleDay)
    /\ Forall (fun it => (MinLMP p <=? LMP it)%f64 = true
                         /\ (LMP it <=? MaxLMP p)%f64 = true) sampleDay.
Proof.
  apply ComputePotential_price_range.
  - discriminate.
  - repeat constructor.
  - reflexivity.
Defined.

End PriceStatistics.

(** ** The response cache *)

Section CacheTheorems.

Import model data.


(** The keys of a cache that a history leaves are distinct. *)
Lemma cleanup_fold (now : Z) (l m : list (string * CacheEntry)) :
  NoDup (map fst m) ->
  let m' := fold_left (fun m (ke : string * CacheEntry) =>
                         if (now >? ExpiresAt (snd ke))%Z
                         then gomap.delete String.eqb m (fst ke) else m) l m in
  NoDup (map fst m')
  /\ forall k, gomap.lookup String.eqb m' k
               = if existsb (fun ke => String.eqb (fst ke) k && (now >? ExpiresAt (snd ke))%Z) l
                 then None else gomap.lookup String.eqb m k.
Proof.
  revert m. induction l as [|[k0 e0] l IH]; intros m Hnd; cbn [fold_left existsb fst snd].
  - split; trivial.
  - destruct (now >? ExpiresAt e0)%Z eqn:Ex.
    + destruct (@delete_keys _ _ _ String.eqb_spec m k0 Hnd) as [D1 D2].
      destruct (IH _ D1) as [I1 I2]. split; trivial.
      intro k. rewrite I2, D2, andb_true_r.
      destruct (String.eqb k0 k); cbn [orb]; [|reflexivity].
      now destruct (existsb _ l).
    + destruct (IH _ Hnd) as [I1 I2]. split; trivial.
      intro k. rewrite I2, andb_false_r. reflexivity.
Qed.

Lemma cacheAfter_keys (ttl0 : Z) (history : list CacheOp) :
  NoDup (map fst (store (cacheAfter ttl0 history))).
Proof.
  unfold cacheAfter.
  assert (H0 : NoDup (map fst (store {| store := []; ttl := ttl0 |}))) by constructor.
  revert H0. generalize {| store := []; ttl := ttl0 |}.
  induction history as [|op h IH]; intros c Hc; cbn [fold_left]; trivial.
  apply IH. destruct op as [now key r| |now]; cbn [applyOp Set_ Clear cleanupTick store].
  - now apply (@store_keys _ _ _ String.eqb_spec).
  - constructor.
  - now apply cleanup_fold.
Qed.

(** X19.  After Set(key, response) at time t on a non-nil cache, Get(key)
    returns that response as a hit at every time up to and including t + ttl
    and misses after it; Get of any other key answers as it did before the
    Set. *)
Theorem cache_Get_after_Set
    (c : ResponseCache) (t t' : Z) (k k' : string) (r : option GridStatusLMPResponse) :
  Get (Set_ (Some c) t k r) t' k'
  = if String.eqb k k'
    then (if (t' >? t + ttl c)%Z then (None, false) else (r, true))
    else Get (Some c) t' k'.
Proof.
  cbn [Set_ Get store]. rewrite (@lookup_store _ _ _ String.eqb_spec).
  destruct (String.eqb k k'); reflexivity.
Qed.

(** X20.  For a cache reached from the empty one by any history of Set, Clear
    and cleanup operations, a cleanup pass at time t changes no answer of Get
    at any time t' >= t: it only deletes entries Get would already report as
    misses. *)
Theorem cache_cleanup_is_invisible
    (ttl0 : Z) (history : list CacheOp) (t t' : Z) (k : string) :
  (t <= t')%Z ->
  Get (Some (cleanupTick (cacheAfter ttl0 history) t)) t' k
  = Get (Some (cacheAfter ttl0 history)) t' k.
Proof.
  intro Ht. pose proof (cacheAfter_keys ttl0 history) as Hnd.
  set (c := cacheAfter ttl0 history) in *.
  cbn [Get cleanupTick store].
  destruct (@cleanup_fold t (store c) (store c) Hnd) as [_ Hl]. cbv zeta in Hl. rewrite Hl.
  destruct (gomap.lookup String.eqb (store c) k) as [e|] eqn:El.
  - destruct (existsb _ (store c)) eqn:Ex.
    + apply existsb_exists in Ex. destruct Ex as ([k0 e0] & Hin & Hc).
      cbn [fst snd] in Hc. apply andb_true_iff in Hc. destruct Hc as [Hk He].
      apply String.eqb_eq in Hk. subst k0.
      rewrite (@in_lookup _ _ _ String.eqb_spec _ _ _ Hnd Hin) in El. inversion El; subst e0.
      apply Z.gtb_lt in He. rewrite (proj2 (Z.gtb_lt _ _)) by lia. reflexivity.
    + reflexivity.
  - now destruct (existsb _ (store c)).
Qed.

Lemma cache_cleanup_is_invisible_witness :
  Get (Some (cleanupTick (cacheAfter 3600 sampleHistory) 5000)) 6000 "a"
  = Get (Some (cacheAfter 3600 sampleHistory)) 6000 "a".
Proof.
  apply (@cache_cleanup_is_invisible 3600 sampleHistory 5000 6000 "a"). lia.
Defined.

End CacheTheorems.

(** ** Grouping by location *)

Section GroupTheorems.

Import model data cli.

Lemma group_fold (dat : list LMPInterval) (out : list (string * list LMPInterval)) (loc : string) :
  NoDup (map fst out) ->
  NoDup (map fst (fold_left groupStep dat out))
  /\ gomap.lookup String.eqb (fold_left groupStep dat out) loc
     = match gomap.lookup String.eqb out loc, filter (fun it => String.eqb (Location it) loc) dat with
       | Some l, extra => Some (l ++ extra)
       | None, [] => None
       | None, extra => Some extra
       end.
Proof.
  revert out. induction dat as [|it dat IH]; intros out Hnd; cbn [fold_left filter].
  - split; trivial. destruct (gomap.lookup String.eqb out loc); [now rewrite app_nil_r | trivial].
  - assert (Hnd' : NoDup (map fst (groupStep out it))) by (now apply (@store_keys _ _ _ String.eqb_spec)).
    destruct (IH _ Hnd') as [I1 I2]. split; trivial.
    rewrite I2. unfold groupStep at 1. rewrite (@lookup_store _ _ _ String.eqb_spec).
    destruct (String.eqb_spec (Location it) loc) as [->|Hne].
    + destruct (gomap.lookup String.eqb out loc) as [l|].
      * rewrite <- app_assoc. reflexivity.
      * reflexivity.
    + reflexivity.
Qed.

Lemma group_lookup (r : GridStatusLMPResponse) (loc : string) :
  NoDup (map fst (GroupByLocation (Some r)))
  /\ gomap.lookup String.eqb (GroupByLocation (Some r)) loc
     = match filter (fun it => String.eqb (Location it) loc) (Data r) with
       | [] => None
       | l => Some l
       end.
Proof.
  unfold GroupByLocation.
  destruct (@group_fold (Data r) [] loc) as [H1 H2]; [constructor|].
  split; trivial.
Qed.

(** X21.  GroupByLocation loses and reorders nothing: the slice it stores
    under a location is exactly the response's intervals with that location,
    in their original order, and a location without intervals has no key. (In
    the embedding the keys of the map are distinct.) *)
Theorem GroupByLocation_is_filter (r : GridStatusLMPResponse) (loc : string) :
  NoDup (map fst (GroupByLocation (Some r)))
  /\ gomap.lookup String.eqb (GroupByLocation (Some r)) loc
     = match filter (fun it => String.eqb (Location it) loc) (Data r) with
       | [] => None
       | l => Some l
       end.
Proof.
  apply group_lookup.
Qed.

Lemma merge_fold (src dst : list (string * list LMPInterval)) (k : string) :
  NoDup (map fst dst) -> NoDup (map fst src) ->
  gomap.lookup String.eqb (mergeByLoc dst src) k
  = match gomap.lookup String.eqb dst k, gomap.lookup String.eqb src k with
    | Some l, Some l' => Some (l ++ l')
    | Some l, None => Some l
    | None, Some l' => Some l'
    | None, None => None
    end.
Proof.
  unfold mergeByLoc. revert dst.
  induction src as [|[k0 v0] src IH]; intros dst Hd Hs; cbn [fold_left gomap.lookup fst snd].
  - now destruct (gomap.lookup String.eqb dst k).
  - inversion Hs as [|? ? Hk0 Hs']; subst.
    rewrite IH; trivial; [|now apply (@store_keys _ _ _ String.eqb_spec)].
    rewrite (@lookup_store _ _ _ String.eqb_spec).
    destruct (String.eqb_spec k0 k) as [->|Hne].
    + rewrite (@lookup_not_in _ _ _ String.eqb_spec _ _ Hk0).
      destruct (gomap.lookup String.eqb dst k); reflexivity.
    + reflexivity.
Qed.

(** X22.  Merging the groups of two responses with mergeByLoc gives, under
    every location, the same slice as grouping one response that holds the
    data of the first followed by the data of the second. *)
Theorem mergeByLoc_groups_concatenation (r1 r2 : GridStatusLMPResponse) (loc : string) :
  gomap.lookup String.eqb (mergeByLoc (GroupByLocation (Some r1)) (GroupByLocation (Some r2))) loc
  = gomap.lookup String.eqb
      (GroupByLocation (Some {| StatusCode := StatusCode r1; Data := Data r1 ++ Data r2 |})) loc.
Proof.
  destruct (group_lookup r1 loc) as [N1 L1].
  destruct (group_lookup r2 loc) as [N2 L2].
  destruct (group_lookup
              {| StatusCode := StatusCode r1; Data := Data r1 ++ Data r2 |} loc) as [_ L3].
  rewrite merge_fold, L1, L2, L3 by trivial. cbn [Data]. rewrite filter_app.
  destruct (filter _ (Data r1)) as [|a l1]; destruct (filter _ (Data r2)) as [|b l2];
    cbn [app]; trivial. now rewrite app_nil_r.
Qed.

End GroupTheorems.

(** ** Merging battery configurations *)

Section MergeTheorems.

Import config.

Lemma overlay_assoc {A} (p : A -> bool) (a b c : A) :
  (if p c then c else if p b then b else a)
  = (if p (if p c then c else b) then (if p c then c else b) else a).
Proof. destruct (p c) eqn:Ec; [now rewrite Ec | reflexivity]. Qed.

(** X23.  MergeBattery is associative (overlaying c on the merge of a and b is
    overlaying the merge of b and c on a), the empty configuration is a right
    identity, and merging a configuration with itself changes nothing. *)
Theorem MergeBattery_layers (a b c : BatteryConfig) :
  MergeBattery (MergeBattery a b) c = MergeBattery a (MergeBattery b c)
  /\ MergeBattery a BatteryConfig_zero = a
  /\ MergeBattery a a = a.
Proof.
  split; [|split].
  - unfold MergeBattery.
    cbn [Name EnergyCapacityMWh PowerCapacityMW ChargeEfficiency DischargeEfficiency
         MinSOC MaxSOC InitialSOC DegradationCostPerMWh].
    f_equal;
      [apply (overlay_assoc (fun x => negb (String.eqb x ""))) | apply (overlay_assoc nonzero) ..].
  - destruct a. reflexivity.
  - destruct a. unfold MergeBattery.
    cbn [Name EnergyCapacityMWh PowerCapacityMW ChargeEfficiency DischargeEfficiency
         MinSOC MaxSOC InitialSOC DegradationCostPerMWh].
    f_equal; match goal with |- (if ?b then _ else _) = _ => destruct b; reflexivity end.
Qed.

End MergeTheorems.

(** ** Comma-separated paths *)

Section PathTheorems.

Import strategy cli.

Lemma Split_nonempty (s : string) (sep : ascii) : Split s sep <> [].
Proof.
  destruct s as [|c t]; cbn [Split]; [discriminate|].
  destruct (Ascii.eqb c sep); [discriminate|]. destruct (Split t sep); discriminate.
Qed.

Lemma Split_app (a b : string) (sep : ascii) :
  Split (a ++ String sep b) sep = Split a sep ++ Split b sep.
Proof.
  induction a as [|c a IH]; cbn [String.append Split].
  - now rewrite Ascii.eqb_refl.
  - destruct (Ascii.eqb c sep); [cbn [app]; now rewrite IH|].
    rewrite IH. destruct (Split a sep) as [|h r] eqn:E; [|reflexivity].
    now apply Split_nonempty in E.
Qed.

Lemma pieces_fold (l : list string) (out : list string) :
  fold_left (fun out p =>
               let p := TrimSpace p in
               if negb (String.eqb p "") then out ++ [p] else out) l out
  = out ++ filter (fun p => negb (String.eqb p "")) (map TrimSpace l).
Proof.
  revert out. induction l as [|p l IH]; intro out; cbn [fold_left map filter].
  - now rewrite app_nil_r.
  - rewrite IH. cbv zeta. destruct (negb (String.eqb (TrimSpace p) "")); trivial.
    now rewrite <- app_assoc.
Qed.

Lemma splitPaths_filter (s : string) :
  splitPaths s = filter (fun p => negb (String.eqb p "")) (map TrimSpace (Split s ",")).
Proof. unfold splitPaths. now rewrite pieces_fold. Qed.

(** X24.  splitPaths distributes over a comma: the paths of a + "," + b are
    the paths of a followed by the paths of b. *)
Theorem splitPaths_concat (a b : string) :
  splitPaths (a ++ String "," b) = splitPaths a ++ splitPaths b.
Proof.
  rewrite !splitPaths_filter, Split_app, map_app, filter_app. reflexivity.
Qed.

Lemma trimRight_idem (s : string) : trimRight (trimRight s) = trimRight s.
Proof.
  induction s as [|c t IH]; cbn [trimRight]; trivial.
  destruct (trimRight t) as [|c' t'] eqn:E.
  - destruct (isSpace c) eqn:Ec; cbn [trimRight]; [reflexivity | now rewrite Ec].
  - cbn [trimRight]. fold trimRight. 
    change (match trimRight (String c' t') with
            | EmptyString => if isSpace c then EmptyString else String c EmptyString
            | String a s0 => String c (String a s0)
            end = String c (String c' t')).
    now rewrite IH.
Qed.

Lemma trimLeft_head (s : string) :
  trimLeft s = EmptyString
  \/ exists c t, trimLeft s = String c t /\ isSpace c = false.
Proof.
  induction s as [|c t IH]; cbn [trimLeft]; [now left|].
  destruct (isSpace c) eqn:E; [exact IH | right; eauto].
Qed.

Lemma trimRight_head (c : ascii) (t : string) :
  isSpace c = false -> exists t', trimRight (String c t) = String c t'.
Proof.
  intro Hc. cbn [trimRight]. destruct (trimRight t); [rewrite Hc|]; eauto.
Qed.

Lemma TrimSpace_idem (s : string) : TrimSpace (TrimSpace s) = TrimSpace s.
Proof.
  unfold TrimSpace. destruct (trimLeft_head s) as [->|(c & t & -> & Hc)]; [reflexivity|].
  destruct (@trimRight_head c t Hc) as (t' & E). rewrite E.
  cbn [trimLeft]. rewrite Hc. rewrite <- E. apply trimRight_idem.
Qed.

(** X25.  Every path splitPaths returns is non-empty and has no white space
    left to trim at either end. *)
Theorem splitPaths_pieces_are_trimmed (s : string) :
  Forall (fun p => p <> EmptyString /\ TrimSpace p = p) (splitPaths s).
Proof.
  rewrite splitPaths_filter. apply Forall_forall. intros p Hp.
  apply filter_In in Hp. destruct Hp as [Hin Hne].
  apply in_map_iff in Hin. destruct Hin as (x & <- & _). split.
  - intro E. rewrite E in Hne. discriminate.
  - apply TrimSpace_idem.
Qed.

End PathTheorems.

(** ** The summary of a result *)

Section SummaryTheorems.

Import model backtest handlers.

Lemma fold_pair {A B C} (f : A -> C -> A) (g : B -> C -> B) (l : list C) (a : A) (b : B) :
  fold_left (fun (st : A * B) x => (f (fst st) x, g (snd st) x)) l (a, b)
  = (fold_left f l a, fold_left g l b).
Proof.
  revert a b. induction l as [|x l IH]; intros a b; cbn [fold_left fst snd]; trivial.
Qed.

Lemma existsb_In (d : Z) (l : list Z) : existsb (Z.eqb d) l = true <-> In d l.
Proof.
  rewrite existsb_exists. split.
  - intros (x & Hx & E). apply Z.eqb_eq in E. now subst.
  - intro H. exists d. split; trivial. apply Z.eqb_refl.
Qed.

Lemma firstSeen_ext (s s' l : list Z) :
  (forall x, In x s <-> In x s') -> firstSeen s l = firstSeen s' l.
Proof.
  revert s s'. induction l as [|d t IH]; intros s s' H; cbn [firstSeen]; trivial.
  assert (E : existsb (Z.eqb d) s = existsb (Z.eqb d) s').
  { destruct (existsb (Z.eqb d) s) eqn:E1, (existsb (Z.eqb d) s') eqn:E2; trivial.
    - apply existsb_In in E1. apply H in E1. apply existsb_In in E1. congruence.
    - apply existsb_In in E2. apply H in E2. apply existsb_In in E2. congruence. }
  rewrite E. destruct (existsb (Z.eqb d) s'); [now apply IH|].
  f_equal. apply IH. intro x. cbn [In]. rewrite H. reflexivity.
Qed.

Lemma firstSeen_covers (s l : list Z) (d : Z) :
  In d l -> In d s \/ In d (firstSeen s l).
Proof.
  revert s. induction l as [|x t IH]; intros s; cbn [firstSeen In]; [intros []|].
  intros [->|Hin].
  - destruct (existsb (Z.eqb d) s) eqn:E; [left; now apply existsb_In | right; now left].
  - destruct (existsb (Z.eqb x) s) eqn:E; [now apply IH|].
    destruct (IH (x :: s) Hin) as [[->|H]|H]; [right; now left | now left | right; now right].
Qed.

Lemma firstSeen_NoDup (s l : list Z) :
  NoDup (firstSeen s l) /\ forall d, In d (firstSeen s l) -> ~ In d s.
Proof.
  revert s. induction l as [|x t IH]; intro s; cbn [firstSeen].
  - split; [constructor | intros d []].
  - destruct (existsb (Z.eqb x) s) eqn:E; [apply IH|].
    destruct (IH (x :: s)) as [I1 I2]. split.
    + constructor; trivial. intro Hin. apply (I2 x Hin). now left.
    + intros d [<-|Hin].
      * intro Hs. apply existsb_In in Hs. congruence.
      * intro Hs. apply (I2 d Hin). now right.
Qed.

Section Half.

Variable energy : LedgerRow -> float64.

Let day (row : LedgerRow) : Z := dayKey (IntervalStartLocal row).

Lemma activeDays_cons (row : LedgerRow) (rows : list LedgerRow) :
  activeDays energy (row :: rows)
  = if (energy row >? f0)%f64 then day row :: activeDays energy rows
    else activeDays energy rows.
Proof.
  unfold activeDays. cbn [filter]. now destruct (energy row >? f0)%f64.
Qed.

(** The first loop: the keys of the map are the active days, each once, in
    the order of their first row; every window starts on the day it is
    stored under. *)
Lemma accumulate_keys (rows : list LedgerRow) (tot : float64) (m : list (Z * windowData)) :
  NoDup (map fst m) ->
  Forall (fun kv => dayKey (Start (window (snd kv))) = fst kv) m ->
  let m' := snd (fold_left (accumulate energy) rows (tot, m)) in
  map fst m' = map fst m ++ firstSeen (map fst m) (activeDays energy rows)
  /\ NoDup (map fst m')
  /\ Forall (fun kv => dayKey (Start (window (snd kv))) = fst kv) m'.
Proof.
  cbv zeta. revert tot m. induction rows as [|row rows IH]; intros tot m Hnd Hst;
    cbn [fold_left].
  - cbn. rewrite app_nil_r. auto.
  - rewrite activeDays_cons.
    destruct (energy row >? f0)%f64 eqn:Ec.
    2:{ replace (accumulate energy (tot, m) row) with (tot, m)
          by (unfold accumulate; now rewrite Ec).
        now apply IH. }
    replace (accumulate energy (tot, m) row)
      with ((tot + energy row)%f64,
            match gomap.lookup Z.eqb m (day row) with
            | Some win =>
                gomap.store Z.eqb m (day row)
                  {| window := {| Start := Start (window win);
                                  End_ := IntervalEndLocal row |};
                     total := (total win + LMP row * energy row)%f64;
                     totalEnergy := (totalEnergy win + energy row)%f64 |}
            | None =>
                gomap.store Z.eqb m (day row)
                  {| window := {| Start := IntervalStartLocal row;
                                  End_ := IntervalEndLocal row |};
                     total := (LMP row * energy row)%f64;
                     totalEnergy := energy row |}
            end)
      by (unfold accumulate; now rewrite Ec).
    destruct (gomap.lookup Z.eqb m (day row)) as [win|] eqn:El.
    + destruct (@store_present _ _ Z.eqb Z.eqb_spec m (day row) win
                  {| window := {| Start := Start (window win);
                                  End_ := IntervalEndLocal row |};
                     total := (total win + LMP row * energy row)%f64;
                     totalEnergy := (totalEnergy win + energy row)%f64 |} El)
        as (l1 & l2 & Em & Es).
      rewrite Es.
      assert (Ek : map fst (l1 ++ (day row, {| window := {| Start := Start (window win);
                                  End_ := IntervalEndLocal row |};
                     total := (total win + LMP row * energy row)%f64;
                     totalEnergy := (totalEnergy win + energy row)%f64 |}) :: l2)
                   = map fst m).
      { rewrite Em, !map_app. reflexivity. }
      match goal with |- context [fold_left _ rows (_, ?mm)] => set (m1 := mm) in * end.
      destruct (IH (tot + energy row)%f64 m1) as (I1 & I2 & I3).
      { now rewrite Ek. }
      { unfold m1. rewrite Em in Hst. apply Forall_app in Hst. destruct Hst as [H1 H2].
        inversion H2 as [|? ? Hw H3]; subst. apply Forall_app. split; trivial.
        constructor; trivial. }
      rewrite Ek in I1. cbn [firstSeen].
      assert (Hin : existsb (Z.eqb (day row)) (map fst m) = true).
      { apply existsb_In. rewrite Em, map_app. apply in_or_app. right. now left. }
      rewrite Hin. split; [exact I1 | split; trivial].
    + rewrite (@store_absent _ _ Z.eqb Z.eqb_spec m (day row) _ El).
      destruct (IH (tot + energy row)%f64
                  (m ++ [(day row, {| window := {| Start := IntervalStartLocal row;
                                                   End_ := IntervalEndLocal row |};
                                      total := (LMP row * energy row)%f64;
                                      totalEnergy := energy row |})]))
        as (I1 & I2 & I3).
      { rewrite map_app. cbn [map fst].
        apply (proj1 (@lookup_none _ _ Z.eqb Z.eqb_spec m (day row))) in El.
        apply NoDup_app_remove_l with (l := []). cbn [app].
        clear - Hnd El. induction (map fst m) as [|k ks IHk]; cbn [app].
        - repeat constructor. intros [].
        - inversion Hnd; subst. constructor.
          + intro Hin. apply in_app_or in Hin. destruct Hin as [Hin|[<-|[]]]; [contradiction|].
            apply El. now left.
          + apply IHk; trivial. intro Hin. apply El. now right. }
      { apply Forall_app. split; trivial. repeat constructor. }
      assert (Hin : existsb (Z.eqb (day row)) (map fst m) = false).
      { apply (proj1 (@lookup_none _ _ Z.eqb Z.eqb_spec m (day row))) in El.
        destruct (existsb (Z.eqb (day row)) (map fst m)) eqn:E; trivial.
        apply existsb_In in E. contradiction. }
      split; [|split; trivial].
      rewrite I1, map_app. cbn [map fst firstSeen].
      rewrite Hin, <- app_assoc. cbn [app].
      f_equal. f_equal. apply firstSeen_ext. intro x. rewrite in_app_iff. cbn [In]. tauto.
Qed.

(** The second loop emits the window of each active day at its first row. *)
Lemma emit_fold {W : Type} (mk : TimeWindow -> float64 -> float64 -> W)
    (m : list (Z * windowData)) (rows : list LedgerRow) (out : list W)
    (seen : list (Z * bool)) :
  (forall d, In d (activeDays energy rows) -> gomap.lookup Z.eqb m d <> None) ->
  Forall (fun kv => snd kv = true) seen ->
  fst (fold_left (emit mk energy m) rows (out, seen))
  = out ++ flat_map (fun d => match gomap.lookup Z.eqb m d with
                              | Some w =>
                                  [mk (window w)
                                      (if (totalEnergy w >? f0)%f64
                                       then (total w / totalEnergy w)%f64 else f0)
                                      (totalEnergy w)]
                              | None => []
                              end)
                    (firstSeen (map fst seen) (activeDays energy rows)).
Proof.
  revert out seen. induction rows as [|row rows IH]; intros out seen Hm Hs; cbn [fold_left].
  - cbn. now rewrite app_nil_r.
  - rewrite activeDays_cons in *.
    destruct (energy row >? f0)%f64 eqn:Ec.
    2:{ replace (emit mk energy m (out, seen) row) with (out, seen)
          by (unfold emit; now rewrite Ec).
        now apply IH. }
    replace (emit mk energy m (out, seen) row)
      with (if negb (seenDay seen (day row))
            then match gomap.lookup Z.eqb m (day row) with
                 | Some winData =>
                     (out ++ [mk (window winData)
                                (if (totalEnergy winData >? f0)%f64
                                 then (total winData / totalEnergy winData)%f64 else f0)
                                (totalEnergy winData)],
                      gomap.store Z.eqb seen (day row) true)
                 | None => (out, seen)
                 end
            else (out, seen))
      by (unfold emit; now rewrite Ec).
    assert (Hseen : seenDay seen (day row) = existsb (Z.eqb (day row)) (map fst seen)).
    { unfold seenDay. destruct (gomap.lookup Z.eqb seen (day row)) as [b|] eqn:El.
      - apply (@lookup_in _ _ Z.eqb Z.eqb_spec) in El.
        rewrite Forall_forall in Hs. pose proof (Hs _ El) as Hb. cbn [snd] in Hb. subst b.
        symmetry. apply existsb_In.
        apply in_map_iff. now exists (day row, true).
      - apply (proj1 (@lookup_none _ _ Z.eqb Z.eqb_spec seen (day row))) in El.
        destruct (existsb (Z.eqb (day row)) (map fst seen)) eqn:E; trivial.
        apply existsb_In in E. contradiction. }
    cbn [firstSeen]. rewrite Hseen.
    destruct (existsb (Z.eqb (day row)) (map fst seen)) eqn:E; cbn [negb].
    + apply IH; trivial. intros d Hd. apply Hm. now right.
    + destruct (gomap.lookup Z.eqb m (day row)) as [w|] eqn:El.
      2:{ exfalso. apply (Hm (day row)); [now left | trivial]. }
      cbv zeta. rewrite IH.
      * cbn [flat_map]. rewrite El, <- app_assoc. cbn [app]. f_equal. f_equal. f_equal.
        apply firstSeen_ext. intro x.
        assert (Ea : gomap.lookup Z.eqb seen (day row) = None).
        { apply (@lookup_none _ _ Z.eqb Z.eqb_spec). intro Hin. apply existsb_In in Hin. congruence. }
        rewrite (@store_absent _ _ Z.eqb Z.eqb_spec seen (day row) true Ea), map_app, in_app_iff.
        cbn [map fst In]. tauto.
      * intros d Hd. apply Hm. now right.
      * assert (Ea : gomap.lookup Z.eqb seen (day row) = None).
        { apply (@lookup_none _ _ Z.eqb Z.eqb_spec). intro Hin. apply existsb_In in Hin. congruence. }
        rewrite (@store_absent _ _ Z.eqb Z.eqb_spec seen (day row) true Ea).
        apply Forall_app. split; trivial. repeat constructor.
Qed.

(** The two loops together. *)
Lemma windows_of_map {W : Type} (mk : TimeWindow -> float64 -> float64 -> W)
    (ledger : list LedgerRow) :
  let m := snd (fold_left (accumulate energy) ledger (f0, [])) in
  fst (fold_left (emit mk energy m) ledger ([], []))
  = map (fun w => mk (window w)
                     (if (totalEnergy w >? f0)%f64
                      then (total w / totalEnergy w)%f64 else f0)
                     (totalEnergy w)) (map snd m)
  /\ map fst m = firstSeen [] (activeDays energy ledger)
  /\ Forall (fun kv => dayKey (Start (window (snd kv))) = fst kv) m.
Proof.
  cbv zeta.
  destruct (@accumulate_keys ledger f0 []) as (K1 & K2 & K3); [constructor | constructor|].
  cbv zeta in K1, K2, K3. cbn [map fst app] in K1.
  set (m := snd (fold_left (accumulate energy) ledger (f0, []))) in *.
  split; [|split; trivial].
  rewrite emit_fold; [|intros d Hd|constructor].
  - cbn [map fst app]. rewrite <- K1. now apply (@lookup_own_keys _ _ Z.eqb Z.eqb_spec).
  - apply (firstSeen_covers []) in Hd. destruct Hd as [[]|Hd].
    rewrite <- K1 in Hd. intro El.
    apply (proj1 (@lookup_none _ _ Z.eqb Z.eqb_spec m d)) in El. contradiction.
Qed.

(** The first loop: the running total is the sum, in ledger order, of the
    energies that are positive. *)
Lemma accumulate_total (rows : list LedgerRow) (tot : float64) (m : list (Z * windowData)) :
  fst (fold_left (accumulate energy) rows (tot, m))
  = fold_left add (filter (fun x => (x >? f0)%f64) (map energy rows)) tot.
Proof.
  revert tot m. induction rows as [|row rows IH]; intros tot m; cbn [fold_left map filter];
    trivial.
  unfold accumulate at 2. destruct (energy row >? f0)%f64; cbn [fold_left]; apply IH.
Qed.

End Half.

Lemma buildSummary_fields (r : Result) (first : LedgerRow) (rest : list LedgerRow) :
  Ledger r = first :: rest ->
  EnergyChargedMWh (buildSummary r)
  = fst (fold_left (accumulate EnergyFromGridMWh) (Ledger r) (f0, []))
  /\ EnergyDischargedMWh (buildSummary r)
     = fst (fold_left (accumulate EnergyToGridMWh) (Ledger r) (f0, []))
  /\ ChargeWindows (buildSummary r)
     = fst (fold_left (emit Build_ChargeWindow EnergyFromGridMWh
                         (snd (fold_left (accumulate EnergyFromGridMWh) (Ledger r) (f0, []))))
                      (Ledger r) ([], []))
  /\ DischargeWindows (buildSummary r)
     = fst (fold_left (emit Build_DischargeWindow EnergyToGridMWh
                         (snd (fold_left (accumulate EnergyToGridMWh) (Ledger r) (f0, []))))
                      (Ledger r) ([], []))
  /\ TotalIntervals (buildSummary r) = Z.of_nat (List.length (Ledger r))
  /\ BacktestWindow (buildSummary r)
     = {| Start := IntervalStartLocal first;
          End_ := IntervalEndLocal (last (Ledger r) first) |}
  /\ TotalPNL (buildSummary r) = backtest.TotalPNL r
  /\ FinalSOC (buildSummary r) = backtest.FinalSOC r.
Proof.
  intro E. unfold buildSummary. rewrite E. rewrite <- E. cbv zeta.
  rewrite (fold_pair (accumulate EnergyFromGridMWh) (accumulate EnergyToGridMWh)).
  cbv beta iota.
  rewrite (fold_pair
             (emit Build_ChargeWindow EnergyFromGridMWh
                (snd (fold_left (accumulate EnergyFromGridMWh) (Ledger r) (f0, []))))
             (emit Build_DischargeWindow EnergyToGridMWh
                (snd (fold_left (accumulate EnergyToGridMWh) (Ledger r) (f0, []))))).
  cbv beta iota. repeat split.
Qed.

(** X7.  In the summary of a backtest, EnergyChargedMWh is the sum, added in
    ledger order, of the EnergyFromGridMWh of the rows where it is positive,
    EnergyDischargedMWh likewise for EnergyToGridMWh, and TotalPNL and
    FinalSOC are copied from the result. *)
Theorem buildSummary_totals (r : Result) :
  EnergyChargedMWh (buildSummary r)
  = sumf (filter (fun x => (x >? f0)%f64) (map EnergyFromGridMWh (Ledger r)))
  /\ EnergyDischargedMWh (buildSummary r)
     = sumf (filter (fun x => (x >? f0)%f64) (map EnergyToGridMWh (Ledger r)))
  /\ TotalPNL (buildSummary r) = backtest.TotalPNL r
  /\ FinalSOC (buildSummary r) = backtest.FinalSOC r.
Proof.
  destruct (Ledger r) as [|first rest] eqn:E.
  { unfold buildSummary. rewrite E. repeat split. }
  rewrite <- E.
  destruct (buildSummary_fields r E) as (-> & -> & _ & _ & _ & _ & -> & ->).
  rewrite !accumulate_total. unfold sumf. repeat split.
Qed.

(** X18.  The summary of a backtest has one charge window for each local
    calendar day on which some row draws energy from the grid, in the order in
    which these days first occur in the ledger, each starting on its day;
    likewise for the discharge windows; TotalIntervals is the length of the
    ledger. *)
Theorem buildSummary_one_window_per_day (r : Result) :
  map (fun w => dayKey (Start (cTimeWindow w))) (ChargeWindows (buildSummary r))
  = firstSeen [] (activeDays EnergyFromGridMWh (Ledger r))
  /\ map (fun w => dayKey (Start (dTimeWindow w))) (DischargeWindows (buildSummary r))
     = firstSeen [] (activeDays EnergyToGridMWh (Ledger r))
  /\ TotalIntervals (buildSummary r) = Z.of_nat (List.length (Ledger r)).
Proof.
  destruct (Ledger r) as [|first rest] eqn:E.
  { unfold buildSummary. rewrite E. repeat split. }
  rewrite <- E.
  destruct (buildSummary_fields r E) as (_ & _ & -> & -> & -> & _).
  split; [|split; trivial].
  - destruct (windows_of_map EnergyFromGridMWh Build_ChargeWindow (Ledger r))
      as (-> & <- & Hd).
    rewrite !map_map. cbn [cTimeWindow]. apply map_ext_in. intros kv Hin.
    rewrite Forall_forall in Hd. now apply Hd.
  - destruct (windows_of_map EnergyToGridMWh Build_DischargeWindow (Ledger r))
      as (-> & <- & Hd).
    rewrite !map_map. cbn [dTimeWindow]. apply map_ext_in. intros kv Hin.
    rewrite Forall_forall in Hd. now apply Hd.
Qed.

End SummaryTheorems.

(** ** Validation and NaN; durations *)

Section ValidationTheorems.

Import model.

Lemma le_nanOr_l (m : bool) (x y : float64) :
  (x <=? y)%f64 = false -> (nanOr m x <=? y)%f64 = false.
Proof. destruct m; cbn; trivial. Qed.

Lemma lt_nanOr (m m' : bool) (x y : float64) :
  (x <? y)%f64 = false -> (nanOr m x <? nanOr m' y)%f64 = false.
Proof. destruct m, m'; cbn; trivial. intros _. now destruct x. Qed.

Lemma lt_nanOr_l (m : bool) (x y : float64) :
  (x <? y)%f64 = false -> (nanOr m x <? y)%f64 = false.
Proof. apply (lt_nanOr m false). Qed.

Lemma gt_nanOr (m m' : bool) (x y : float64) :
  (x >? y)%f64 = false -> (nanOr m x >? nanOr m' y)%f64 = false.
Proof. unfold gt. apply lt_nanOr. Qed.

Lemma gt_nanOr_l (m : bool) (x y : float64) :
  (x >? y)%f64 = false -> (nanOr m x >? y)%f64 = false.
Proof. apply (gt_nanOr m false). Qed.

(** X26.  Validate does not reject NaN: overwriting any of the seven battery
    parameters or the state of charge of a battery that Validate accepts with
    NaN gives a battery that Validate (and so NewBattery) still accepts,
    because every comparison with NaN is false. *)
Theorem Validate_ignores_NaN (mask : nat -> bool) (b : model.Battery) :
  Validate b = Ok tt -> Validate (withNaN mask b) = Ok tt.
Proof.
  unfold Validate, withNaN.
  cbn [Params State SOC EnergyCapacityMWh PowerCapacityMW ChargeEfficiency
       DischargeEfficiency MinSOC MaxSOC DegradationCostPerMWh].
  destruct b as [[e p ce de mn mx dg] [s]].
  cbn [Params State SOC EnergyCapacityMWh PowerCapacityMW ChargeEfficiency
       DischargeEfficiency MinSOC MaxSOC DegradationCostPerMWh].
  destruct (e <=? f0)%f64 eqn:E1; [discriminate|].
  destruct (p <=? f0)%f64 eqn:E2; [discriminate|].
  destruct (ce <=? f0)%f64 eqn:E3; [discriminate|].
  destruct (ce >? f1)%f64 eqn:E4; [discriminate|]. cbn [orb].
  destruct (de <=? f0)%f64 eqn:E5; [discriminate|].
  destruct (de >? f1)%f64 eqn:E6; [discriminate|]. cbn [orb].
  destruct (mn <? f0)%f64 eqn:E7; [discriminate|].
  destruct (mn >? f1)%f64 eqn:E8; [discriminate|].
  destruct (mx <? f0)%f64 eqn:E9; [discriminate|].
  destruct (mx >? f1)%f64 eqn:E10; [discriminate|].
  destruct (mn >? mx)%f64 eqn:E11; [discriminate|]. cbn [orb].
  destruct (s <? mn)%f64 eqn:E12; [discriminate|].
  destruct (s >? mx)%f64 eqn:E13; [discriminate|]. cbn [orb].
  destruct (dg <? f0)%f64 eqn:E14; [discriminate|]. intros _.
  rewrite (le_nanOr_l _ _ _ E1), (le_nanOr_l _ _ _ E2), (le_nanOr_l _ _ _ E3),
    (gt_nanOr_l _ _ _ E4), (le_nanOr_l _ _ _ E5), (gt_nanOr_l _ _ _ E6),
    (lt_nanOr_l _ _ _ E7), (gt_nanOr_l _ _ _ E8), (lt_nanOr_l _ _ _ E9),
    (gt_nanOr_l _ _ _ E10), (gt_nanOr _ _ _ _ E11), (lt_nanOr _ _ _ _ E12),
    (gt_nanOr _ _ _ _ E13), (lt_nanOr_l _ _ _ E14).
  reflexivity.
Qed.

Lemma Validate_ignores_NaN_witness :
  Validate (withNaN (fun _ => true) sampleBattery) = Ok tt.
Proof.
  apply (@Validate_ignores_NaN (fun _ => true) sampleBattery). reflexivity.
Defined.

(** X27.  DurationHours of an interval is always a finite number, and it is
    positive exactly when the start of the pair of timestamps it measures (the
    UTC pair when both are set, the local pair otherwise) is before the end. *)
Theorem DurationHours_measures_instants (it : LMPInterval) :
  is_finite (DurationHours it) = true
  /\ (positive_finite (DurationHours it) = true
      <-> (unixNano (fst (measured it)) < unixNano (snd (measured it)))%Z).
Proof.
  unfold DurationHours, Hours, Duration, measured.
  destruct (negb (IsZero (IntervalEndUTC it)) && negb (IsZero (IntervalStartUTC it)));
    cbn [fst snd]; (split; [reflexivity|]); unfold positive_finite, gt, Sub;
    cbn [is_finite lt f0 andb mul same]; unfold Qltb; rewrite negb_true_iff, Qle_bool_false;
    unfold Qlt; cbn [Qnum Qden]; unfold minDuration, maxDuration; lia.
Qed.

End ValidationTheorems.

(** ** The ranking of the nodes *)

Section RankTheorems.

Import model analysis ranking.

Lemma ComputePotential_profit_number (l : list LMPInterval) (p : ArbitragePotential) :
  ComputePotential l = Ok p -> IsNaN (OracleProfit p) = false.
Proof.
  unfold ComputePotential. destruct l as [|i0 rest] eqn:El.
  { intro E. inversion E. reflexivity. }
  rewrite <- El.
  repeat match goal with
  | |- bind ?m _ = Ok _ -> _ =>
      let E := fresh "E" in destruct m eqn:E; try discriminate; cbn [bind]
  end.
  intro Hp. inversion Hp; subst p; clear Hp. cbn [OracleProfit].
  destruct (oracleProfitCanonical_floor l) as (v & Ev & Hv).
  match goal with
  | H : oracleProfitCanonical _ = Ok ?a |- IsNaN ?a = false =>
      rewrite H in Ev; inversion Ev; subst v
  end.
  apply le_nn in Hv. tauto.
Qed.

Lemma rank_loop (l : list (string * list LMPInterval)) (out0 out : list ArbitragePotential) :
  slice.foldM (fun out (kv : string * list LMPInterval) =>
                 p <- ComputePotential (snd kv) ;; Ok (out ++ [p])) l out0 = Ok out ->
  exists ps, out = out0 ++ ps
    /\ Forall2 (fun kv p => ComputePotential (snd kv) = Ok p) l ps.
Proof.
  revert out0. induction l as [|kv l IH]; intros out0; cbn [slice.foldM].
  - intro E. inversion E. exists []. split; [now rewrite app_nil_r | constructor].
  - destruct (ComputePotential (snd kv)) as [p|e|e] eqn:Ep; try discriminate. cbn [bind].
    intro E. destruct (IH _ E) as (ps & -> & Hps).
    exists (p :: ps). split; [now rewrite <- app_assoc | now constructor].
Qed.

Lemma In_rank_insert (x a : ArbitragePotential) (l : list ArbitragePotential) :
  In x (ranking.insert a l) <-> x = a \/ In x l.
Proof.
  induction l as [|y l IH]; cbn [ranking.insert].
  - cbn. intuition.
  - destruct (less a y); cbn [In]; [|rewrite IH]; intuition.
Qed.

Lemma rank_insert_length (a : ArbitragePotential) (l : list ArbitragePotential) :
  List.length (ranking.insert a l) = S (List.length l).
Proof.
  induction l as [|y l IH]; cbn [ranking.insert]; trivial.
  destruct (less a y); cbn [List.length]; now rewrite ?IH.
Qed.

Lemma rank_insert_descending (a : ArbitragePotential) (l : list ArbitragePotential) :
  IsNaN (OracleProfit a) = false ->
  Forall (fun p => IsNaN (OracleProfit p) = false) l ->
  descending (map OracleProfit l) ->
  descending (map OracleProfit (ranking.insert a l)).
Proof.
  intros Ha Hl. induction Hl as [|y l Hy Hl IH]; cbn [ranking.insert map descending].
  - intros _. split; [constructor | exact I].
  - intros [Hyl Hd]. unfold less.
    destruct (OracleProfit a >? OracleProfit y)%f64 eqn:E; cbn [map descending].
    + split; [|split; trivial].
      constructor; [now apply gt_le|].
      eapply Forall_impl; [|exact Hyl]. intros z Hz.
      eapply le_trans_f; [exact Hz | now apply gt_le].
    + split; [|now apply IH].
      apply Forall_forall. intros z Hz. apply in_map_iff in Hz.
      destruct Hz as (p & <- & Hp). apply In_rank_insert in Hp. destruct Hp as [->|Hp].
      * now apply not_gt_le.
      * rewrite Forall_forall in Hyl. apply Hyl. now apply in_map.
Qed.

Lemma rank_Slice (l : list ArbitragePotential) :
  Forall (fun p => IsNaN (OracleProfit p) = false) l ->
  descending (map OracleProfit (Slice l))
  /\ List.length (Slice l) = List.length l
  /\ forall p, In p (Slice l) <-> In p l.
Proof.
  induction 1 as [|x l Hx Hl (I1 & I2 & I3)]; cbn [Slice].
  - repeat split; trivial.
  - split; [|split].
    + apply rank_insert_descending; trivial.
      apply Forall_forall. intros p Hp. apply I3 in Hp.
      rewrite Forall_forall in Hl. now apply Hl.
    + now rewrite rank_insert_length, I2.
    + intro p. rewrite In_rank_insert, I3. cbn [In]. intuition.
Qed.

(** X13.  When RankByOracleProfit returns, it returns one potential per
    location, exactly the potentials ComputePotential gives for the locations'
    intervals, with OracleProfit in descending order; this holds for every
    order in which the map is iterated, because no OracleProfit is NaN. *)
Theorem RankByOracleProfit_sorted
    (byLocation : list (string * list LMPInterval)) (ranked : list ArbitragePotential) :
  RankByOracleProfit byLocation = Ok ranked ->
  List.length ranked = List.length byLocation
  /\ descending (map OracleProfit ranked)
  /\ forall p, In p ranked
               <-> exists kv, In kv byLocation /\ ComputePotential (snd kv) = Ok p.
Proof.
  unfold RankByOracleProfit.
  destruct (slice.foldM _ byLocation []) as [out|e|e] eqn:E; try discriminate.
  cbn [bind]. intro Er. inversion Er; subst ranked; clear Er.
  destruct (rank_loop _ _ E) as (ps & -> & Hps). cbn [app].
  assert (Hn : Forall (fun p => IsNaN (OracleProfit p) = false) ps).
  { clear E. induction Hps as [|kv p l ps Hp _ IH]; constructor; trivial.
    eapply ComputePotential_profit_number; eassumption. }
  destruct (rank_Slice Hn) as (S1 & S2 & S3).
  split; [|split; trivial].
  - rewrite S2. symmetry. eapply Forall2_length; eassumption.
  - intro p. rewrite S3. clear - Hps. split.
    + intro Hin. induction Hps as [|kv q l ps Hq _ IH]; [contradiction|].
      destruct Hin as [<-|Hin].
      * exists kv. split; [now left | trivial].
      * destruct (IH Hin) as (kv' & Hkv & Ekv). exists kv'. split; [now right | trivial].
    + intros (kv & Hkv & Ekv). induction Hps as [|kv' q l ps Hq _ IH]; [contradiction|].
      destruct Hkv as [->|Hkv].
      * left. congruence.
      * right. now apply IH.
Qed.

Lemma RankByOracleProfit_sorted_witness :
  List.length sampleRanking = List.length sampleNodes
  /\ descending (map OracleProfit sampleRanking)
  /\ forall p, In p sampleRanking
               <-> exists kv, In kv sampleNodes /\ ComputePotential (snd kv) = Ok p.
Proof.
  apply (@RankByOracleProfit_sorted sampleNodes sampleRanking).
  vm_compute. reflexivity.
Defined.

End RankTheorems.
